(** * PlanProof: the deterministic field mapper

    A shallow embedding of [planproof/pipeline/field_mapper.py] and of
    [extract_from_pdf_bytes] from [planproof/pipeline/extract.py], with the
    properties of the field-mapping engine stated and proved over it.

    Conventions of the embedding.
    - A Python [str] is a [string] whose characters are the code points
      below 256; character classes and case mapping follow Python on that
      range.
    - A text block (a [Dict[str, Any]]) is a record of the keys the mapper
      reads, each optional, as [dict.get] with a default reads them.
    - Confidences are the decimal literals of the source, kept as rationals;
      the source only stores and compares them.
    - [fields] and [evidence_index] are finite maps keyed by strings. The
      mapper state also keeps the sequence of keys assigned to [fields], in
      assignment order, so that write-once properties can be stated. *)

From stdpp Require Import gmap strings list pretty.
From Stdlib Require Import Ascii QArith.

Close Scope Q_scope.
Open Scope string_scope.
Open Scope list_scope.
Open Scope nat_scope.

(** ** Characters *)

Module Char.

Definition code (c : ascii) : N := N_of_ascii c.

Definition in_range (lo hi : N) (c : ascii) : bool :=
  ((lo <=? code c) && (code c <=? hi))%N.

(** [str.isspace], which is also what [\s] and [str.strip] use. *)
Definition is_space (c : ascii) : bool :=
  in_range 9 13 c || in_range 28 32 c || (code c =? 133)%N || (code c =? 160)%N.

(** [\d]: the decimal digits. *)
Definition is_digit (c : ascii) : bool := in_range 48 57 c.

(** [str.isupper] on one character. *)
Definition is_upper (c : ascii) : bool :=
  in_range 65 90 c || in_range 192 214 c || in_range 216 222 c.

(** [str.isalpha] on one character. *)
Definition is_alpha (c : ascii) : bool :=
  in_range 65 90 c || in_range 97 122 c
  || (code c =? 170)%N || (code c =? 181)%N || (code c =? 186)%N
  || in_range 192 214 c || in_range 216 246 c || in_range 248 255 c.

(** [\w]: alphanumeric ([str.isalnum]) or underscore. *)
Definition is_word (c : ascii) : bool :=
  is_alpha c || is_digit c || (code c =? 95)%N
  || in_range 178 179 c || (code c =? 185)%N || in_range 188 190 c.

Definition lower (c : ascii) : ascii :=
  if is_upper c then ascii_of_N (code c + 32) else c.

(** [str.upper] on one character. Python sends the code points 181, 223 and
    255 outside the range below 256; they are left unchanged here. The mapper
    upper-cases only regular-expression captures made of ASCII letters,
    digits, [-] and white space. *)
Definition upper (c : ascii) : ascii :=
  if in_range 97 122 c || in_range 224 246 c || in_range 248 254 c
  then ascii_of_N (code c - 32) else c.

End Char.

(** ** Strings *)

Module Str.

Fixpoint map (f : ascii → ascii) (s : string) : string :=
  match s with
  | EmptyString => EmptyString
  | String c s' => String (f c) (map f s')
  end.

Definition lower : string → string := map Char.lower.
Definition upper : string → string := map Char.upper.

(** [bool(s)]: a string is truthy when it is not empty. *)
Definition truthy (s : string) : bool :=
  match s with EmptyString => false | String _ _ => true end.

(** [s.startswith(p)] *)
Definition startswith (s p : string) : bool := String.prefix p s.

(** [sub in s] *)
Fixpoint contains (sub s : string) : bool :=
  String.prefix sub s ||
  match s with
  | EmptyString => false
  | String _ s' => contains sub s'
  end.

Fixpoint lstrip (s : string) : string :=
  match s with
  | EmptyString => EmptyString
  | String c s' => if Char.is_space c then lstrip s' else s
  end.

Fixpoint rstrip (s : string) : string :=
  match s with
  | EmptyString => EmptyString
  | String c s' =>
      match rstrip s' with
      | EmptyString => if Char.is_space c then EmptyString else String c EmptyString
      | r => String c r
      end
  end.

(** [s.strip()] *)
Definition strip (s : string) : string := rstrip (lstrip s).

(** [s.endswith(".")], for a one-character suffix. *)
Fixpoint endswith_char (s : string) (c : ascii) : bool :=
  match s with
  | EmptyString => false
  | String a EmptyString => Ascii.eqb a c
  | String _ s' => endswith_char s' c
  end.

(** [s[:n]] *)
Definition slice_to (n : nat) (s : string) : string := String.substring 0 n s.

(** [sep.join(parts)] *)
Fixpoint join (sep : string) (parts : list string) : string :=
  match parts with
  | [] => EmptyString
  | [p] => p
  | p :: ps => p +:+ sep +:+ join sep ps
  end.

(** The characters of [s] that satisfy [p], counted. *)
Fixpoint count (p : ascii → bool) (s : string) : nat :=
  match s with
  | EmptyString => 0
  | String c s' => (if p c then 1 else 0) + count p s'
  end.

End Str.

(** ** Regular expressions

    The fragment of Python's [re] syntax that the mapper's patterns use, with
    the matching order of a backtracking engine: alternatives left to right,
    greedy quantifiers longest first, lazy ones shortest first, the first
    start position at which a match exists. Every quantifier of the source
    applies to a single-character item, so quantifiers are kept on those. *)

Module Re.

(** An item of a bracketed class. *)
Inductive citem :=
| CChar (c : ascii)
| CRange (lo hi : ascii)
| CSpace
| CDigit.

(** What matches exactly one character. *)
Inductive single :=
| SChr (c : ascii)
| SAny
| SSpace
| SDigit
| SClass (items : list citem).

Inductive regex :=
| Eps
| One (s : single)
| Rep (greedy : bool) (lo : nat) (hi : option nat) (s : single)
| Seq (r1 r2 : regex)
| Alt (r1 r2 : regex)
| Group (n : nat) (r : regex)
| Bol
| Eol
| WordB.

(** The literal string [s] as a pattern. *)
Fixpoint lit (s : string) : regex :=
  match s with
  | EmptyString => Eps
  | String c EmptyString => One (SChr c)
  | String c s' => Seq (One (SChr c)) (lit s')
  end.

Fixpoint seqs (rs : list regex) : regex :=
  match rs with
  | [] => Eps
  | [r] => r
  | r :: rs' => Seq r (seqs rs')
  end.

Fixpoint alts (rs : list regex) : regex :=
  match rs with
  | [] => Eps
  | [r] => r
  | r :: rs' => Alt r (alts rs')
  end.

Definition star (s : single) : regex := Rep true 0 None s.
Definition plus (s : single) : regex := Rep true 1 None s.
Definition opt (s : single) : regex := Rep true 0 (Some 1) s.
Definition at_least (n : nat) (s : single) : regex := Rep true n None s.
Definition between (lo hi : nat) (s : single) : regex := Rep true lo (Some hi) s.

(** Character tests; [ci] is the [re.I] flag. *)
Definition chr_match (ci : bool) (a c : ascii) : bool :=
  if ci then Ascii.eqb (Char.lower a) (Char.lower c) else Ascii.eqb a c.

Definition range_match (ci : bool) (lo hi c : ascii) : bool :=
  let test x := Char.in_range (Char.code lo) (Char.code hi) x in
  test c || (ci && (test (Char.lower c) || test (Char.upper c))).

Definition citem_match (ci : bool) (i : citem) (c : ascii) : bool :=
  match i with
  | CChar a => chr_match ci a c
  | CRange lo hi => range_match ci lo hi c
  | CSpace => Char.is_space c
  | CDigit => Char.is_digit c
  end.

Definition single_match (ci : bool) (s : single) (c : ascii) : bool :=
  match s with
  | SChr a => chr_match ci a c
  | SAny => negb (Ascii.eqb c "010")
  | SSpace => Char.is_space c
  | SDigit => Char.is_digit c
  | SClass items => existsb (λ i, citem_match ci i c) items
  end.

(** The matcher's position: offset from the start of the subject, the
    character just before it, and the groups captured so far. The text still
    to be read is passed next to it. *)
Record mstate := MState {
  pos : nat;
  prev : option ascii;
  groups : list (nat * string)
}.

Definition start_state : mstate := MState 0 None [].

Definition advance (st : mstate) (c : ascii) : mstate :=
  MState (S (pos st)) (Some c) (groups st).

Definition set_group (n : nat) (txt : string) (st : mstate) : mstate :=
  MState (pos st) (prev st) ((n, txt) :: groups st).

Definition at_word_boundary (st : mstate) (rest : string) : bool :=
  let before := match prev st with Some c => Char.is_word c | None => false end in
  let after := match rest with String c _ => Char.is_word c | EmptyString => false end in
  xorb before after.

Definition dec_hi (hi : option nat) : option nat := Nat.pred <$> hi.

Section Matcher.
Context {A : Type} (ci : bool).

Fixpoint rep_greedy (s : single) (lo : nat) (hi : option nat)
    (st : mstate) (rest : string) (k : mstate → string → option A) : option A :=
  let stop := match lo with O => k st rest | S _ => None end in
  match hi with
  | Some O => stop
  | _ =>
    match rest with
    | EmptyString => stop
    | String c rest' =>
        if single_match ci s c then
          match rep_greedy s (Nat.pred lo) (dec_hi hi) (advance st c) rest' k with
          | Some x => Some x
          | None => stop
          end
        else stop
    end
  end.

Fixpoint rep_lazy (s : single) (lo : nat) (hi : option nat)
    (st : mstate) (rest : string) (k : mstate → string → option A) : option A :=
  let more :=
    match hi with
    | Some O => None
    | _ =>
      match rest with
      | EmptyString => None
      | String c rest' =>
          if single_match ci s c
          then rep_lazy s (Nat.pred lo) (dec_hi hi) (advance st c) rest' k
          else None
      end
    end in
  match lo with
  | O => match k st rest with Some x => Some x | None => more end
  | S _ => more
  end.

Fixpoint run (r : regex) (st : mstate) (rest : string)
    (k : mstate → string → option A) : option A :=
  match r with
  | Eps => k st rest
  | One s =>
      match rest with
      | String c rest' => if single_match ci s c then k (advance st c) rest' else None
      | EmptyString => None
      end
  | Rep true lo hi s => rep_greedy s lo hi st rest k
  | Rep false lo hi s => rep_lazy s lo hi st rest k
  | Seq r1 r2 => run r1 st rest (λ st' rest', run r2 st' rest' k)
  | Alt r1 r2 =>
      match run r1 st rest k with
      | Some x => Some x
      | None => run r2 st rest k
      end
  | Group n r1 =>
      run r1 st rest
        (λ st' rest', k (set_group n (String.substring 0 (pos st' - pos st) rest) st') rest')
  | Bol => match pos st with O => k st rest | S _ => None end
  | Eol =>
      match rest with
      | EmptyString => k st rest
      | String c EmptyString => if Ascii.eqb c "010" then k st rest else None
      | _ => None
      end
  | WordB => if at_word_boundary st rest then k st rest else None
  end.
End Matcher.

(** A match object: where the match starts and ends, its text, the captured
    groups, and the subject text after the match. *)
Record mresult := MResult {
  m_start : nat;
  m_end : nat;
  m_text : string;
  m_groups : list (nat * string);
  m_tail : string
}.

Definition match_at (ci : bool) (r : regex) (st : mstate) (rest : string) : option mresult :=
  run ci r (MState (pos st) (prev st) []) rest
    (λ st' rest',
       Some (MResult (pos st) (pos st')
               (String.substring 0 (pos st' - pos st) rest) (groups st') rest')).

Fixpoint search_from (ci : bool) (r : regex) (st : mstate) (rest : string) : option mresult :=
  match match_at ci r st rest with
  | Some m => Some m
  | None =>
      match rest with
      | EmptyString => None
      | String c rest' => search_from ci r (advance st c) rest'
      end
  end.

(** [re.search(r, s)] and [re.match(r, s)]; the flag comes first. *)
Definition search (ci : bool) (r : regex) (s : string) : option mresult :=
  search_from ci r start_state s.

Definition match_ (ci : bool) (r : regex) (s : string) : option mresult :=
  match_at ci r start_state s.

(** [m.group(n)] for a group that took part in the match. *)
Fixpoint assoc (n : nat) (gs : list (nat * string)) : option string :=
  match gs with
  | [] => None
  | (i, txt) :: gs' => if (i =? n)%nat then Some txt else assoc n gs'
  end.

Definition group (n : nat) (m : mresult) : option string := assoc n (m_groups m).

(** [re.split(r, s, maxsplit=1)] for a pattern without groups: [None] stands
    for the one-element list [[s]], [Some (a, b)] for [[a, b]]. *)
Definition split_once (r : regex) (s : string) : option (string * string) :=
  match search false r s with
  | Some m => Some (String.substring 0 (m_start m) s, m_tail m)
  | None => None
  end.

(** [re.sub(r, repl, s)] for a literal replacement: the scan walks through
    the subject; [skip] counts the characters of the last match that are
    still to be passed over. An empty match is replaced and the scan moves on
    by one character. *)
Fixpoint sub_from (r : regex) (repl : string) (st : mstate) (rest : string) (skip : nat) : string :=
  match rest with
  | EmptyString =>
      match skip, match_at false r st rest with
      | O, Some _ => repl
      | _, _ => EmptyString
      end
  | String c rest' =>
      match skip with
      | S skip' => sub_from r repl (advance st c) rest' skip'
      | O =>
          match match_at false r st rest with
          | Some m =>
              match m_end m - m_start m with
              | O => repl +:+ String c (sub_from r repl (advance st c) rest' 0)
              | S n => repl +:+ sub_from r repl (advance st c) rest' n
              end
          | None => String c (sub_from r repl (advance st c) rest' 0)
          end
      end
  end.

Definition sub (r : regex) (repl : string) (s : string) : string :=
  sub_from r repl start_state s 0.

End Re.

(** ** Generic loop helpers *)

(** [for i, x in enumerate(l)] with an early [return]/[break] at the first
    element for which the body yields a result; [i] counts from [start]. *)
Fixpoint find_map_from {A B : Type} (f : nat → A → option B) (start : nat) (l : list A) : option B :=
  match l with
  | [] => None
  | x :: l' =>
      match f start x with
      | Some y => Some y
      | None => find_map_from f (S start) l'
      end
  end.

Definition find_map {A B : Type} (f : nat → A → option B) (l : list A) : option B :=
  find_map_from f 0 l.

(** [for i, x in enumerate(l)] threading a state through the body. *)
Fixpoint fold_from {A St : Type} (f : St → nat → A → St) (start : nat) (l : list A) (s : St) : St :=
  match l with
  | [] => s
  | x :: l' => fold_from f (S start) l' (f s start x)
  end.

Definition fold_enum {A St : Type} (f : St → nat → A → St) (l : list A) (s : St) : St :=
  fold_from f 0 l s.

(** [any(k in s for k in keys)] *)
Definition any_in (keys : list string) (s : string) : bool :=
  existsb (λ k, Str.contains k s) keys.

Definition is_some {A : Type} (o : option A) : bool :=
  match o with Some _ => true | None => false end.

(** Comparison of confidences: [x < y] and [x <= y]. *)
Definition Qltb (x y : Q) : bool := negb (Qle_bool y x).
Definition Qleb (x y : Q) : bool := Qle_bool x y.

(** Truthiness of an [Optional[str]]: neither [None] nor empty. *)
Definition truthy_opt (o : option string) : bool :=
  match o with Some s => Str.truthy s | None => false end.

(** ** Pattern library *)

Module Pat.
Import Re.

Definition az : citem := CRange "A" "Z".
Definition d09 : citem := CRange "0" "9".

(** [[A-Z]{1,2}\d[A-Z\d]?\s*\d[A-Z]{2}] *)
Definition postcode_body : regex :=
  seqs [between 1 2 (SClass [az]); One SDigit; opt (SClass [az; CDigit]);
        star SSpace; One SDigit; between 2 2 (SClass [az])].

(** [\b([A-Z]{1,2}\d[A-Z\d]?\s*\d[A-Z]{2})\b], [re.I] *)
Definition POSTCODE_RE : regex := seqs [WordB; Group 1 postcode_body; WordB].

(** [\b[A-Z0-9._%+-]+@[A-Z0-9.-]+\.[A-Z]{2,}\b], [re.I] *)
Definition EMAIL_RE : regex :=
  seqs [WordB;
        plus (SClass [az; d09; CChar "."; CChar "_"; CChar "%"; CChar "+"; CChar "-"]);
        One (SChr "@");
        plus (SClass [az; d09; CChar "."; CChar "-"]);
        One (SChr ".");
        at_least 2 (SClass [az]);
        WordB].

(** [\b(\+?\d[\d\s().-]{8,}\d)\b] *)
Definition PHONE_RE : regex :=
  seqs [WordB;
        Group 1 (seqs [opt (SChr "+"); One SDigit;
                       at_least 8 (SClass [CDigit; CSpace; CChar "("; CChar ")"; CChar "."; CChar "-"]);
                       One SDigit]);
        WordB].

(** [\b(PP-\d{6,}|20\d{6,}[A-Z]{1,3})\b], [re.I] *)
Definition APPREF_RE : regex :=
  seqs [WordB;
        Group 1 (Alt (seqs [lit "PP-"; at_least 6 SDigit])
                     (seqs [lit "20"; at_least 6 SDigit; between 1 3 (SClass [az])]));
        WordB].

(** [\b\d{1,2}[./-]\d{1,2}[./-]\d{2,4}\b] *)
Definition DATE_LIKE : regex :=
  let sep := One (SClass [CChar "."; CChar "/"; CChar "-"]) in
  seqs [WordB; between 1 2 SDigit; sep; between 1 2 SDigit; sep; between 2 4 SDigit; WordB].

(** [^\s*\d+\s+[A-Z0-9'’\- ]{4,}$]. The class of the source also lists the
    right single quotation mark U+2019, which is no character of the modelled
    range and is left out. *)
Definition ADDRESS_LIKE : regex :=
  seqs [Bol; star SSpace; plus SDigit; plus SSpace;
        at_least 4 (SClass [az; d09; CChar "'"; CChar "-"; CChar " "]);
        Eol].

(** [\b(PROPOS|DEVELOPMENT|CONVERSION|USE|HMO|EXTENSION|LOFT|DORMER)\b], [re.I] *)
Definition PROPOSAL_HINTS : regex :=
  seqs [WordB;
        Group 1 (alts [lit "PROPOS"; lit "DEVELOPMENT"; lit "CONVERSION"; lit "USE";
                       lit "HMO"; lit "EXTENSION"; lit "LOFT"; lit "DORMER"]);
        WordB].

(** [\s+], [:], [:|for], [,\s*$], [^\s*\d+\s+\d+\s*$], [^\s*\d+\s*$] *)
Definition SPACES : regex := plus SSpace.
Definition COLON : regex := lit ":".
Definition COLON_OR_FOR : regex := Alt (lit ":") (lit "for").
Definition TRAILING_COMMA : regex := seqs [lit ","; star SSpace; Eol].
Definition GRID_REF : regex :=
  seqs [Bol; star SSpace; plus SDigit; plus SSpace; plus SDigit; star SSpace; Eol].
Definition ONLY_DIGITS : regex := seqs [Bol; star SSpace; plus SDigit; star SSpace; Eol].

(** [demolition\s+of\s+(.+?)(?:\s+([A-Z]{1,2}\d[A-Z\d]?\s*\d[A-Z]{2}))], [re.I] *)
Definition DEMOLITION_RE : regex :=
  seqs [lit "demolition"; plus SSpace; lit "of"; plus SSpace;
        Group 1 (Rep false 1 None SAny);
        plus SSpace; Group 2 postcode_body].

(** A dictionary literal, in insertion order. *)
Definition LABEL_PATTERNS : list (string * list regex) :=
  [("site_address", [lit "site address"; lit "address of site"; lit "site location"]);
   ("proposal_description",
      [lit "proposal"; lit "description of development"; lit "proposed development";
       lit "what are you proposing"]);
   ("applicant_name",
      [lit "applicant name"; lit "name of applicant"; lit "first name"; lit "surname"]);
   ("agent_name", [lit "agent name"; lit "name of agent"]);
   ("proposed_use",
      [lit "i/we hereby apply for prior approval"; lit "prior approval for"; lit "declaration"])].

Definition DOC_TYPE_HINTS : list (string * list regex) :=
  [("application_form",
      [lit "application form"; lit "planning application"; lit "town and country planning";
       lit "planning portal reference"; lit "application to determine if prior approval";
       lit "i/we hereby apply for prior approval"; lit "prior approval"]);
   ("site_notice",
      [lit "statement of display of a site notice"; lit "site notice of application";
       lit "site notice"; lit "notice of application"]);
   ("site_plan",
      [seqs [lit "location"; star SSpace; lit "&"; star SSpace; lit "block"; star SSpace; lit "plan"];
       lit "location plan"; lit "block plan";
       seqs [WordB; lit "1:1250"; WordB];
       seqs [WordB; lit "1:500"; WordB];
       seqs [WordB; lit "1:2500"; WordB]]);
   ("drawing",
      [lit "existing"; lit "proposed"; lit "elevation"; lit "floor plan"; lit "section"]);
   ("design_statement",
      [lit "design and access statement";
       seqs [lit "design"; star SSpace; lit "&"; star SSpace; lit "access"]]);
   ("heritage",
      [lit "heritage statement"; lit "listed building"; lit "conservation area"])].

End Pat.

(** ** Data model *)

(** A text block: the keys of the dictionary that the mapper reads. *)
Record block := Block {
  content : option string;
  text : option string;
  page_number : option Z;
  page : option Z;
  index : option Z
}.

(** [b.get("content", b.get("text", ""))] *)
Definition block_text (b : block) : string :=
  default (default "" (text b)) (content b).

(** [int(b.get("page_number", b.get("page", 0)))] *)
Definition block_page (b : block) : Z :=
  default (default 0%Z (page b)) (page_number b).

(** [f"p{page_num}b{b.get('index', '')}"] *)
Definition block_id (b : block) : string :=
  "p" +:+ pretty (block_page b) +:+ "b" +:+
  match index b with Some i => pretty i | None => "" end.

Record evidence_entry := Evidence {
  ev_page : Z;
  ev_block_id : string;
  ev_snippet : string;
  ev_confidence : Q;
  ev_source_doc_type : option string
}.

(** A value stored in [fields]: a string, or a confidence. *)
Inductive value :=
| VStr (s : string)
| VNum (q : Q).

(** ** Text normalizer *)

(** [re.sub(r"\s+", " ", (s or "")).strip()] *)
Definition _norm (s : string) : string := Str.strip (Re.sub Pat.SPACES " " s).

Definition _add_ev (ev : gmap string (list evidence_entry)) (field : string) (page : Z)
    (block_id : string) (snippet : string) (confidence : Q) (source_doc_type : option string)
    : gmap string (list evidence_entry) :=
  <[field := (default [] (ev !! field) ++
      [Evidence page block_id (Str.slice_to 240 (_norm snippet)) confidence source_doc_type])%list]> ev.

(** [upp / max(1, len(letters)) > 0.8] is decided on the integers. *)
Definition _looks_like_allcaps (s : string) : bool :=
  let letters := Str.count Char.is_alpha s in
  if letters <? 8 then false
  else
    let upp := Str.count (λ c, Char.is_alpha c && Char.is_upper c) s in
    4 * Nat.max 1 letters <? 5 * upp.

Definition _is_noise (s : string) : bool :=
  any_in ["copyright"; "notes:"; "scale"; "printed on"; "os 1000";
          "disclaimer"; "this drawing"; "for information only"] (Str.lower s).

Definition _is_council_contact (s : string) : bool :=
  any_in ["birmingham.gov.uk"; "planning.registration"; "council"; "local authority";
          "planning department"; "planning@"; "0121 464"; "po box"] (Str.lower s).

(** The blocks at the indices [max(0, block_index - 10) .. block_index - 1];
    every caller passes the index of a block of [blocks]. *)
Definition _is_in_site_location_section (blocks : list block) (block_index : nat) : bool :=
  existsb
    (λ b, any_in ["site location"; "site address"; "address of site";
                  "location of site"; "property address"]
            (Str.lower (_norm (block_text b))))
    (take (block_index - (block_index - 10)) (drop (block_index - 10) blocks)).

Definition looks_like_phone (s : string) : bool :=
  negb (is_some (Re.search false Pat.DATE_LIKE s)).

(** ** Document classifier *)

Definition priority_order : list string :=
  ["application_form"; "site_notice"; "site_plan"; "design_statement"; "heritage"; "drawing"].

Fixpoint dict_get {V : Type} (k : string) (d : list (string * V)) : option V :=
  match d with
  | [] => None
  | (k', v) :: d' => if String.eqb k' k then Some v else dict_get k d'
  end.

(** [sum(1 for h in hints if re.search(h, text))] *)
Definition hint_score (hints : list Re.regex) (corpus : string) : nat :=
  length (filter (λ h, is_some (Re.search false h corpus) = true) hints).

(** The search corpus of [classify_document]. *)
Definition corpus (text_blocks : list block) : string :=
  Str.lower (Str.join " " ((λ b, _norm (block_text b)) <$> take 200 text_blocks)).

Definition classify_priority (text : string) : string * nat :=
  foldl
    (λ best dtype,
       match dict_get dtype Pat.DOC_TYPE_HINTS with
       | None => best
       | Some hints =>
           let score := hint_score hints text in
           if snd best <? score then (dtype, score) else best
       end)
    ("unknown", 0) priority_order.

Definition classify_remaining (text : string) (best : string * nat) : string * nat :=
  foldl
    (λ best '(dtype, hints),
       if negb (existsb (String.eqb dtype) priority_order) then
         let score := hint_score hints text in
         if snd best <? score then (dtype, score) else best
       else best)
    best Pat.DOC_TYPE_HINTS.

Definition classify_document (text_blocks : list block) : string :=
  let text := corpus text_blocks in
  let best := classify_priority text in
  let best := if snd best =? 0 then classify_remaining text best else best in
  fst best.

(** ** Address extraction *)

(** What an extractor returns: [None] for the triple [(None, None, 0.0)],
    otherwise the value, its source block and the confidence. *)
Definition extraction : Type := option (string * block * Q).

(** The five local variables of [extract_site_address_from_section]. *)
Record address_parts := AddressParts {
  property_name : option string;
  address_line1 : option string;
  address_line2 : option string;
  town_city : option string;
  postcode : option string
}.

Definition no_parts : address_parts := AddressParts None None None None None.

Definition set_property_name (v : string) (a : address_parts) : address_parts :=
  AddressParts (Some v) (address_line1 a) (address_line2 a) (town_city a) (postcode a).
Definition set_address_line1 (v : string) (a : address_parts) : address_parts :=
  AddressParts (property_name a) (Some v) (address_line2 a) (town_city a) (postcode a).
Definition set_address_line2 (v : string) (a : address_parts) : address_parts :=
  AddressParts (property_name a) (address_line1 a) (Some v) (town_city a) (postcode a).
Definition set_town_city (v : string) (a : address_parts) : address_parts :=
  AddressParts (property_name a) (address_line1 a) (address_line2 a) (Some v) (postcode a).
Definition set_postcode (v : string) (a : address_parts) : address_parts :=
  AddressParts (property_name a) (address_line1 a) (address_line2 a) (town_city a) (Some v).

(** [POSTCODE_RE.search(s)] followed by [.group(1).upper()] *)
Definition search_postcode (s : string) : option string :=
  match Re.search true Pat.POSTCODE_RE s with
  | Some m => Some (Str.upper (default "" (Re.group 1 m)))
  | None => None
  end.

(** [parts = re.split(r":", t, maxsplit=1); if len(parts) == 2: field = _norm(parts[1])] *)
Definition labelled_value (t : string) (set : string → address_parts → address_parts)
    (a : address_parts) : address_parts :=
  match Re.split_once Pat.COLON t with
  | Some (_, v) => set (_norm v) a
  | None => a
  end.

(** The labelled sub-fields read from the block itself. *)
Definition section_labels (t tl : string) (a : address_parts) : address_parts :=
  let a :=
    if Str.contains "property name" tl && negb (truthy_opt (property_name a))
    then labelled_value t set_property_name a else a in
  let a :=
    if Str.contains "address line 1" tl
       || (Str.contains "address" tl && Str.contains "line" tl && Str.contains "1" tl)
    then labelled_value t set_address_line1 a else a in
  let a :=
    if Str.contains "address line 2" tl
       || (Str.contains "address" tl && Str.contains "line" tl && Str.contains "2" tl)
    then labelled_value t set_address_line2 a else a in
  let a :=
    if Str.contains "town" tl || Str.contains "city" tl
    then labelled_value t set_town_city a else a in
  if Str.contains "postcode" tl then
    match Re.split_once Pat.COLON t with
    | Some (_, v) =>
        match search_postcode v with
        | Some pc => set_postcode pc a
        | None => a
        end
    | None => a
    end
  else a.

(** The value-follows-label convention: the label sits in the block before. *)
Definition section_follows (t prev_t : string) (a : address_parts) : address_parts :=
  if Str.contains "property name" prev_t && negb (truthy_opt (property_name a))
  then set_property_name t a
  else if (Str.contains "address line 1" prev_t || Str.contains "address" prev_t)
          && negb (truthy_opt (address_line1 a))
  then set_address_line1 t a
  else if Str.contains "address line 2" prev_t && negb (truthy_opt (address_line2 a))
  then set_address_line2 t a
  else if (Str.contains "town" prev_t || Str.contains "city" prev_t)
          && negb (truthy_opt (town_city a))
  then set_town_city t a
  else if Str.contains "postcode" prev_t && negb (truthy_opt (postcode a))
  then match search_postcode t with
       | Some pc => set_postcode pc a
       | None => a
       end
  else a.

(** The body of the loop over [range(start_idx + 1, min(start_idx + 20,
    len(blocks)))]; the indices of that range are indices of [blocks]. *)
Definition section_step (blocks : list block) (start_idx : nat)
    (a : address_parts) (i : nat) : address_parts :=
  match blocks !! i with
  | None => a
  | Some b =>
      let t := _norm (block_text b) in
      let tl := Str.lower t in
      if negb (Str.truthy t) || _is_noise t || (String.length t <? 2) then a
      else
        let a := section_labels t tl a in
        if start_idx + 1 <? i then
          match blocks !! (i - 1) with
          | None => a
          | Some pb => section_follows t (Str.lower (_norm (block_text pb))) a
          end
        else a
  end.

Definition address_list (a : address_parts) : list string :=
  omap (λ o : option string, if truthy_opt o then o else None)
    [property_name a; address_line1 a; address_line2 a; town_city a; postcode a].

Definition extract_site_address_from_section (blocks : list block) : extraction :=
  let header :=
    find_map
      (λ i b,
         if any_in ["site location"; "site address"; "address of site"; "property address"]
              (Str.lower (_norm (block_text b)))
         then Some (i, b) else None)
      (take 200 blocks) in
  match header with
  | None => None
  | Some (start_idx, source_block) =>
      let stop := Nat.min (start_idx + 20) (length blocks) in
      let a := foldl (section_step blocks start_idx) no_parts
                 (seq (start_idx + 1) (stop - (start_idx + 1))) in
      match address_list a with
      | [] => None
      | address_parts => Some (Str.join ", " address_parts, source_block, 0.95%Q)
      end
  end.

(** [address_part = match.group(1).strip()] followed by
    [address_part = re.sub(r",\s*$", "", address_part)]: the captured address
    text, trailing comma stripped. *)
Definition demolition_address_part (m : Re.mresult) : string :=
  Re.sub Pat.TRAILING_COMMA "" (Str.strip (default "" (Re.group 1 m))).

(** [full_address]: the address part, [", "] and the upper-cased postcode of
    group 2 when there is one. *)
Definition demolition_full_address (m : Re.mresult) : string :=
  let address_part := demolition_address_part m in
  let postcode_part := Str.upper <$> Re.group 2 m in
  match postcode_part with
  | Some pc => address_part +:+ ", " +:+ pc
  | None => address_part
  end.

(** The body of the loop of [extract_address_from_demolition_pattern]. *)
Definition demolition_hit (b : block) : extraction :=
  let t := _norm (block_text b) in
  let tl := Str.lower t in
  if Str.contains "demolition of" tl || Str.contains "demolition" tl then
    match Re.search true Pat.DEMOLITION_RE t with
    | Some m =>
        let full_address := demolition_full_address m in
        if 10 <? String.length full_address then Some (full_address, b, 0.85%Q) else None
    | None => None
    end
  else None.

Definition extract_address_from_demolition_pattern (blocks : list block) : extraction :=
  find_map (λ (_ : nat) b, demolition_hit b) (take 100 blocks).

(** The running best of the plan-sheet scan: [(best_match, best_block,
    best_confidence)], [None] while [best_match] is [None]. *)
Definition heuristic_step (blocks : list block)
    (best : option (string * block) * Q) (i : nat) (b : block) : option (string * block) * Q :=
  let t := _norm (block_text b) in
  if negb (Str.truthy t) || _is_noise t then best
  else if (String.length t <? 5) || Str.contains "disclaimer" (Str.lower t)
          || Str.contains "for information" (Str.lower t) then best
  else if is_some (Re.match_ false Pat.GRID_REF t) then best
  else if is_some (Re.match_ false Pat.ONLY_DIGITS t) then best
  else
    let in_site_section := _is_in_site_location_section blocks i in
    if is_some (Re.match_ false Pat.ADDRESS_LIKE t) then
      let confidence := if in_site_section then 0.7%Q else 0.4%Q in
      if Qltb (snd best) confidence then (Some (t, b), confidence) else best
    else if any_in ["site address"; "address of site"; "site location"] (Str.lower t) then
      match Re.split_once Pat.COLON t with
      | Some (_, v) =>
          let val := _norm v in
          if Str.truthy val && (5 <? String.length val) then
            let confidence := if in_site_section then 0.8%Q else 0.6%Q in
            if Qltb (snd best) confidence then (Some (val, b), confidence) else best
          else best
      | None => best
      end
    else best.

Definition pick_site_address (blocks : list block) : extraction :=
  let ok (threshold : Q) (r : extraction) : bool :=
    match r with
    | Some (addr, _, conf) => Str.truthy addr && Qleb threshold conf
    | None => false
    end in
  let s1 := extract_site_address_from_section blocks in
  if ok 0.9%Q s1 then s1
  else
    let s2 := extract_address_from_demolition_pattern blocks in
    if ok 0.8%Q s2 then s2
    else
      match fold_enum (heuristic_step blocks) (take 100 blocks) (None, 0%Q) with
      | (Some (best_match, best_block), best_confidence) =>
          if Str.truthy best_match && Qltb 0.3%Q best_confidence
          then Some (best_match, best_block, best_confidence)
          else None
      | (None, _) => None
      end.

(** ** Proposed use and labelled fields *)

Definition pick_proposed_use (blocks : list block) : extraction :=
  find_map
    (λ (_ : nat) b,
       let t := _norm (block_text b) in
       if negb (Str.truthy t) || _is_noise t then None
       else if is_some (Re.search true Pat.PROPOSAL_HINTS t)
               && (20 <=? String.length t)
               && (_looks_like_allcaps t || Str.endswith_char t ".")
       then Some (t, b, if 30 <=? String.length t then 0.7%Q else 0.5%Q)
       else None)
    (take 80 blocks).

(** The body of [for j in range(1, 4)]: the texts gathered so far and whether
    the loop has hit its [break]. *)
Definition label_next_step (text_blocks : list block) (i : nat)
    (acc : list string * bool) (j : nat) : list string * bool :=
  let '(nxt, stopped) := acc in
  if stopped then acc
  else
    let nxt :=
      match text_blocks !! (i + j) with
      | Some nb =>
          let nxt_txt := _norm (block_text nb) in
          if Str.truthy nxt_txt then nxt ++ [nxt_txt] else nxt
      | None => nxt
      end in
    (nxt, 20 <? String.length (Str.join " " nxt)).

Definition extract_by_label (text_blocks : list block) (label_patterns : list Re.regex)
    : option (string * block) :=
  find_map
    (λ i b,
       let t := _norm (block_text b) in
       let tl := Str.lower t in
       if existsb (λ p, is_some (Re.search false p tl)) label_patterns then
         let after_colon :=
           match Re.split_once Pat.COLON t with
           | Some (_, v) => if Str.truthy (_norm v) then Some (_norm v) else None
           | None => None
           end in
         match after_colon with
         | Some v => Some (v, b)
         | None =>
             match fst (foldl (label_next_step text_blocks i) ([], false) [1; 2; 3]) with
             | [] => None
             | nxt => Some (_norm (Str.join " " nxt), b)
             end
         end
       else None)
    text_blocks.

(** ** The mapper *)

(** The two dictionaries [map_fields] fills, and the keys assigned to
    [fields] so far, oldest first. *)
Record mapper_state := MapperState {
  fields : gmap string value;
  evidence : gmap string (list evidence_entry);
  writes : list string
}.

Definition empty_state : mapper_state := MapperState ∅ ∅ [].

(** [fields[k] = v] *)
Definition assign (k : string) (v : value) (st : mapper_state) : mapper_state :=
  MapperState (<[k := v]> (fields st)) (evidence st) (writes st ++ [k]).

(** [k in fields] *)
Definition in_fields (k : string) (st : mapper_state) : bool := is_some (fields st !! k).

(** [page_num = int(b.get("page_number", b.get("page", 0)));
     block_id = f"p{page_num}b{b.get('index', '')}";
     _add_ev(evidence, field, page_num, block_id, snippet, confidence, dtype)] *)
Definition add_evidence (field : string) (b : block) (snippet : string) (confidence : Q)
    (dtype : string) (st : mapper_state) : mapper_state :=
  MapperState (fields st)
    (_add_ev (evidence st) field (block_page b) (block_id b) snippet confidence (Some dtype))
    (writes st).

Definition map_application_ref (blocks : list block) (dtype : string)
    (st : mapper_state) : mapper_state :=
  let hit :=
    find_map
      (λ (_ : nat) b,
         let t := block_text b in
         match Re.search true Pat.APPREF_RE t with
         | Some m => Some (b, t, Str.upper (default "" (Re.group 1 m)))
         | None => None
         end)
      (take 400 blocks) in
  match hit with
  | Some (b, t, ref) =>
      let st :=
        if Str.startswith ref "PP-"
        then assign "application_ref" (VStr ref) st
        else assign "application_ref" (VStr ref) st in
      let st :=
        assign "application_ref_confidence"
          (VNum (if Str.contains "PP-" ref then 0.9%Q else 0.8%Q)) st in
      let confidence := if Str.contains "PP-" ref then 0.9%Q else 0.8%Q in
      add_evidence "application_ref" b t confidence dtype st
  | None => st
  end.

Definition map_site_address (blocks : list block) (dtype : string)
    (st : mapper_state) : mapper_state :=
  if negb (in_fields "site_address" st) then
    match pick_site_address blocks with
    | Some (addr, src, conf) =>
        if Str.truthy addr then
          let st := assign "site_address" (VStr addr) st in
          let st := assign "site_address_confidence" (VNum conf) st in
          add_evidence "site_address" src (block_text src) conf dtype st
        else st
    | None => st
    end
  else st.

(** The body of the loop over the first 100 blocks for the Prior Approval
    declaration: the value a block yields, with the block and its normalized
    text. *)
Definition prior_approval_value (b : block) : option (string * block * string) :=
  let t := _norm (block_text b) in
  let tl := Str.lower t in
  if Str.contains "i/we hereby apply for prior approval" tl
     || Str.contains "prior approval for" tl then
    match Re.split_once Pat.COLON_OR_FOR t with
    | Some (_, v) =>
        let prop_text := _norm v in
        if 10 <? String.length prop_text then Some (prop_text, b, t) else None
    | None => None
    end
  else None.

(** The first block of the first 100 that yields a value. *)
Definition prior_approval_hit (blocks : list block) : option (string * block * string) :=
  find_map (λ (_ : nat) b, prior_approval_value b) (take 100 blocks).

Definition map_proposed_use (blocks : list block) (dtype : string)
    (st : mapper_state) : mapper_state :=
  if negb (in_fields "proposed_use" st) then
    let st :=
      match prior_approval_hit blocks with
      | Some (prop_text, b, t) =>
          let st := assign "proposed_use" (VStr prop_text) st in
          let st := assign "proposed_use_confidence" (VNum 0.9%Q) st in
          add_evidence "proposed_use" b t 0.9%Q dtype st
      | None => st
      end in
    if negb (in_fields "proposed_use" st) then
      match pick_proposed_use blocks with
      | Some (prop, src, conf) =>
          if Str.truthy prop then
            let st := assign "proposed_use" (VStr prop) st in
            let st := assign "proposed_use_confidence" (VNum conf) st in
            add_evidence "proposed_use" src (block_text src) conf dtype st
          else st
      | None => st
      end
    else st
  else st.

(** The body of [for field, pats in LABEL_PATTERNS.items()]. *)
Definition map_label (blocks : list block) (dtype : string)
    (st : mapper_state) (entry : string * list Re.regex) : mapper_state :=
  let '(field, pats) := entry in
  if negb (in_fields field st) then
    match extract_by_label blocks pats with
    | Some (val, src) =>
        if Str.truthy val then
          let st := assign field (VStr val) st in
          let st := assign (field +:+ "_confidence") (VNum 0.7%Q) st in
          add_evidence field src (block_text src) 0.7%Q dtype st
        else st
    | None => st
    end
  else st.

Definition map_labels (blocks : list block) (dtype : string)
    (st : mapper_state) : mapper_state :=
  foldl (map_label blocks dtype) st Pat.LABEL_PATTERNS.

(** A postcode candidate: [(postcode, b, confidence, i)]. *)
Definition candidate : Type := string * block * Q * nat.

Definition cand_conf (c : candidate) : Q := snd (fst c).

(** The hard penalty of a candidate: council-contact text that holds the
    municipal PO-box postcode or mentions a PO box. *)
Definition postcode_penalized (t postcode : string) : bool :=
  let tl := Str.lower t in
  (_is_council_contact t || Str.contains "po box" tl
   || Str.contains "birmingham city council" tl)
  && (Str.startswith postcode "B1 1TU" || Str.contains "po box" tl).

Definition postcode_confidence (blocks : list block) (i : nat) (t postcode : string) : Q :=
  let in_site_section := _is_in_site_location_section blocks i in
  let tl := Str.lower t in
  let confidence :=
    if in_site_section || Str.contains "postcode" tl then 0.9%Q
    else if Str.contains "site" tl || Str.contains "address" tl then 0.7%Q
    else 0.5%Q in
  if postcode_penalized t postcode then 0.1%Q else confidence.

(** The candidate a block contributes, if its text holds a postcode. *)
Definition postcode_candidate (blocks : list block) (i : nat) (b : block) : option candidate :=
  let t := block_text b in
  match search_postcode t with
  | Some postcode => Some (postcode, b, postcode_confidence blocks i t postcode, i)
  | None => None
  end.

Definition postcode_candidates (blocks : list block) : list candidate :=
  fold_enum
    (λ acc i b,
       match postcode_candidate blocks i b with
       | Some c => acc ++ [c]
       | None => acc
       end)
    (take 400 blocks) [].

(** [list.sort(key=lambda x: x[2], reverse=True)]: a stable sort, highest
    confidence first, candidates of equal confidence in their original
    order. *)
Fixpoint insert_desc (x : candidate) (l : list candidate) : list candidate :=
  match l with
  | [] => [x]
  | y :: l' => if Qltb (cand_conf x) (cand_conf y) then y :: insert_desc x l' else x :: l
  end.

Definition sort_by_confidence (l : list candidate) : list candidate :=
  foldr insert_desc [] l.

Definition map_postcode (blocks : list block) (dtype : string)
    (st : mapper_state) : mapper_state :=
  let postcode_candidates := postcode_candidates blocks in
  if is_some (head postcode_candidates) && negb (in_fields "postcode" st) then
    match sort_by_confidence postcode_candidates with
    | (postcode, b, conf, idx) :: _ =>
        if Qleb 0.3%Q conf then
          let st := assign "postcode" (VStr postcode) st in
          let st := assign "postcode_confidence" (VNum conf) st in
          add_evidence "postcode" b (block_text b) conf dtype st
        else st
    | [] => st
    end
  else st.

(** [0.8 if "applicant" in context else 0.5], over the blocks
    [blocks[max(0, i-2):min(len(blocks), i+3)]]. *)
Definition contact_confidence (blocks : list block) (i : nat) : Q :=
  let context_blocks :=
    take (Nat.min (length blocks) (i + 3) - (i - 2)) (drop (i - 2) blocks) in
  let context := Str.lower (Str.join " " ((λ cb, _norm (block_text cb)) <$> context_blocks)) in
  if Str.contains "applicant" context then 0.8%Q else 0.5%Q.

(** The body of the last loop, over the first 400 blocks. *)
Definition map_contact (blocks : list block) (dtype : string)
    (st : mapper_state) (i : nat) (b : block) : mapper_state :=
  let t := block_text b in
  if _is_council_contact t then st
  else
    let st :=
      if negb (in_fields "applicant_email" st) then
        match Re.search true Pat.EMAIL_RE t with
        | Some m =>
            let confidence := contact_confidence blocks i in
            let st := assign "applicant_email" (VStr (Re.m_text m)) st in
            let st := assign "applicant_email_confidence" (VNum confidence) st in
            add_evidence "applicant_email" b t confidence dtype st
        | None => st
        end
      else st in
    if negb (in_fields "applicant_phone" st) then
      match Re.search false Pat.PHONE_RE t with
      | Some m =>
          let g := default "" (Re.group 1 m) in
          if looks_like_phone g && (9 <=? String.length (_norm g)) then
            let confidence := contact_confidence blocks i in
            let st := assign "applicant_phone" (VStr (_norm g)) st in
            let st := assign "applicant_phone_confidence" (VNum confidence) st in
            add_evidence "applicant_phone" b t confidence dtype st
          else st
      | None => st
      end
    else st.

Definition map_contacts (blocks : list block) (dtype : string)
    (st : mapper_state) : mapper_state :=
  fold_enum (map_contact blocks dtype) (take 400 blocks) st.

(** A dictionary entry as [dict.get] sees it: the key may be missing, or
    present with the value [None]. *)
Inductive entry (A : Type) :=
| Absent
| IsNone
| Present (a : A).
Arguments Absent {A}.
Arguments IsNone {A}.
Arguments Present {A} a.

(** [d.get(key, []) or []] *)
Definition get_or_empty {A : Type} (e : entry (list A)) : list A :=
  match e with Present l => l | _ => [] end.

(** The mapper on the block list. The list [site_location_blocks] that the
    source fills between the labelled fields and the postcode is never read
    and is not modelled. *)
Definition map_blocks (blocks : list block) : mapper_state :=
  let dtype := classify_document blocks in
  let st := assign "document_type" (VStr dtype) empty_state in
  let st := map_application_ref blocks dtype st in
  let st := map_site_address blocks dtype st in
  let st := map_proposed_use blocks dtype st in
  let st := map_labels blocks dtype st in
  let st := map_postcode blocks dtype st in
  map_contacts blocks dtype st.

(** [map_fields(extracted_layout)], on the [text_blocks] entry of the layout,
    the only key it reads. *)
Definition map_fields (text_blocks : entry (list block)) : mapper_state :=
  map_blocks (get_or_empty text_blocks).

(** ** The pipeline entry point

    [extract_from_pdf_bytes] of [planproof/pipeline/extract.py]. The layout
    analysis of the PDF bytes is an external collaborator; its result, the
    dictionary [extraction_result], is the input here. Of that dictionary
    the keys [text_blocks] and [tables] are modelled; [metadata] and
    [page_anchors] are passed through unread and left out, as are the
    bounding boxes. *)

Record cell := Cell { cell_content : option string }.

Record table := Table {
  table_page_number : option Z;
  row_count : option Z;
  column_count : option Z;
  cells : list cell
}.

Record layout := Layout {
  text_blocks : entry (list block);
  tables : entry (list table)
}.

(** An entry of the merged [evidence_index]. *)
Inductive evidence_value :=
| EvTextBlock (content snippet : string) (page_number : option Z)
| EvTable (row_count column_count page_number : option Z) (snippet : string) (cells : list cell)
| EvField (entries : list evidence_entry).

Record pipeline_result := PipelineResult {
  r_fields : gmap string value;
  r_evidence_index : gmap string evidence_value;
  r_text_blocks : list block;
  r_tables : list table
}.

(** [d.get(key, [])] followed by iteration: a value [None] cannot be
    iterated and raises; [None] here stands for that exception. *)
Definition get_list {A : Type} (e : entry (list A)) : option (list A) :=
  match e with
  | Absent => Some []
  | IsNone => None
  | Present l => Some l
  end.

(** [block["index"] = i] *)
Definition set_index (i : nat) (b : block) : block :=
  Block (content b) (text b) (page_number b) (page b) (Some (Z.of_nat i)).

Definition text_block_evidence (b : block) : evidence_value :=
  let content := default "" (content b) in
  let snippet :=
    if 100 <? String.length content
    then Str.slice_to 100 content +:+ "..."
    else content in
  EvTextBlock content snippet (page_number b).

Definition table_evidence (t : table) : evidence_value :=
  let cell_snippets :=
    omap (λ c, match cell_content c with
               | Some s => if Str.truthy s then Some (Str.slice_to 50 s) else None
               | None => None
               end)
      (take 5 (cells t)) in
  let snippet := match cell_snippets with [] => "" | _ => Str.join " | " cell_snippets end in
  EvTable (row_count t) (column_count t) (table_page_number t) snippet (cells t).

Definition extract_from_pdf_bytes (extraction_result : layout) : option pipeline_result :=
  (* the field mapper runs first, on the blocks as the analysis returned them *)
  let mapped := map_fields (text_blocks extraction_result) in
  let fields := fields mapped in
  let field_evidence := evidence mapped in
  match get_list (text_blocks extraction_result) with
  | None => None
  | Some blocks =>
      let evidence_index : gmap string evidence_value :=
        fold_enum
          (λ ev i b, <["text_block_" +:+ pretty i := text_block_evidence b]> ev)
          blocks ∅ in
      (* only now does every block receive its index *)
      let blocks := imap set_index blocks in
      match get_list (tables extraction_result) with
      | None => None
      | Some tables =>
          let evidence_index :=
            fold_enum
              (λ ev i t, <["table_" +:+ pretty i := table_evidence t]> ev)
              tables evidence_index in
          let evidence_index :=
            foldl (λ ev '(field_name, ev_list), <[field_name := EvField ev_list]> ev)
              evidence_index (map_to_list field_evidence) in
          Some (PipelineResult fields evidence_index blocks tables)
      end
  end.

(** * Vocabulary of the properties *)

(** ** Scenario inputs *)

(** A block with the given content on page 1, carrying index [i]. *)
Definition indexed_block (s : string) (i : Z) : block :=
  Block (Some s) None (Some 1%Z) None (Some i).

(** A block as the layout analysis returns it: content and page, no index. *)
Definition raw_block (s : string) : block :=
  Block (Some s) None (Some 1%Z) None None.

(** The declaration of the Prior Approval scenario. *)
Definition prior_approval_declaration : string :=
  "I/We hereby apply for Prior Approval: change of use to a single dwelling".

Definition prior_approval_blocks : list block :=
  [indexed_block prior_approval_declaration 0].

Definition unindexed_layout : layout :=
  Layout (Present [raw_block "Ref PP-12345678"]) (Present []).

Definition site_location_blocks : list block :=
  [indexed_block "Site Location" 0;
   indexed_block "Address Line 1: 12 Example Street" 1;
   indexed_block "Postcode: B12 3CD" 2].

Definition mixed_vocabulary_blocks : list block :=
  [indexed_block "Application form" 0; indexed_block "Existing and proposed elevation" 1].

Definition tied_vocabulary_blocks : list block :=
  [indexed_block "Application form" 0; indexed_block "Proposed works" 1].

(** ** Document-type scores *)

(** The number of hint phrases of document type [dtype] found in [text]. *)
Definition type_score (dtype : string) (text : string) : nat :=
  hint_score (default [] (dict_get dtype Pat.DOC_TYPE_HINTS)) text.

(** One round of the priority loop, on an arbitrary scoring function. *)
Definition best_step (score : string → nat) (best : string * nat) (dtype : string) : string * nat :=
  if snd best <? score dtype then (dtype, score dtype) else best.

(** ** Fields, their companions and the mapper's steps *)

(** The fields the mapper can populate, besides [document_type]. *)
Definition FIELD_NAMES : list string :=
  ["application_ref"; "site_address"; "proposed_use"; "proposal_description";
   "applicant_name"; "agent_name"; "postcode"; "applicant_email"; "applicant_phone"].

(** [f"{field}_confidence"] *)
Definition conf_key (f : string) : string := f +:+ "_confidence".

(** What the mapper does each time it populates a field: the value, its
    confidence, one evidence entry. *)
Definition populate (f v : string) (c : Q) (b : block) (snippet dtype : string)
    (st : mapper_state) : mapper_state :=
  add_evidence f b snippet c dtype (assign (conf_key f) (VNum c) (assign f (VStr v) st)).

(** [populates F st st']: [st'] comes from [st] by populating fields of [F],
    each absent from [fields] when it is populated. *)
Inductive populates (F : list string) : mapper_state → mapper_state → Prop :=
| populates_refl st : populates F st st
| populates_step st st' f v c b snippet dtype :
    populates F st st' →
    f ∈ F →
    fields st' !! f = None →
    populates F st (populate f v c b snippet dtype st').

(** Field [f] holds a value, a confidence and exactly one evidence entry,
    whose confidence is the one stored in [fields]. *)
Definition populated (st : mapper_state) (f : string) : Prop :=
  ∃ v c e,
    fields st !! f = Some (VStr v)
    ∧ fields st !! conf_key f = Some (VNum c)
    ∧ evidence st !! f = Some [e]
    ∧ ev_confidence e = c.

(** The invariant of the mapper state. *)
Record wf (st : mapper_state) : Prop := Wf {
  wf_nodup : NoDup (writes st);
  wf_writes : ∀ k, k ∈ writes st ↔ is_Some (fields st !! k);
  wf_keys : ∀ k, is_Some (fields st !! k) →
    k = "document_type"
    ∨ (k ∈ FIELD_NAMES ∧ populated st k)
    ∨ (∃ f, f ∈ FIELD_NAMES ∧ k = conf_key f ∧ populated st f);
  wf_evidence : ∀ f, is_Some (evidence st !! f) → f ∈ FIELD_NAMES ∧ is_Some (fields st !! f)
}.

(** ** Postcode scenario *)

(** The fields the phases before the postcode phase can populate. *)
Definition EARLY_FIELDS : list string :=
  ["application_ref"; "site_address"; "proposed_use"] ++ (fst <$> Pat.LABEL_PATTERNS).

Definition po_box_blocks : list block :=
  [indexed_block "Birmingham City Council, PO Box 28, Birmingham B1 1TU" 0;
   indexed_block "Flat 2, 14 Rose Lane B12 3CD" 1].

(** Council contact text that holds the municipal postcode and no PO-box
    marker, and a block with the site postcode. *)
Definition council_contact_blocks : list block :=
  [indexed_block "Planning Department, Birmingham B1 1TU" 0;
   indexed_block "Flat 2, 14 Rose Lane B12 3CD" 1].

(** ** Demolition scenario *)

Definition short_demolition_block : block := indexed_block "Demolition of XY B12 3CD" 0.

(** ** Long documents *)

(** [n] filler blocks. *)
Definition filler (n : nat) : list block := replicate n (raw_block "x").

(** Two documents with the same first 400 blocks; the first has a labelled
    agent name in the block after them. *)
Definition late_label_blocks : list block := filler 400 ++ [raw_block "Agent name: Bob Builder"].
Definition no_label_blocks : list block := filler 400.

(** Two documents with the same first 401 blocks: an e-mail address in the
    last scanned block, and in the first the word "applicant" two blocks
    further on. *)
Definition late_applicant_blocks : list block :=
  filler 399 ++ [raw_block "jo@example.org"; raw_block "x"; raw_block "Applicant"].
Definition no_applicant_blocks : list block :=
  filler 399 ++ [raw_block "jo@example.org"; raw_block "x"].

(** Two documents that differ only after their first 402 blocks, in a block
    without any label phrase. *)
Definition long_blocks_a : list block := filler 402 ++ [raw_block "one more page"].
Definition long_blocks_b : list block := filler 402 ++ [raw_block "another page"; raw_block "x"].

(** * Further vocabulary: the rest of the code *)

(** ** Normalized text *)

(** White space squeezed by a single pass: runs of white space between two
    other characters become one space, leading and trailing runs vanish.
    [started] says that a character other than white space was already
    copied, [pending] that a run of white space was passed since. *)
Fixpoint squeeze (started pending : bool) (s : string) : string :=
  match s with
  | EmptyString => EmptyString
  | String c s' =>
      if Char.is_space c then squeeze started started s'
      else if pending then String " " (String c (squeeze true false s'))
      else String c (squeeze true false s')
  end.

(** The text after a character that is not white space: any white space in
    it is a single space followed by another character. *)
Fixpoint spaced (s : string) : bool :=
  match s with
  | EmptyString => true
  | String c s' =>
      if Char.is_space c then
        Ascii.eqb c " "
        && match s' with
           | EmptyString => false
           | String d _ => negb (Char.is_space d)
           end
        && spaced s'
      else spaced s'
  end.

(** A text in normal form: it neither starts nor ends with white space, and
    its only white space is single spaces between other characters. *)
Definition is_normal (s : string) : bool :=
  match s with
  | EmptyString => true
  | String c _ => negb (Char.is_space c) && spaced s
  end.

(** Every character of [s] is white space. *)
Fixpoint all_space (s : string) : bool :=
  match s with
  | EmptyString => true
  | String c s' => Char.is_space c && all_space s'
  end.

(** The number of white-space characters [s] starts with. *)
Fixpoint span_space (s : string) : nat :=
  match s with
  | EmptyString => 0
  | String c s' => if Char.is_space c then S (span_space s') else 0
  end.

(** [re.sub(r"\s+", " ", s)], read as one pass: [in_run] says that the
    character before was white space that is already accounted for. *)
Fixpoint collapse (in_run : bool) (s : string) : string :=
  match s with
  | EmptyString => EmptyString
  | String c s' =>
      if Char.is_space c then
        if in_run then collapse true s' else String " " (collapse true s')
      else String c (collapse false s')
  end.

(** The characters of [s] other than white space, in order. *)
Fixpoint solid (s : string) : string :=
  match s with
  | EmptyString => EmptyString
  | String c s' => if Char.is_space c then solid s' else String c (solid s')
  end.

(** The matcher's position after the first [n] characters of [rest]. *)
Fixpoint advance_by (n : nat) (st : Re.mstate) (rest : string) : Re.mstate * string :=
  match n, rest with
  | S n', String c rest' => advance_by n' (Re.advance st c) rest'
  | _, _ => (st, rest)
  end.

(** ** What a populated field rests on *)

(** The evidence entry the mapper records for a value found in block [b]. *)
Definition evidence_of (b : block) (c : Q) (dtype : string) : evidence_entry :=
  Evidence (block_page b) (block_id b) (Str.slice_to 240 (_norm (block_text b))) c (Some dtype).

(** The confidences the code can attach to each field. *)
Definition allowed_confidences (f : string) : list Q :=
  if String.eqb f "application_ref" then [0.9%Q; 0.8%Q]
  else if String.eqb f "site_address" then [0.95%Q; 0.85%Q; 0.8%Q; 0.7%Q; 0.6%Q; 0.4%Q]
  else if String.eqb f "proposed_use" then [0.9%Q; 0.7%Q; 0.5%Q]
  else if String.eqb f "postcode" then [0.9%Q; 0.7%Q; 0.5%Q]
  else if String.eqb f "applicant_email" then [0.8%Q; 0.5%Q]
  else if String.eqb f "applicant_phone" then [0.8%Q; 0.5%Q]
  else [0.7%Q].

(** How the value [v] of a field found by a regular expression relates to
    the block [b] it is cited from. *)
Definition regex_value (f v : string) (b : block) : Prop :=
  (f = "application_ref" →
     ∃ m, Re.search true Pat.APPREF_RE (block_text b) = Some m
          ∧ v = Str.upper (default "" (Re.group 1 m)))
  ∧ (f = "postcode" →
       search_postcode (block_text b) = Some v
       ∧ postcode_penalized (block_text b) v = false)
  ∧ (f = "applicant_email" →
       _is_council_contact (block_text b) = false
       ∧ ∃ m, Re.search true Pat.EMAIL_RE (block_text b) = Some m ∧ v = Re.m_text m)
  ∧ (f = "applicant_phone" →
       _is_council_contact (block_text b) = false
       ∧ ∃ m, Re.search false Pat.PHONE_RE (block_text b) = Some m
              ∧ v = _norm (default "" (Re.group 1 m))).

(** What holds of every step of a run on the blocks [bs]: the field is one
    of the mapper's, the value comes from a block of the input, the snippet
    is that block's text, the document type is the classification. *)
Definition step_of_run (bs : list block) (f v : string) (c : Q) (b : block)
    (snippet dtype : string) : Prop :=
  f ∈ FIELD_NAMES
  ∧ b ∈ bs
  ∧ dtype = classify_document bs
  ∧ _norm snippet = _norm (block_text b)
  ∧ c ∈ allowed_confidences f
  ∧ regex_value f v b.

(** [run_steps bs st st']: [st'] comes from [st] by steps of a run on [bs],
    each populating a field absent from [fields]. *)
Inductive run_steps (bs : list block) : mapper_state → mapper_state → Prop :=
| run_steps_refl st : run_steps bs st st
| run_steps_step st st' f v c b snippet dtype :
    run_steps bs st st' →
    step_of_run bs f v c b snippet dtype →
    fields st' !! f = None →
    run_steps bs st (populate f v c b snippet dtype st').

(** Every populated field is grounded in a block of the input. *)
Definition grounded (bs : list block) (st : mapper_state) : Prop :=
  ∀ f v, f ∈ FIELD_NAMES → fields st !! f = Some (VStr v) →
    ∃ c b,
      b ∈ bs
      ∧ evidence st !! f = Some [evidence_of b c (classify_document bs)]
      ∧ fields st !! conf_key f = Some (VNum c)
      ∧ c ∈ allowed_confidences f
      ∧ regex_value f v b.

(** The running best of the plan-sheet scan is a block of the input with
    one of four confidences. *)
Definition heuristic_best_ok (bs : list block) (best : option (string * block) * Q) : Prop :=
  match best with
  | (Some (_, b), c) => b ∈ bs ∧ c ∈ [0.8%Q; 0.7%Q; 0.6%Q; 0.4%Q]
  | (None, _) => True
  end.

(** ** What the mapper records for a field *)

(** Field [f] holds the value [v] with confidence [c], and its one
    evidence entry cites block [b]. *)
Definition recorded (st : mapper_state) (dtype f v : string) (c : Q) (b : block) : Prop :=
  fields st !! f = Some (VStr v)
  ∧ fields st !! conf_key f = Some (VNum c)
  ∧ evidence st !! f = Some [evidence_of b c dtype].

(** Field [f] holds nothing: no value, no confidence, no evidence. *)
Definition unrecorded (st : mapper_state) (f : string) : Prop :=
  fields st !! f = None
  ∧ fields st !! conf_key f = None
  ∧ evidence st !! f = None.

(** [LABEL_PATTERNS[field]] *)
Definition label_patterns (field : string) : list Re.regex :=
  default [] (dict_get field Pat.LABEL_PATTERNS).

(** ** First matches *)

(** Block [i] of [bs], among the first [n], is the first for which [P]
    yields a result, and the result is [a]. *)
Definition first_match {A : Type} (P : block → option A) (n : nat) (bs : list block)
    (i : nat) (b : block) (a : A) : Prop :=
  i < n
  ∧ bs !! i = Some b
  ∧ P b = Some a
  ∧ ∀ j bj, j < i → bs !! j = Some bj → P bj = None.

(** [P] yields no result on the first [n] blocks of [bs]. *)
Definition no_match {A : Type} (P : block → option A) (n : nat) (bs : list block) : Prop :=
  ∀ i b, i < n → bs !! i = Some b → P b = None.

(** [m = APPREF_RE.search(t)] followed by [m.group(1).upper()]. *)
Definition application_ref_of (b : block) : option string :=
  (λ m, Str.upper (default "" (Re.group 1 m)))
    <$> Re.search true Pat.APPREF_RE (block_text b).

(** The e-mail address the last loop of [map_fields] reads from a block:
    none from council contact text. *)
Definition email_of (b : block) : option string :=
  let t := block_text b in
  if _is_council_contact t then None
  else Re.m_text <$> Re.search true Pat.EMAIL_RE t.

(** The phone number the last loop of [map_fields] reads from a block: none
    from council contact text, and only a match that looks like a phone
    number and normalizes to at least 9 characters. *)
Definition phone_of (b : block) : option string :=
  let t := block_text b in
  if _is_council_contact t then None
  else
    match Re.search false Pat.PHONE_RE t with
    | Some m =>
        let g := default "" (Re.group 1 m) in
        if looks_like_phone g && (9 <=? String.length (_norm g)) then Some (_norm g)
        else None
    | None => None
    end.

(** ** The best postcode candidate *)

(** Block [i] of [bs], among the first 400, holds the postcode [pc], no
    block of the first 400 yields a candidate of higher confidence, and
    every earlier block yields candidates of lower confidence only. *)
Definition best_candidate (bs : list block) (i : nat) (b : block) (pc : string) : Prop :=
  i < 400
  ∧ bs !! i = Some b
  ∧ search_postcode (block_text b) = Some pc
  ∧ ∀ j bj pcj,
      j < 400 → bs !! j = Some bj → search_postcode (block_text bj) = Some pcj →
      (postcode_confidence bs j (block_text bj) pcj
       <= postcode_confidence bs i (block_text b) pc)%Q
      ∧ (j < i →
         (postcode_confidence bs j (block_text bj) pcj
          < postcode_confidence bs i (block_text b) pc)%Q).

(** Every postcode found in the first 400 blocks sits in council or PO-box
    text. *)
Definition all_penalized (bs : list block) : Prop :=
  ∀ i b pc,
    i < 400 → bs !! i = Some b → search_postcode (block_text b) = Some pc →
    postcode_penalized (block_text b) pc = true.

(** The candidates of [l] come in the order of their block indices. *)
Fixpoint by_index (l : list candidate) : Prop :=
  match l with
  | [] => True
  | c :: l' => Forall (λ c', snd c < snd c') l' ∧ by_index l'
  end.

(** ** The helpers of the address strategies *)

(** The test of [_is_in_site_location_section] on one block: its text names
    a site-location header. *)
Definition site_header (b : block) : bool :=
  any_in ["site location"; "site address"; "address of site";
          "location of site"; "property address"]
    (Str.lower (_norm (block_text b))).

(** The running best of the plan-sheet scan, once it holds a match, holds a
    text that is not empty. *)
Definition heuristic_best_truthy (best : option (string * block) * Q) : Prop :=
  match best with
  | (Some (t, _), _) => Str.truthy t = true
  | (None, _) => True
  end.

(** ** The LLM gate

    The functions of [planproof/pipeline/llm_gate.py] that decide whether
    the language model is asked and what it is asked for. A validation
    result is a dictionary with a [summary] and a list of [findings]; the
    extraction is the dictionary that [extract_from_pdf_bytes] returns. The
    language model itself is an external collaborator. *)

(** A finding: the keys that the gate reads. [missing_fields] is read with
    the default [[]]. *)
Record finding := Finding {
  severity : option string;
  status : option string;
  missing_fields : list string;
  rule_id : option string
}.

(** [needs_llm] is the truth value of
    [validation.get("summary", {}).get("needs_llm")]. *)
Record validation := Validation {
  needs_llm : bool;
  findings : list finding
}.

Definition DOC_FIELD_OWNERSHIP : list (string * list string) :=
  [("application_form",
      ["application_ref"; "site_address"; "proposed_use"; "applicant_name"; "agent_name"]);
   ("site_plan", ["site_address"; "proposed_use"]);
   ("drawing", ["proposed_use"]);
   ("design_statement", ["proposed_use"; "site_address"]);
   ("unknown", ["site_address"; "proposed_use"])].

(** [doc_type = extraction.get("fields", {}).get("document_type", "unknown")]
    followed by [DOC_FIELD_OWNERSHIP.get(doc_type, set())]; a value that is
    not a string is no key of the table. *)
Definition allowed_fields (extraction : pipeline_result) : list string :=
  match r_fields extraction !! "document_type" with
  | Some (VStr doc_type) => default [] (dict_get doc_type DOC_FIELD_OWNERSHIP)
  | Some (VNum _) => []
  | None => default [] (dict_get "unknown" DOC_FIELD_OWNERSHIP)
  end.

(** The body of the loop over the findings of [should_trigger_llm]: the
    state is [(missing_fields, has_error_severity)]. *)
Definition trigger_step (resolved_fields : gset string)
    (acc : list string * bool) (f : finding) : list string * bool :=
  if negb (bool_decide (severity f = Some "error")) then acc
  else if bool_decide (status f ∈ [Some "needs_review"; Some "fail"]) then
    (fst acc ++ filter (λ x, x ∉ resolved_fields) (missing_fields f), true)
  else acc.

(** [resolved_fields] stands for the keys of the dictionary; [None] is the
    empty set. *)
Definition should_trigger_llm (v : validation) (extraction : pipeline_result)
    (resolved_fields : gset string) : bool :=
  if negb (needs_llm v) then false
  else
    let acc := foldl (trigger_step resolved_fields) ([], false) (findings v) in
    let missing_fields := fst acc in
    let has_error_severity := snd acc in
    if bool_decide (missing_fields = []) || negb has_error_severity then false
    else
      let allowed_fields := allowed_fields extraction in
      let missing_allowed := filter (λ f, f ∈ allowed_fields) missing_fields in
      if bool_decide (missing_allowed = []) then false
      else if length (r_text_blocks extraction) <? 5 then false
      else true.

(** [sorted(set(l))]: the strictly ascending list of the elements of [l]. *)
Fixpoint insert_sorted (x : string) (l : list string) : list string :=
  match l with
  | [] => [x]
  | y :: l' =>
      match String.compare x y with
      | Lt => x :: l
      | Eq => l
      | Gt => y :: insert_sorted x l'
      end
  end.

Definition sorted_set (l : list string) : list string := foldr insert_sorted [] l.

(** The request built by [build_llm_prompt]; the constant texts of the
    prompt are left out. [p_filled_fields] holds the keys of
    [return_schema["filled_fields"]]. *)
Record llm_prompt := LlmPrompt {
  p_missing_fields : list string;
  p_extraction_fields : gmap string value;
  p_evidence_index : gmap string evidence_value;
  p_filled_fields : gset string
}.

Definition build_llm_prompt (extraction : pipeline_result) (v : validation) : llm_prompt :=
  let missing_fields := sorted_set (concat (missing_fields <$> findings v)) in
  LlmPrompt missing_fields (r_fields extraction) (r_evidence_index extraction)
    (list_to_set missing_fields).

(** The result of [resolve_with_llm_new]; [chat_json] is the client's call
    of the language model. *)
Record llm_resolution (R : Type) := LlmResolution {
  triggered : bool;
  gate_missing_fields : list string;
  gate_affected_rule_ids : list string;
  request : llm_prompt;
  response : R
}.
Arguments LlmResolution {R}.
Arguments triggered {R}.
Arguments gate_missing_fields {R}.
Arguments gate_affected_rule_ids {R}.
Arguments request {R}.
Arguments response {R}.

(** A finding whose status is [needs_review] or [fail]. *)
Definition needs_attention (f : finding) : bool :=
  bool_decide (status f ∈ [Some "needs_review"; Some "fail"]).

Definition resolve_with_llm_new {R : Type} (extraction : pipeline_result) (v : validation)
    (chat_json : llm_prompt → R) : llm_resolution R :=
  let hits := filter (λ f, needs_attention f = true) (findings v) in
  let missing_fields := sorted_set (concat (missing_fields <$> hits)) in
  let affected_rule_ids :=
    sorted_set (omap (λ f, match rule_id f with
                           | Some r => if Str.truthy r then Some r else None
                           | None => None
                           end) hits) in
  let prompt_obj := build_llm_prompt extraction v in
  LlmResolution true missing_fields affected_rule_ids prompt_obj (chat_json prompt_obj).

(** A finding that can trigger the language model: an error whose status is
    [needs_review] or [fail]. *)
Definition blocking (f : finding) : Prop :=
  severity f = Some "error" ∧ (status f = Some "needs_review" ∨ status f = Some "fail").

(** The result of the pipeline on the layout of the reference scenario. *)
Definition unindexed_result : pipeline_result :=
  default (PipelineResult ∅ ∅ [] []) (extract_from_pdf_bytes unindexed_layout).

(** Each element is strictly smaller than the next. *)
Fixpoint ascending (l : list string) : Prop :=
  match l with
  | x :: (y :: _) as l' => String.compare x y = Lt ∧ ascending l'
  | _ => True
  end.

(** ** Blob addresses

    [extract_document] and [get_extraction_result] of
    [planproof/pipeline/extract.py] take the container and the blob name
    from an address of the form [azure://{account}/{container}/{blob_name}];
    the database and the blob storage around this step are external
    collaborators. *)

(** [s.replace(old, new)] for a non-empty [old]: every occurrence, from left
    to right, without overlap. [skip] counts the characters of a replaced
    occurrence that are still to be passed. *)
Fixpoint replace_from (old new : string) (s : string) (skip : nat) : string :=
  match s with
  | EmptyString => EmptyString
  | String c s' =>
      match skip with
      | S k => replace_from old new s' k
      | O =>
          if String.prefix old s
          then new +:+ replace_from old new s' (String.length old - 1)
          else String c (replace_from old new s' 0)
      end
  end.

Definition replace (old new s : string) : string := replace_from old new s 0.

(** [s.split(sep, maxsplit)] for a one-character separator. *)
Fixpoint split_char (sep : ascii) (maxsplit : nat) (s : string) : list string :=
  match s with
  | EmptyString => [EmptyString]
  | String c s' =>
      match maxsplit with
      | O => [s]
      | S m =>
          if Ascii.eqb c sep then EmptyString :: split_char sep m s'
          else
            match split_char sep maxsplit s' with
            | p :: ps => String c p :: ps
            | [] => [String c EmptyString]
            end
      end
  end.

(** [blob_uri_parts = blob_uri.replace("azure://", "").split("/", 2)],
    the test [len(blob_uri_parts) != 3], and
    [container = blob_uri_parts[1]; blob_name = blob_uri_parts[2]]. [None]
    is the rejected address: [extract_document] raises [ValueError],
    [get_extraction_result] returns [None]. *)
Definition blob_uri_parts (blob_uri : string) : option (string * string) :=
  match split_char "/" 2 (replace "azure://" "" blob_uri) with
  | [_; container; blob_name] => Some (container, blob_name)
  | _ => None
  end.

(** The number of slashes in [s]. *)
Definition slashes (s : string) : nat := Str.count (Ascii.eqb "/") s.

(** * Properties *)

(** ** The regular-expression engine on sample texts *)

Example postcode_search_case_insensitive :
  search_postcode "x_B12 3CD B123CDE b1 1tu." = Some "B1 1TU".
Proof. vm_compute. reflexivity. Qed.

Example phone_search_skips_reference :
  Re.m_text <$> Re.search false Pat.PHONE_RE "Ref PP-12345678 Tel: 0121 303 1115 or 01.02.2024"
  = Some "0121 303 1115".
Proof. vm_compute. reflexivity. Qed.

Example appref_search_first_alternative :
  Re.group 1 <$> Re.search true Pat.APPREF_RE "pp-123456 20123456ab"
  = Some (Some "pp-123456").
Proof. vm_compute. reflexivity. Qed.

Example demolition_search_lazy_capture :
  (λ m, (Re.group 1 m, Re.group 2 m))
    <$> Re.search true Pat.DEMOLITION_RE "demolition of B8 1BG M1 1AA"
  = Some (Some "B8 1BG", Some "M1 1AA").
Proof. vm_compute. reflexivity. Qed.

Example address_like_needs_upper_case :
  is_some (Re.match_ false Pat.ADDRESS_LIKE "12 HIGH STREET") = true
  ∧ is_some (Re.match_ false Pat.ADDRESS_LIKE " 12  high street") = false.
Proof. vm_compute. split; reflexivity. Qed.

Example split_at_first_colon :
  Re.split_once Pat.COLON "Postcode: B12 3CD: x" = Some ("Postcode", " B12 3CD: x").
Proof. vm_compute. reflexivity. Qed.

Example norm_collapses_white_space :
  _norm "  Site   Location
 of  works " = "Site Location of works".
Proof. vm_compute. reflexivity. Qed.

Example trailing_comma_stripped :
  Re.sub Pat.TRAILING_COMMA "" "Unit M, Dorset Road, " = "Unit M, Dorset Road".
Proof. vm_compute. reflexivity. Qed.

Example sort_is_stable_and_descending :
  let b := raw_block "" in
  sort_by_confidence [("A", b, 0.5%Q, 0); ("B", b, 0.9%Q, 1); ("C", b, 0.9%Q, 2); ("D", b, 0.1%Q, 3)]
  = [("B", b, 0.9%Q, 1); ("C", b, 0.9%Q, 2); ("A", b, 0.5%Q, 0); ("D", b, 0.1%Q, 3)].
Proof. vm_compute. reflexivity. Qed.

(** ** Scenarios evaluated on the code *)

(** C1. On the Prior Approval declaration of the scenario, [map_fields]
    splits at the first match of [:|for], which is the word "for" of "apply
    for": [proposed_use] is set, with confidence 0.9, to the text after that
    word, "Prior Approval: change of use to a single dwelling", and not to
    the description after the colon. *)
Theorem C1_prior_approval_splits_at_first_for :
  let st := map_fields (Present prior_approval_blocks) in
  fields st !! "proposed_use"
    = Some (VStr "Prior Approval: change of use to a single dwelling")
  ∧ fields st !! "proposed_use_confidence" = Some (VNum 0.9%Q)
  ∧ fields st !! "proposed_use" ≠ Some (VStr "change of use to a single dwelling").
Proof. vm_compute. split_and!; [reflexivity | reflexivity | discriminate]. Qed.

(** C2. [extract_from_pdf_bytes] calls [map_fields] before it assigns the
    block indices: on a block that arrives without an index, the evidence of
    the populated field carries the block id "p1b", while the block returned
    with index 0 has the id "p1b0". *)
Theorem C2_block_id_built_before_index_assigned :
  ∃ r b e,
    extract_from_pdf_bytes unindexed_layout = Some r
    ∧ r_text_blocks r = [b]
    ∧ r_evidence_index r !! "application_ref" = Some (EvField [e])
    ∧ ev_block_id e = "p1b"
    ∧ block_id b = "p1b0".
Proof.
  eexists _, _, _. vm_compute. split_and!; reflexivity.
Qed.

(** C5. On the Site Location scenario the block "Address Line 1: 12 Example
    Street" also passes the test for address line 2 (it holds "address",
    "line" and the digit 2 of the house number), so the street is collected
    twice: [site_address] is "12 Example Street, 12 Example Street, B12 3CD",
    with confidence 0.95. *)
Theorem C5_site_location_scenario_repeats_line1 :
  let st := map_fields (Present site_location_blocks) in
  fields st !! "site_address"
    = Some (VStr "12 Example Street, 12 Example Street, B12 3CD")
  ∧ fields st !! "site_address_confidence" = Some (VNum 0.95%Q)
  ∧ fields st !! "site_address" ≠ Some (VStr "12 Example Street, B12 3CD").
Proof. vm_compute. split_and!; [reflexivity | reflexivity | discriminate]. Qed.

(** C8. With [text_blocks] missing, [None] or empty, [map_fields] returns
    [fields] holding only [document_type] with the value "unknown", and an
    empty [evidence_index]. The mapper is a total function of its input:
    none of its steps can fail. *)
Theorem C8_no_blocks_only_unknown_document_type :
  (fields (map_fields Absent) = {["document_type" := VStr "unknown"]}
   ∧ evidence (map_fields Absent) = ∅)
  ∧ (fields (map_fields IsNone) = {["document_type" := VStr "unknown"]}
     ∧ evidence (map_fields IsNone) = ∅)
  ∧ (fields (map_fields (Present [])) = {["document_type" := VStr "unknown"]}
     ∧ evidence (map_fields (Present [])) = ∅).
Proof. split_and!; reflexivity. Qed.

(** ** Document-type priority *)

Lemma classify_priority_best_step (text : string) :
  classify_priority text
  = foldl (best_step (λ d, type_score d text)) ("unknown", 0) priority_order.
Proof. reflexivity. Qed.

Lemma classify_remaining_id (text : string) (best : string * nat) :
  classify_remaining text best = best.
Proof. reflexivity. Qed.

Lemma best_step_lt (score : string → nat) (best : string * nat) (d : string) :
  snd best < score d → best_step score best d = (d, score d).
Proof. intros H. unfold best_step. by apply Nat.ltb_lt in H as ->. Qed.

Lemma best_step_ge (score : string → nat) (best : string * nat) (d : string) :
  score d ≤ snd best → best_step score best d = best.
Proof. intros H. unfold best_step. by apply Nat.ltb_ge in H as ->. Qed.

(** The loop either leaves [best] alone, when no type of the list scores
    higher, or ends on a type of the list with its own, higher, score. *)
Lemma best_step_fold (score : string → nat) (l : list string) (best : string * nat) :
  let r := foldl (best_step score) best l in
  (r = best ∧ ∀ d, d ∈ l → score d ≤ snd best)
  ∨ (fst r ∈ l ∧ snd r = score (fst r) ∧ snd best < snd r).
Proof.
  revert best. induction l as [|d l IH]; intros best; cbn [foldl].
  - left. split; [done|]. intros d Hd. by apply elem_of_nil in Hd.
  - destruct (Nat.lt_ge_cases (snd best) (score d)) as [Hlt|Hge].
    + rewrite best_step_lt by done. right.
      destruct (IH (d, score d)) as [[-> _]|(Hin & Hs & Hlt')]; cbn [fst snd] in *.
      * split_and!; [apply list_elem_of_here | done | done].
      * split_and!; [by apply list_elem_of_further | done | lia].
    + rewrite best_step_ge by done.
      destruct (IH best) as [[Heq Hle]|(Hin & Hs & Hlt)].
      * left. split; [done|]. intros d' [->|Hd']%elem_of_cons; [done | by apply Hle].
      * right. split_and!; [by apply list_elem_of_further | done | done].
Qed.

(** C3, as the code has it. [classify_document] returns "application_form"
    exactly when the corpus matches at least one application-form hint and
    no document type of the priority list matches strictly more hint phrases
    than application_form does: the priority order breaks ties, a higher
    count still wins. *)
Theorem C3_application_form_iff_no_higher_score (bs : list block) :
  let score d := type_score d (corpus bs) in
  classify_document bs = "application_form"
  ↔ 1 ≤ score "application_form"
    ∧ ∀ d, d ∈ priority_order → score d ≤ score "application_form".
Proof.
  intros score. unfold classify_document.
  rewrite classify_priority_best_step. fold score.
  change priority_order with ("application_form" :: tail priority_order).
  cbn [foldl].
  assert (Hnot : ∀ r : string * nat,
            fst r ∈ tail priority_order → fst r ≠ "application_form").
  { intros r Hin Hr. rewrite Hr in Hin. revert Hin. cbn [tail priority_order].
    rewrite !elem_of_cons, elem_of_nil. intuition discriminate. }
  destruct (Nat.lt_ge_cases 0 (score "application_form")) as [Hpos|Hzero].
  - rewrite best_step_lt by done.
    destruct (best_step_fold score (tail priority_order)
                ("application_form", score "application_form"))
      as [[-> Hle]|(Hin & Hs & Hlt)]; cbn [fst snd] in *.
    + destruct (Nat.eqb_spec (score "application_form") 0) as [?|_]; [lia|].
      split; [|done]. intros _. split; [lia|].
      intros d [->|Hd]%elem_of_cons; [done | by apply Hle].
    + set (r := foldl _ _ _) in *.
      destruct (Nat.eqb_spec (snd r) 0) as [?|_]; [lia|].
      split; [by intros ?%Hnot|].
      intros [_ Hle]. specialize (Hle (fst r) (list_elem_of_further _ _ _ Hin)). lia.
  - rewrite best_step_ge by done.
    split; [|lia]. intros Hr. exfalso.
    destruct (best_step_fold score (tail priority_order) ("unknown", 0))
      as [[Heq _]|(Hin & _ & Hlt)]; cbn [fst snd] in *.
    + rewrite Heq in Hr. cbn [snd fst] in Hr.
      rewrite classify_remaining_id in Hr. done.
    + set (r := foldl _ _ _) in *.
      destruct (Nat.eqb_spec (snd r) 0) as [?|_]; [lia|]. by apply Hnot in Hin.
Qed.

(** C3, as stated, fails: a corpus that matches one application-form hint
    and three drawing hints is classified as a drawing. *)
Lemma C3_counterexample_drawing_outscores_application_form :
  1 ≤ type_score "application_form" (corpus mixed_vocabulary_blocks)
  ∧ 1 ≤ type_score "drawing" (corpus mixed_vocabulary_blocks)
  ∧ classify_document mixed_vocabulary_blocks = "drawing"
  ∧ classify_document mixed_vocabulary_blocks ≠ "application_form".
Proof. vm_compute. split_and!; [lia | lia | reflexivity | discriminate]. Qed.

(** The theorem at work: one application-form hint against one drawing hint. *)
Lemma C3_witness_application_form_wins_a_tie :
  classify_document tied_vocabulary_blocks = "application_form".
Proof.
  apply C3_application_form_iff_no_higher_score.
  split; [vm_compute; lia|].
  intros d Hd. unfold priority_order in Hd.
  rewrite !elem_of_cons, elem_of_nil in Hd.
  destruct Hd as [->|[->|[->|[->|[->|[->|[]]]]]]]; vm_compute; lia.
Defined.

(** ** Loops *)

Lemma find_map_from_Some {A B : Type} (f : nat → A → option B) (start : nat) (l : list A) (y : B) :
  find_map_from f start l = Some y
  ↔ ∃ i x, l !! i = Some x ∧ f (start + i) x = Some y
           ∧ ∀ i' x', i' < i → l !! i' = Some x' → f (start + i') x' = None.
Proof.
  revert start. induction l as [|a l IH]; intros start; cbn [find_map_from].
  - split; [done|]. intros (i & x & H & _). by rewrite lookup_nil in H.
  - destruct (f start a) as [y'|] eqn:E.
    + split.
      * intros [= ->]. exists 0, a. rewrite Nat.add_0_r. split_and!; [done..|]. lia.
      * intros (i & x & Hl & Hf & Hfirst). destruct i as [|i].
        -- cbn in Hl. injection Hl as <-. rewrite Nat.add_0_r in Hf. congruence.
        -- specialize (Hfirst 0 a (Nat.lt_0_succ _) eq_refl).
           rewrite Nat.add_0_r in Hfirst. congruence.
    + rewrite IH. split.
      * intros (i & x & Hl & Hf & Hfirst). exists (S i), x.
        split_and!; [done | by rewrite <- Nat.add_succ_comm |].
        intros [|i'] x' Hlt Hl'.
        -- cbn in Hl'. injection Hl' as <-. by rewrite Nat.add_0_r.
        -- rewrite <- Nat.add_succ_comm. apply Hfirst; [lia | done].
      * intros (i & x & Hl & Hf & Hfirst). destruct i as [|i].
        -- cbn in Hl. injection Hl as <-. rewrite Nat.add_0_r in Hf. congruence.
        -- exists i, x. split_and!; [done | by rewrite Nat.add_succ_comm |].
           intros i' x' Hlt Hl'. rewrite Nat.add_succ_comm.
           apply Hfirst; [lia | done].
Qed.

Lemma find_map_from_None {A B : Type} (f : nat → A → option B) (start : nat) (l : list A) :
  find_map_from f start l = None
  ↔ ∀ i x, l !! i = Some x → f (start + i) x = None.
Proof.
  revert start. induction l as [|a l IH]; intros start; cbn [find_map_from].
  - split; [|done]. intros _ i x H. by rewrite lookup_nil in H.
  - destruct (f start a) as [y|] eqn:E.
    + split; [done|]. intros H. specialize (H 0 a eq_refl).
      rewrite Nat.add_0_r in H. congruence.
    + rewrite IH. split.
      * intros H [|i] x Hl.
        -- cbn in Hl. injection Hl as <-. by rewrite Nat.add_0_r.
        -- rewrite <- Nat.add_succ_comm. by apply H.
      * intros H i x Hl. rewrite Nat.add_succ_comm. by apply (H (S i)).
Qed.

Lemma fold_from_ext {A St : Type} (f g : St → nat → A → St) (start : nat) (l : list A) (s : St) :
  (∀ s i x, start ≤ i < start + length l → f s i x = g s i x) →
  fold_from f start l s = fold_from g start l s.
Proof.
  revert start s. induction l as [|x l IH]; intros start s H; [done|].
  cbn [fold_from]. rewrite H by (cbn; lia). apply IH.
  intros s' i y Hi. apply H. cbn. lia.
Qed.

Lemma foldl_ext_in {A B : Type} (f g : B → A → B) (l : list A) (b : B) :
  (∀ b x, x ∈ l → f b x = g b x) → foldl f b l = foldl g b l.
Proof.
  revert b. induction l as [|x l IH]; intros b H; [done|].
  cbn [foldl]. rewrite H by apply list_elem_of_here. apply IH.
  intros b' y Hy. apply H. by apply list_elem_of_further.
Qed.

(** A loop that collects what its body yields. *)
Lemma elem_of_collected {A C : Type} (f : nat → A → option C) (l : list A)
    (start : nat) (acc : list C) (c : C) :
  c ∈ fold_from (λ acc i b, match f i b with Some c => acc ++ [c] | None => acc end)
        start l acc
  ↔ c ∈ acc ∨ ∃ i b, l !! i = Some b ∧ f (start + i) b = Some c.
Proof.
  revert start acc. induction l as [|x l IH]; intros start acc; cbn [fold_from].
  - split; [by left|]. intros [?|(i & b & H & _)]; [done|]. by rewrite lookup_nil in H.
  - rewrite IH. split.
    + intros [Hacc|(i & b & Hl & Hf)].
      * destruct (f start x) as [c'|] eqn:E; [|by left].
        apply elem_of_app in Hacc as [?|Hc%list_elem_of_singleton]; [by left|].
        subst c'. right. exists 0, x. by rewrite Nat.add_0_r.
      * right. exists (S i), b. split; [done|]. by rewrite <- Nat.add_succ_comm.
    + intros [Hacc|(i & b & Hl & Hf)].
      * left. destruct (f start x); [|done]. apply elem_of_app. by left.
      * destruct i as [|i]; cbn in Hl.
        -- left. injection Hl as ->. rewrite Nat.add_0_r in Hf. rewrite Hf.
           apply elem_of_app. right. apply list_elem_of_here.
        -- right. exists i, b. split; [done|]. by rewrite Nat.add_succ_comm.
Qed.


(** ** The mapper state: steps, frame and invariant *)

Lemma string_length_app (s t : string) :
  String.length (s +:+ t) = String.length s + String.length t.
Proof. induction s as [|c s IH]; simpl; [done | by rewrite IH]. Qed.

Lemma string_app_inj_l (t s1 s2 : string) : s1 +:+ t = s2 +:+ t → s1 = s2.
Proof.
  revert s2. induction s1 as [|c s1 IH]; intros [|c2 s2] H.
  - done.
  - apply (f_equal String.length) in H. rewrite !string_length_app in H. simpl in H. lia.
  - apply (f_equal String.length) in H. rewrite !string_length_app in H. simpl in H. lia.
  - simpl in H. injection H as -> H. f_equal. by apply IH.
Qed.

Lemma conf_key_inj (f g : string) : conf_key f = conf_key g → f = g.
Proof. apply string_app_inj_l. Qed.

Lemma conf_key_ne (f : string) : f ≠ conf_key f.
Proof.
  intros H. apply (f_equal String.length) in H.
  unfold conf_key in H. rewrite string_length_app in H. simpl in H. lia.
Qed.

Lemma field_names_apart :
  Forall (λ f, (conf_key f ∉ FIELD_NAMES) ∧ conf_key f ≠ "document_type" ∧ f ≠ "document_type")
    FIELD_NAMES.
Proof. apply (bool_decide_unpack _). by vm_compute. Qed.

Lemma conf_key_not_field (f : string) : f ∈ FIELD_NAMES → conf_key f ∉ FIELD_NAMES.
Proof. intros Hf. by destruct (proj1 (Forall_forall _ _) field_names_apart f Hf). Qed.

Lemma conf_key_not_document_type (f : string) :
  f ∈ FIELD_NAMES → conf_key f ≠ "document_type".
Proof. intros Hf. by destruct (proj1 (Forall_forall _ _) field_names_apart f Hf) as (_&?&_). Qed.

Lemma field_not_document_type (f : string) : f ∈ FIELD_NAMES → f ≠ "document_type".
Proof. intros Hf. by destruct (proj1 (Forall_forall _ _) field_names_apart f Hf) as (_&_&?). Qed.

Lemma in_fields_false (k : string) (st : mapper_state) :
  in_fields k st = false ↔ fields st !! k = None.
Proof. unfold in_fields. destruct (fields st !! k); naive_solver. Qed.

Lemma not_in_fields (k : string) (st : mapper_state) :
  negb (in_fields k st) = true ↔ fields st !! k = None.
Proof. rewrite negb_true_iff. apply in_fields_false. Qed.

(** *** What one step changes *)

Lemma populate_fields (f v : string) c b snippet dtype st :
  fields (populate f v c b snippet dtype st)
  = <[conf_key f := VNum c]> (<[f := VStr v]> (fields st)).
Proof. done. Qed.

Lemma populate_evidence (f v : string) c b snippet dtype st :
  evidence (populate f v c b snippet dtype st)
  = <[f := default [] (evidence st !! f) ++
          [Evidence (block_page b) (block_id b) (Str.slice_to 240 (_norm snippet)) c
             (Some dtype)]]> (evidence st).
Proof. done. Qed.

Lemma populate_writes (f v : string) c b snippet dtype st :
  writes (populate f v c b snippet dtype st) = writes st ++ [f; conf_key f].
Proof. simpl. by rewrite <- app_assoc. Qed.

Lemma populates_one F st f v c b snippet dtype :
  f ∈ F → fields st !! f = None → populates F st (populate f v c b snippet dtype st).
Proof. intros. apply populates_step; [apply populates_refl | done..]. Qed.

Lemma populates_trans F st1 st2 st3 :
  populates F st1 st2 → populates F st2 st3 → populates F st1 st3.
Proof. intros H12 H23. induction H23; [done|]. apply populates_step; auto. Qed.

Lemma populates_mono F G st st' :
  (∀ f, f ∈ F → f ∈ G) → populates F st st' → populates G st st'.
Proof. intros Hsub H. induction H; [apply populates_refl|]. apply populates_step; auto. Qed.

(** Keys outside the populated fields and their companions keep their
    entry. *)
Lemma populates_frame_fields F st st' k :
  populates F st st' → k ∉ F → (∀ f, f ∈ F → k ≠ conf_key f) →
  fields st' !! k = fields st !! k.
Proof.
  intros H Hk Hck. induction H as [|st st' f v c b snippet dtype _ IH Hf _]; [done|].
  rewrite populate_fields, !lookup_insert_ne; [done|..].
  - intros ->. by apply Hk.
  - intros <-. by apply (Hck f).
Qed.

Lemma populates_frame_evidence F st st' k :
  populates F st st' → k ∉ F → evidence st' !! k = evidence st !! k.
Proof.
  intros H Hk. induction H as [|st st' f v c b snippet dtype _ IH Hf _]; [done|].
  rewrite populate_evidence, lookup_insert_ne; [done|]. intros ->. by apply Hk.
Qed.

(** *** The invariant *)

Lemma populated_frame st f' f v c b snippet dtype :
  f' ∈ FIELD_NAMES → f ∈ FIELD_NAMES → f' ≠ f →
  populated st f' → populated (populate f v c b snippet dtype st) f'.
Proof.
  intros Hf' Hf Hne (v' & c' & e' & Hv & Hc & He & Hconf).
  assert (conf_key f ≠ conf_key f') by (by intros ?%conf_key_inj).
  assert (f ≠ conf_key f') by (intros ->; by apply (conf_key_not_field f')).
  assert (conf_key f ≠ f') by (intros <-; by apply (conf_key_not_field f)).
  exists v', c', e'. rewrite populate_fields, populate_evidence.
  by rewrite !lookup_insert_ne by done.
Qed.

Lemma wf_conf_key_absent st f :
  wf st → f ∈ FIELD_NAMES → fields st !! f = None → fields st !! conf_key f = None.
Proof.
  intros [_ _ Hk _] Hf Hnone.
  destruct (fields st !! conf_key f) eqn:E; [|done].
  destruct (Hk (conf_key f)) as [H|[[H _]|(g & Hg & H & (? & ? & ? & Hgv & _))]];
    [by rewrite E | | |].
  - exfalso. by apply (conf_key_not_document_type f).
  - exfalso. by apply (conf_key_not_field f).
  - apply conf_key_inj in H as <-. congruence.
Qed.

Lemma wf_populate st f v c b snippet dtype :
  wf st → f ∈ FIELD_NAMES → fields st !! f = None →
  wf (populate f v c b snippet dtype st).
Proof.
  intros Hwf Hf Hnone. pose proof Hwf as [Hnd Hw Hk He].
  assert (Hev : evidence st !! f = None).
  { destruct (evidence st !! f) eqn:E; [|done].
    destruct (He f) as [_ [? ?]]; [by rewrite E | congruence]. }
  assert (Hcnone : fields st !! conf_key f = None)
    by (by apply wf_conf_key_absent).
  pose proof (conf_key_ne f) as Hne.
  assert (Hpop : populated (populate f v c b snippet dtype st) f).
  { eexists v, c, _. rewrite populate_fields, populate_evidence, Hev.
    rewrite lookup_insert_ne, !lookup_insert_eq by done. done. }
  split.
  - rewrite populate_writes. apply NoDup_app. split_and!; [done| |].
    + intros k Hin. rewrite !elem_of_cons, elem_of_nil.
      apply Hw in Hin as [? Hin]. intros [->|[->|[]]]; congruence.
    + apply NoDup_cons. split; [by rewrite list_elem_of_singleton | apply NoDup_singleton].
  - intros k. rewrite populate_writes, populate_fields, elem_of_app, Hw.
    rewrite !elem_of_cons, elem_of_nil, !lookup_insert_is_Some'.
    split; [intros [?|[->|[->|[]]]] | intros [<-|[<-|?]]]; auto.
  - intros k. rewrite populate_fields, !lookup_insert_is_Some.
    intros [<-|[_ [<-|[_ Hold]]]].
    + right; right. by exists f.
    + right; left. done.
    + destruct (Hk k Hold) as [->|[[Hkf Hp]|(g & Hg & -> & Hp)]]; [by left| |].
      * right; left. split; [done|]. apply populated_frame; [done..| |done].
        intros ->. destruct Hold. congruence.
      * right; right. exists g. split_and!; [done..|].
        apply populated_frame; [done..| |done].
        intros ->. destruct Hp as (?&?&?&?&_). congruence.
  - intros k. rewrite populate_evidence, populate_fields, !lookup_insert_is_Some.
    intros [<-|[Hkf Hold]].
    + split; [done|]. right. split; [done|]. by left.
    + destruct (He k Hold) as [? ?]. split; [done|]. right. split; [|by right].
      intros <-. by apply (conf_key_not_field f).
Qed.

Lemma populates_wf F st st' :
  (∀ f, f ∈ F → f ∈ FIELD_NAMES) → wf st → populates F st st' → wf st'.
Proof. intros Hsub Hwf H. induction H; [done|]. apply wf_populate; auto. Qed.

(** An entry of [fields] is never changed by a later step. *)
Lemma populates_preserves F st st' k v :
  (∀ f, f ∈ F → f ∈ FIELD_NAMES) → wf st → populates F st st' →
  fields st !! k = Some v → fields st' !! k = Some v.
Proof.
  intros Hsub Hwf H Hk.
  induction H as [|st st' f v' c b snippet dtype Hpop IH Hf Hnone]; [done|].
  specialize (IH Hwf Hk).
  assert (Hwf' : wf st') by (by eapply populates_wf).
  pose proof (wf_conf_key_absent st' f Hwf' (Hsub f Hf) Hnone) as Hcnone.
  rewrite populate_fields, !lookup_insert_ne; [done|congruence..].
Qed.

Lemma names_avoid_key (F : list string) (k : string) :
  bool_decide (Forall (λ f, k ≠ f ∧ k ≠ conf_key f) F) = true →
  (k ∉ F) ∧ ∀ f, f ∈ F → k ≠ conf_key f.
Proof.
  intros H. apply bool_decide_eq_true in H.
  split.
  - intros Hin. by destruct (proj1 (Forall_forall _ _) H k Hin).
  - intros f Hin. by destruct (proj1 (Forall_forall _ _) H f Hin).
Qed.


(** ** Every phase of the mapper populates absent fields only *)

Lemma names_included (F G : list string) :
  bool_decide (Forall (λ f, f ∈ G) F) = true → ∀ f, f ∈ F → f ∈ G.
Proof. intros H. apply Forall_forall. by apply bool_decide_eq_true in H. Qed.

(** Peels the last phase off a goal [populates G st (phase ... st')]: the
    phase populates fields of [G], by lemma [lem], and the goal becomes
    [populates G st st']. *)
Ltac last_phase lem :=
  eapply populates_trans;
  [|eapply populates_mono; [|apply lem]; by apply names_included].

(** Closes a goal [populates G st (phase ... st)] by lemma [lem]. *)
Ltac only_phase lem :=
  eapply populates_mono; [|apply lem]; by apply names_included.

Lemma foldl_populates {A : Type} F (g : mapper_state → A → mapper_state) (l : list A) st :
  (∀ st x, x ∈ l → populates F st (g st x)) → populates F st (foldl g st l).
Proof.
  revert st. induction l as [|x l IH]; intros st Hg; [apply populates_refl|].
  cbn [foldl]. eapply populates_trans.
  - apply (Hg st x), list_elem_of_here.
  - apply IH. intros st' y Hy. apply Hg. by apply list_elem_of_further.
Qed.

Lemma fold_from_populates {A : Type} F (g : mapper_state → nat → A → mapper_state)
    (l : list A) (start : nat) st :
  (∀ st i x, populates F st (g st i x)) → populates F st (fold_from g start l st).
Proof.
  intros Hg. revert start st. induction l as [|x l IH]; intros start st;
    [apply populates_refl|].
  cbn [fold_from]. eapply populates_trans; [apply Hg | apply IH].
Qed.

Lemma map_application_ref_populates bs dtype st :
  fields st !! "application_ref" = None →
  populates ["application_ref"] st (map_application_ref bs dtype st).
Proof.
  intros Hnone. unfold map_application_ref.
  destruct (find_map _ _) as [[[b t] ref]|]; [|apply populates_refl].
  destruct (Str.startswith ref "PP-");
    apply (populates_one _ st "application_ref" ref _ b t dtype);
    done || apply list_elem_of_here.
Qed.

Lemma map_site_address_populates bs dtype st :
  populates ["site_address"] st (map_site_address bs dtype st).
Proof.
  unfold map_site_address.
  destruct (negb (in_fields "site_address" st)) eqn:E; [|apply populates_refl].
  apply not_in_fields in E.
  destruct (pick_site_address bs) as [[[addr src] conf]|]; [|apply populates_refl].
  destruct (Str.truthy addr); [|apply populates_refl].
  apply (populates_one _ st "site_address" addr conf src (block_text src) dtype);
    done || apply list_elem_of_here.
Qed.

Lemma map_proposed_use_populates bs dtype st :
  populates ["proposed_use"] st (map_proposed_use bs dtype st).
Proof.
  unfold map_proposed_use.
  destruct (negb (in_fields "proposed_use" st)) eqn:E; [|apply populates_refl].
  apply not_in_fields in E.
  set (st1 := match prior_approval_hit bs with Some _ => _ | None => _ end).
  assert (H1 : populates ["proposed_use"] st st1).
  { subst st1. destruct (prior_approval_hit bs) as [[[prop_text b] t]|];
      [|apply populates_refl].
    apply (populates_one _ st "proposed_use" prop_text 0.9%Q b t dtype);
      done || apply list_elem_of_here. }
  destruct (negb (in_fields "proposed_use" st1)) eqn:E1; [|done].
  apply not_in_fields in E1.
  destruct (pick_proposed_use bs) as [[[prop src] conf]|]; [|done].
  destruct (Str.truthy prop); [|done].
  eapply populates_trans; [exact H1|].
  apply (populates_one _ st1 "proposed_use" prop conf src (block_text src) dtype);
    done || apply list_elem_of_here.
Qed.

Lemma map_label_populates F bs dtype st field pats :
  field ∈ F → populates F st (map_label bs dtype st (field, pats)).
Proof.
  intros Hf. unfold map_label.
  destruct (negb (in_fields field st)) eqn:E; [|apply populates_refl].
  apply not_in_fields in E.
  destruct (extract_by_label bs pats) as [[val src]|]; [|apply populates_refl].
  destruct (Str.truthy val); [|apply populates_refl].
  by apply (populates_one _ st field val 0.7%Q src (block_text src) dtype).
Qed.

Lemma map_labels_populates bs dtype st :
  populates (fst <$> Pat.LABEL_PATTERNS) st (map_labels bs dtype st).
Proof.
  apply foldl_populates. intros st' [field pats] Hin.
  apply map_label_populates. by apply (list_elem_of_fmap_2 fst) in Hin.
Qed.

Lemma map_postcode_populates bs dtype st :
  populates ["postcode"] st (map_postcode bs dtype st).
Proof.
  unfold map_postcode.
  destruct (is_some (head (postcode_candidates bs))); [|apply populates_refl].
  destruct (negb (in_fields "postcode" st)) eqn:E; [|apply populates_refl].
  apply not_in_fields in E. cbn [andb].
  destruct (sort_by_confidence _) as [|[[[pc b] conf] idx] ?]; [apply populates_refl|].
  destruct (Qleb _ conf); [|apply populates_refl].
  apply (populates_one _ st "postcode" pc conf b (block_text b) dtype);
    done || apply list_elem_of_here.
Qed.

Lemma map_contact_populates bs dtype st i b :
  populates ["applicant_email"; "applicant_phone"] st (map_contact bs dtype st i b).
Proof.
  unfold map_contact.
  destruct (_is_council_contact _); [apply populates_refl|].
  set (st1 := if negb (in_fields "applicant_email" st) then _ else _).
  assert (H1 : populates ["applicant_email"; "applicant_phone"] st st1).
  { subst st1. destruct (negb (in_fields "applicant_email" st)) eqn:E;
      [|apply populates_refl].
    apply not_in_fields in E.
    destruct (Re.search true Pat.EMAIL_RE _) as [m|]; [|apply populates_refl].
    apply (populates_one _ st "applicant_email" (Re.m_text m) (contact_confidence bs i) b
             (block_text b) dtype); done || apply list_elem_of_here. }
  destruct (negb (in_fields "applicant_phone" st1)) eqn:E1; [|done].
  apply not_in_fields in E1.
  destruct (Re.search false Pat.PHONE_RE _) as [m|]; [|done].
  destruct (_ && _); [|done].
  eapply populates_trans; [exact H1|].
  apply (populates_one _ st1 "applicant_phone" _ (contact_confidence bs i) b
           (block_text b) dtype); [|done].
  apply list_elem_of_further, list_elem_of_here.
Qed.

Lemma map_contacts_populates bs dtype st :
  populates ["applicant_email"; "applicant_phone"] st (map_contacts bs dtype st).
Proof. apply fold_from_populates. intros. apply map_contact_populates. Qed.

(** The state after the first assignment of [map_blocks]. *)
Lemma initial_state_wf (dtype : string) :
  wf (assign "document_type" (VStr dtype) empty_state).
Proof.
  split; cbn [assign writes fields evidence empty_state app].
  - apply NoDup_singleton.
  - intros k. rewrite list_elem_of_singleton, lookup_insert_is_Some', lookup_empty.
    split; [intros ->; by left | intros [<-|[? ?]]; done].
  - intros k. rewrite lookup_insert_is_Some', lookup_empty.
    intros [<-|[? ?]]; [by left | done].
  - intros f. rewrite lookup_empty. by intros [? ?].
Qed.

Lemma map_blocks_populates (bs : list block) :
  populates FIELD_NAMES
    (assign "document_type" (VStr (classify_document bs)) empty_state) (map_blocks bs).
Proof.
  unfold map_blocks.
  set (dtype := classify_document bs). set (st0 := assign _ _ _).
  last_phase map_contacts_populates.
  last_phase map_postcode_populates.
  last_phase map_labels_populates.
  last_phase map_proposed_use_populates.
  last_phase map_site_address_populates.
  eapply populates_mono; [|by apply map_application_ref_populates].
  by apply names_included.
Qed.

Lemma map_blocks_wf (bs : list block) : wf (map_blocks bs).
Proof.
  eapply populates_wf; [|apply initial_state_wf|apply map_blocks_populates]. done.
Qed.

(** ** Write-once fields and their companions *)

(** C4. Within one run of [map_fields] no key of [fields] is assigned
    twice: the sequence of assigned keys has no duplicate, and it lists
    exactly the keys of the returned mapping. *)
Theorem C4_fields_written_at_most_once (text_blocks : entry (list block)) :
  let st := map_fields text_blocks in
  NoDup (writes st) ∧ ∀ k, k ∈ writes st ↔ is_Some (fields st !! k).
Proof.
  destruct (map_blocks_wf (get_or_empty text_blocks)) as [Hnd Hw _ _]. done.
Qed.

(** C10. Every field populated by [map_fields] other than [document_type]
    (the fields of [FIELD_NAMES]) comes with its ["{field}_confidence"] entry and with exactly one
    evidence entry, whose confidence is the one stored in [fields]; every
    key of [fields] is [document_type], such a field, or the confidence key
    of such a field; [document_type] has no confidence entry and no
    evidence. *)
Theorem C10_confidence_and_single_evidence_per_field (text_blocks : entry (list block)) :
  let st := map_fields text_blocks in
  (∀ f, f ∈ FIELD_NAMES → is_Some (fields st !! f) →
     ∃ c e,
       fields st !! (f +:+ "_confidence") = Some (VNum c)
       ∧ evidence st !! f = Some [e]
       ∧ ev_confidence e = c)
  ∧ (∀ k, is_Some (fields st !! k) →
       k = "document_type"
       ∨ (∃ f, f ∈ FIELD_NAMES ∧ is_Some (fields st !! f)
               ∧ (k = f ∨ k = f +:+ "_confidence")))
  ∧ is_Some (fields st !! "document_type")
  ∧ fields st !! "document_type_confidence" = None
  ∧ evidence st !! "document_type" = None.
Proof.
  intros st. pose proof (map_blocks_wf (get_or_empty text_blocks)) as [Hnd Hw Hk He].
  fold (map_fields text_blocks) in Hnd, Hw, Hk, He. fold st in Hnd, Hw, Hk, He.
  split_and!.
  - intros f Hf Hsome.
    destruct (Hk f Hsome) as [->|[[_ Hp]|(g & Hg & -> & _)]].
    + by apply field_not_document_type in Hf.
    + destruct Hp as (v & c & e & _ & Hc & Hev & Hconf). by exists c, e.
    + exfalso. by apply (conf_key_not_field g).
  - intros k Hsome.
    destruct (Hk k Hsome) as [->|[[Hf Hp]|(g & Hg & -> & Hp)]]; [by left| |].
    + right. exists k. split_and!; [done.. | by left].
    + right. exists g. destruct Hp as (v & ? & ? & Hv & _).
      split_and!; [done | by rewrite Hv | by right].
  - subst st. unfold map_fields.
    rewrite (populates_frame_fields _ _ _ "document_type" (map_blocks_populates _)).
    + cbn [assign fields]. by rewrite lookup_insert_eq.
    + intros Hin. by apply field_not_document_type in Hin.
    + intros f Hf Heq. by apply (conf_key_not_document_type f).
  - destruct (fields st !! "document_type_confidence") eqn:E; [|done]. exfalso.
    destruct (Hk "document_type_confidence") as [H|[[H _]|(g & Hg & H & _)]];
      [by rewrite E | done | |].
    + revert H. unfold FIELD_NAMES. rewrite !elem_of_cons, elem_of_nil.
      intuition discriminate.
    + apply (conf_key_inj "document_type" g) in H as <-.
      by apply field_not_document_type in Hg.
  - destruct (evidence st !! "document_type") eqn:E; [|done]. exfalso.
    destruct (He "document_type") as [Hin _]; [by rewrite E|].
    by apply field_not_document_type in Hin.
Qed.

(** ** The Prior Approval declaration, on any document *)

Lemma prior_approval_declaration_value (b : block) :
  _norm (block_text b) = prior_approval_declaration →
  prior_approval_value b
  = Some ("Prior Approval: change of use to a single dwelling", b, prior_approval_declaration).
Proof. intros H. unfold prior_approval_value. rewrite H. reflexivity. Qed.

(** Whatever the document, when the first block of the first 100 that yields
    a Prior Approval value is the declaration of the scenario, [proposed_use]
    is the text after the word "for", with confidence 0.9. *)
Lemma prior_approval_declaration_on_any_document (bs : list block) (i : nat) (b : block) :
  i < 100 → bs !! i = Some b →
  _norm (block_text b) = prior_approval_declaration →
  (∀ j bj, j < i → bs !! j = Some bj → prior_approval_value bj = None) →
  let st := map_fields (Present bs) in
  fields st !! "proposed_use"
    = Some (VStr "Prior Approval: change of use to a single dwelling")
  ∧ fields st !! "proposed_use_confidence" = Some (VNum 0.9%Q).
Proof.
  intros Hi Hb Hnorm Hfirst st. subst st. unfold map_fields, get_or_empty, map_blocks.
  set (dtype := classify_document bs).
  set (st0 := assign "document_type" (VStr dtype) empty_state).
  set (st2 := map_site_address bs dtype (map_application_ref bs dtype st0)).
  assert (Hpop2 : populates ["application_ref"; "site_address"] st0 st2).
  { last_phase map_site_address_populates.
    eapply populates_mono; [|by apply map_application_ref_populates].
    by apply names_included. }
  assert (Hwf2 : wf st2).
  { eapply populates_wf; [|apply initial_state_wf|exact Hpop2]. by apply names_included. }
  assert (Hnone : fields st2 !! "proposed_use" = None).
  { destruct (names_avoid_key ["application_ref"; "site_address"] "proposed_use" eq_refl)
      as [Hk1 Hk2].
    rewrite (populates_frame_fields _ _ _ _ Hpop2 Hk1 Hk2).
    subst st0. cbn [assign fields empty_state].
    by rewrite lookup_insert_ne, lookup_empty. }
  assert (Hhit : prior_approval_hit bs
                 = Some ("Prior Approval: change of use to a single dwelling", b,
                         prior_approval_declaration)).
  { apply find_map_from_Some. exists i, b. split_and!.
    - by apply lookup_take_Some.
    - by apply prior_approval_declaration_value.
    - intros j bj Hj [Hbj _]%lookup_take_Some. by apply (Hfirst j). }
  set (st3 := map_proposed_use bs dtype st2).
  assert (Hst3 : st3 = populate "proposed_use"
                         "Prior Approval: change of use to a single dwelling" 0.9%Q b
                         prior_approval_declaration dtype st2).
  { subst st3. unfold map_proposed_use.
    apply in_fields_false in Hnone as E. rewrite E, Hhit. cbn [negb].
    unfold in_fields, assign, add_evidence. cbn [fields].
    rewrite lookup_insert_ne, lookup_insert_eq by done. done. }
  assert (Hwf3 : wf st3).
  { rewrite Hst3. apply wf_populate; [done | | done].
    apply list_elem_of_further, list_elem_of_further, list_elem_of_here. }
  assert (Hrest : populates FIELD_NAMES st3
                    (map_contacts bs dtype (map_postcode bs dtype (map_labels bs dtype st3)))).
  { last_phase map_contacts_populates.
    last_phase map_postcode_populates.
    only_phase map_labels_populates. }
  split; (eapply populates_preserves; [|exact Hwf3|exact Hrest|]; [done|]);
    rewrite Hst3, populate_fields.
  - by rewrite lookup_insert_ne, lookup_insert_eq.
  - apply lookup_insert_eq.
Qed.

(** The two theorems at work on the Site Location scenario. *)
Lemma C4_witness_site_location :
  NoDup (writes (map_fields (Present site_location_blocks))).
Proof. apply (C4_fields_written_at_most_once (Present site_location_blocks)). Defined.

Lemma C10_witness_site_location :
  let st := map_fields (Present site_location_blocks) in
  ∃ c e,
    fields st !! "site_address_confidence" = Some (VNum c)
    ∧ evidence st !! "site_address" = Some [e]
    ∧ ev_confidence e = c.
Proof.
  apply (proj1 (C10_confidence_and_single_evidence_per_field (Present site_location_blocks))
           "site_address").
  - apply list_elem_of_further, list_elem_of_here.
  - eexists. vm_compute. reflexivity.
Defined.

(** ** Postcode ranking *)

Lemma Qltb_true (x y : Q) : Qltb x y = true → (x < y)%Q.
Proof.
  unfold Qltb. rewrite negb_true_iff. intros H. apply Qnot_le_lt.
  intros Hle. apply Qle_bool_iff in Hle. congruence.
Qed.

Lemma Qltb_false (x y : Q) : Qltb x y = false → (y <= x)%Q.
Proof. unfold Qltb. rewrite negb_false_iff. apply Qle_bool_iff. Qed.

Lemma Qleb_true (x y : Q) : Qleb x y = true ↔ (x <= y)%Q.
Proof. apply Qle_bool_iff. Qed.

(** The sorted list starts with a candidate of the highest confidence. *)
Lemma sort_by_confidence_head (l : list candidate) :
  l ≠ [] →
  ∃ h t, sort_by_confidence l = h :: t
         ∧ h ∈ l
         ∧ ∀ c, c ∈ l → (cand_conf c <= cand_conf h)%Q.
Proof.
  induction l as [|x l IH]; [done|]. intros _.
  cbn [sort_by_confidence foldr]. fold (sort_by_confidence l).
  destruct l as [|y l'].
  - exists x, []. split_and!; [done | apply list_elem_of_here|].
    intros c Hc%list_elem_of_singleton. subst c. apply Qle_refl.
  - destruct IH as (h & t & Hs & Hin & Hmax); [done|]. rewrite Hs. cbn [insert_desc].
    destruct (Qltb (cand_conf x) (cand_conf h)) eqn:E.
    + exists h, (insert_desc x t). split_and!; [done | by apply list_elem_of_further|].
      intros c [->|Hc]%elem_of_cons; [|by apply Hmax].
      by apply Qlt_le_weak, Qltb_true.
    + exists x, (h :: t). split_and!; [done | apply list_elem_of_here|].
      intros c [->|Hc]%elem_of_cons; [apply Qle_refl|].
      eapply Qle_trans; [by apply Hmax | by apply Qltb_false].
Qed.

(** The candidates are what the first 400 blocks contribute. *)
Lemma elem_of_postcode_candidates (bs : list block) (c : candidate) :
  c ∈ postcode_candidates bs
  ↔ ∃ i b, i < 400 ∧ bs !! i = Some b ∧ postcode_candidate bs i b = Some c.
Proof.
  unfold postcode_candidates, fold_enum. rewrite elem_of_collected.
  split.
  - intros [Hnil|(i & b & Hl & Hf)]; [by apply elem_of_nil in Hnil|].
    apply lookup_take_Some in Hl as [? ?]. by exists i, b.
  - intros (i & b & Hi & Hl & Hf). right. exists i, b. split; [|done].
    by apply lookup_take_Some.
Qed.

Lemma postcode_candidate_Some (bs : list block) (i : nat) (b : block) (c : candidate) :
  postcode_candidate bs i b = Some c →
  ∃ pc, search_postcode (block_text b) = Some pc
        ∧ c = (pc, b, postcode_confidence bs i (block_text b) pc, i).
Proof.
  unfold postcode_candidate. destruct (search_postcode _) as [pc|]; [|done].
  intros [= <-]. by exists pc.
Qed.

Lemma penalized_confidence bs i t pc :
  postcode_penalized t pc = true → postcode_confidence bs i t pc = 0.1%Q.
Proof. unfold postcode_confidence. by intros ->. Qed.

Lemma confident_not_penalized bs i t pc :
  (0.3 <= postcode_confidence bs i t pc)%Q → postcode_penalized t pc = false.
Proof.
  unfold postcode_confidence. destruct (postcode_penalized t pc); [|done].
  intros H. apply Qle_bool_iff in H. discriminate H.
Qed.

Lemma po_box_penalized (t pc : string) :
  Str.contains "po box" (Str.lower t) = true → postcode_penalized t pc = true.
Proof.
  intros H. unfold postcode_penalized. rewrite H.
  by rewrite !orb_true_r.
Qed.

(** The state in which [map_blocks] reaches the postcode phase. *)
Lemma before_postcode_populates bs dtype st0 :
  fields st0 !! "application_ref" = None →
  populates EARLY_FIELDS st0
    (map_labels bs dtype
       (map_proposed_use bs dtype
          (map_site_address bs dtype (map_application_ref bs dtype st0)))).
Proof.
  intros Hnone.
  last_phase map_labels_populates.
  last_phase map_proposed_use_populates.
  last_phase map_site_address_populates.
  eapply populates_mono; [|by apply map_application_ref_populates].
  by apply names_included.
Qed.

(** What the postcode phase and the rest of the run leave in the result when
    the phase starts without a postcode and selects the candidate [(pc, b,
    conf, idx)]. *)
Lemma postcode_selected bs dtype st pc b conf :
  fields st !! "postcode" = None →
  fields st !! "postcode_confidence" = None →
  evidence st !! "postcode" = None →
  let final := map_contacts bs dtype (populate "postcode" pc conf b (block_text b) dtype st) in
  fields final !! "postcode" = Some (VStr pc)
  ∧ fields final !! "postcode_confidence" = Some (VNum conf)
  ∧ ∃ e, evidence final !! "postcode" = Some [e]
         ∧ ev_block_id e = block_id b ∧ ev_confidence e = conf.
Proof.
  intros Hf Hc He final. subst final.
  set (st1 := populate _ _ _ _ _ _ _).
  pose proof (map_contacts_populates bs dtype st1) as Hpop.
  destruct (names_avoid_key ["applicant_email"; "applicant_phone"] "postcode" eq_refl)
    as [Hk1 Hk2].
  destruct (names_avoid_key ["applicant_email"; "applicant_phone"] "postcode_confidence" eq_refl)
    as [Hc1 Hc2].
  rewrite (populates_frame_fields _ _ _ "postcode" Hpop Hk1 Hk2).
  rewrite (populates_frame_fields _ _ _ "postcode_confidence" Hpop Hc1 Hc2).
  rewrite (populates_frame_evidence _ _ _ "postcode" Hpop Hk1).
  subst st1. rewrite populate_fields, populate_evidence, He.
  split_and!.
  - by rewrite lookup_insert_ne, lookup_insert_eq.
  - apply lookup_insert_eq.
  - eexists. by rewrite lookup_insert_eq.
Qed.

(** The two routes of the hard penalty: the block mentions a PO box, or it
    is council contact text and its postcode starts with "B1 1TU". *)
Lemma council_postcode_penalized (t pc : string) :
  Str.contains "po box" (Str.lower t) = true
  ∨ (_is_council_contact t = true ∧ Str.startswith pc "B1 1TU" = true) →
  postcode_penalized t pc = true.
Proof.
  intros [Hpo|[Hc Hpc]]; [by apply po_box_penalized|].
  unfold postcode_penalized. cbv zeta. by rewrite Hc, Hpc.
Qed.

(** C6. When a block of the first 400 holds a council PO-box marker and a
    postcode (it mentions a PO box, or it is council contact text and its
    postcode starts with "B1 1TU"), its candidate is penalized to 0.1; if
    another block yields a candidate of confidence at least 0.3,
    [map_fields] selects as [postcode] a candidate of the highest confidence
    among all candidates: an unpenalized one, of confidence at least 0.3,
    never the penalized block, with the evidence pointing at the selected
    block. *)
Theorem C6_po_box_postcode_not_selected
    (bs : list block) (i j : nat) (bi bj : block) (pci : string) (cj : candidate) :
  i < 400 → bs !! i = Some bi →
  search_postcode (block_text bi) = Some pci →
  Str.contains "po box" (Str.lower (block_text bi)) = true
  ∨ (_is_council_contact (block_text bi) = true ∧ Str.startswith pci "B1 1TU" = true) →
  j < 400 → bs !! j = Some bj →
  postcode_candidate bs j bj = Some cj →
  (0.3 <= cand_conf cj)%Q →
  let st := map_fields (Present bs) in
  postcode_candidate bs i bi = Some (pci, bi, 0.1%Q, i)
  ∧ ∃ k bk pck ck,
      k < 400 ∧ bs !! k = Some bk ∧ k ≠ i
      ∧ postcode_candidate bs k bk = Some (pck, bk, ck, k)
      ∧ postcode_penalized (block_text bk) pck = false
      ∧ (∀ c, c ∈ postcode_candidates bs → (cand_conf c <= ck)%Q)
      ∧ (0.3 <= ck)%Q
      ∧ fields st !! "postcode" = Some (VStr pck)
      ∧ fields st !! "postcode_confidence" = Some (VNum ck)
      ∧ ∃ e, evidence st !! "postcode" = Some [e]
             ∧ ev_block_id e = block_id bk ∧ ev_confidence e = ck.
Proof.
  intros Hi Hbi Hpci Hpo Hj Hbj Hcj Hconf st.
  assert (Hci : postcode_candidate bs i bi = Some (pci, bi, 0.1%Q, i)).
  { unfold postcode_candidate. rewrite Hpci.
    by rewrite (penalized_confidence _ _ _ _ (council_postcode_penalized _ pci Hpo)). }
  split; [done|].
  assert (Hin : cj ∈ postcode_candidates bs).
  { apply elem_of_postcode_candidates. by exists j, bj. }
  destruct (sort_by_confidence_head (postcode_candidates bs)) as (h & t & Hs & Hh & Hmax).
  { intros Hnil. rewrite Hnil in Hin. by apply elem_of_nil in Hin. }
  apply elem_of_postcode_candidates in Hh as (k & bk & Hk & Hbk & Hck).
  destruct (postcode_candidate_Some _ _ _ _ Hck) as (pck & Hpck & ->).
  set (ck := postcode_confidence bs k (block_text bk) pck) in *.
  assert (Hck3 : (0.3 <= ck)%Q).
  { eapply Qle_trans; [exact Hconf|]. apply (Hmax cj Hin). }
  assert (Hfinal :
            fields st !! "postcode" = Some (VStr pck)
            ∧ fields st !! "postcode_confidence" = Some (VNum ck)
            ∧ ∃ e, evidence st !! "postcode" = Some [e]
                   ∧ ev_block_id e = block_id bk ∧ ev_confidence e = ck).
  { subst st. unfold map_fields, get_or_empty, map_blocks.
    set (dtype := classify_document bs).
    set (st0 := assign "document_type" (VStr dtype) empty_state).
    set (st1 := map_labels _ _ _).
    assert (Hpop : populates EARLY_FIELDS st0 st1)
      by (by apply before_postcode_populates).
    destruct (names_avoid_key EARLY_FIELDS "postcode" eq_refl) as [Hk1 Hk2].
    destruct (names_avoid_key EARLY_FIELDS "postcode_confidence" eq_refl) as [Hc1 Hc2].
    assert (Hf1 : fields st1 !! "postcode" = None)
      by (by rewrite (populates_frame_fields _ _ _ _ Hpop Hk1 Hk2)).
    assert (Hf2 : fields st1 !! "postcode_confidence" = None)
      by (by rewrite (populates_frame_fields _ _ _ _ Hpop Hc1 Hc2)).
    assert (Hf3 : evidence st1 !! "postcode" = None)
      by (by rewrite (populates_frame_evidence _ _ _ _ Hpop Hk1)).
    assert (Hpost : map_postcode bs dtype st1
                    = populate "postcode" pck ck bk (block_text bk) dtype st1).
    { unfold map_postcode. rewrite Hs.
      destruct (postcode_candidates bs) as [|c0 l0] eqn:El.
      { by apply elem_of_nil in Hin. }
      apply in_fields_false in Hf1 as E. rewrite E. cbn [head is_some negb andb].
      by apply Qleb_true in Hck3 as ->. }
    rewrite Hpost.
    apply (postcode_selected bs dtype st1 pck bk ck Hf1 Hf2 Hf3). }
  destruct Hfinal as (Hfp & Hfc & Hfe).
  exists k, bk, pck, ck. split_and!; [done | done | | done | | done..].
  - intros ->. rewrite Hbi in Hbk. injection Hbk as <-. rewrite Hci in Hck.
    injection Hck as _ Hq. rewrite <- Hq in Hck3.
    apply Qle_bool_iff in Hck3. discriminate Hck3.
  - by apply (confident_not_penalized bs k).
Qed.

(** The theorem at work on both routes of the penalty: a council PO-box
    block, and council contact text with the municipal postcode and no
    PO-box marker, each beside a block with the site postcode. *)
Lemma C6_witness_po_box_blocks :
  (∃ k bk pck ck,
     k < 400 ∧ po_box_blocks !! k = Some bk ∧ k ≠ 0
     ∧ postcode_penalized (block_text bk) pck = false
     ∧ (0.3 <= ck)%Q
     ∧ fields (map_fields (Present po_box_blocks)) !! "postcode" = Some (VStr pck))
  ∧ (Str.contains "po box"
       (Str.lower "Planning Department, Birmingham B1 1TU") = false
     ∧ ∃ k bk pck ck,
         k < 400 ∧ council_contact_blocks !! k = Some bk ∧ k ≠ 0
         ∧ postcode_penalized (block_text bk) pck = false
         ∧ (0.3 <= ck)%Q
         ∧ fields (map_fields (Present council_contact_blocks)) !! "postcode"
           = Some (VStr pck)).
Proof.
  split; [|split; [reflexivity|]].
  - destruct (C6_po_box_postcode_not_selected po_box_blocks 0 1
                (indexed_block "Birmingham City Council, PO Box 28, Birmingham B1 1TU" 0)
                (indexed_block "Flat 2, 14 Rose Lane B12 3CD" 1)
                "B1 1TU"
                ("B12 3CD", indexed_block "Flat 2, 14 Rose Lane B12 3CD" 1, 0.5%Q, 1))
      as [_ (k & bk & pck & ck & H1 & H2 & H3 & _ & H5 & _ & H7 & H8 & _)];
      [lia | reflexivity | reflexivity | left; reflexivity | lia | reflexivity
      | reflexivity | discriminate |].
    exists k, bk, pck, ck.
    exact (conj H1 (conj H2 (conj H3 (conj H5 (conj H7 H8))))).
  - destruct (C6_po_box_postcode_not_selected council_contact_blocks 0 1
                (indexed_block "Planning Department, Birmingham B1 1TU" 0)
                (indexed_block "Flat 2, 14 Rose Lane B12 3CD" 1)
                "B1 1TU"
                ("B12 3CD", indexed_block "Flat 2, 14 Rose Lane B12 3CD" 1, 0.5%Q, 1))
      as [_ (k & bk & pck & ck & H1 & H2 & H3 & _ & H5 & _ & H7 & H8 & _)];
      [lia | reflexivity | reflexivity | right; split; reflexivity | lia | reflexivity
      | reflexivity | discriminate |].
    exists k, bk, pck, ck.
    exact (conj H1 (conj H2 (conj H3 (conj H5 (conj H7 H8))))).
Defined.

(** ** The demolition pattern *)

(** *** Substrings *)

Lemma prefix_cons (c : ascii) (s r : string) :
  String.prefix (String c s) (String c r) = String.prefix s r.
Proof. cbn. by destruct (ascii_dec c c). Qed.

Lemma contains_prefix (sub s : string) :
  String.prefix sub s = true → Str.contains sub s = true.
Proof. intros H. destruct s; cbn [Str.contains]; by rewrite H. Qed.

Lemma contains_cons (sub : string) (c : ascii) (s : string) :
  Str.contains sub s = true → Str.contains sub (String c s) = true.
Proof. intros H. cbn [Str.contains]. rewrite H. apply orb_true_r. Qed.

Lemma prefix_of_prefix (a b s : string) :
  String.prefix (a +:+ b) s = true → String.prefix a s = true.
Proof.
  revert s. induction a as [|c a IH]; intros s H; [by destruct s|].
  destruct s as [|c' s]; [done|].
  change (String.prefix (String c (a +:+ b)) (String c' s) = true) in H.
  cbn [String.prefix] in H |- *. destruct (ascii_dec c c'); [by apply IH | done].
Qed.

(** A text that holds [a] followed by [b] holds [a]. *)
Lemma contains_prefix_of (a b s : string) :
  Str.contains (a +:+ b) s = true → Str.contains a s = true.
Proof.
  induction s as [|c s IH]; intros H; cbn [Str.contains] in H.
  - rewrite orb_false_r in H. by apply contains_prefix, (prefix_of_prefix a b).
  - apply orb_true_iff in H as [H|H].
    + by apply contains_prefix, (prefix_of_prefix a b).
    + apply contains_cons. by apply IH.
Qed.

(** The guard of the source, ["demolition of" in tl or "demolition" in tl],
    is the test ["demolition" in tl]. *)
Lemma demolition_guard (tl : string) :
  Str.contains "demolition of" tl || Str.contains "demolition" tl
  = Str.contains "demolition" tl.
Proof.
  destruct (Str.contains "demolition of" tl) eqn:E; [|done].
  by rewrite (contains_prefix_of "demolition" " of" tl E).
Qed.

Lemma demolition_hit_Some (b : block) (r : string * block * Q) :
  demolition_hit b = Some r
  ↔ Str.contains "demolition" (Str.lower (_norm (block_text b))) = true
    ∧ ∃ m, Re.search true Pat.DEMOLITION_RE (_norm (block_text b)) = Some m
           ∧ 10 < String.length (demolition_full_address m)
           ∧ r = (demolition_full_address m, b, 0.85%Q).
Proof.
  unfold demolition_hit. cbv zeta. rewrite demolition_guard.
  destruct (Str.contains "demolition" _); [|split; [done | by intros [? _]]].
  destruct (Re.search true Pat.DEMOLITION_RE _) as [m|] eqn:E.
  - destruct (Nat.ltb_spec 10 (String.length (demolition_full_address m))).
    + split; [intros [= <-]; split; [done | by exists m]|].
      by intros [_ (m' & [= <-] & _ & ->)].
    + split; [done|]. intros [_ (m' & [= <-] & ? & _)]. lia.
  - split; [done|]. by intros [_ (m' & ? & _)].
Qed.

(** C7, as the code has it. [extract_address_from_demolition_pattern]
    returns a result, with confidence 0.85, exactly when among the first 100
    blocks there is one whose normalized text, lower-cased, holds
    "demolition", in which the demolition regular expression matches, and
    for which the full address built from the match (the captured text with
    its trailing comma stripped, [", "], the upper-cased postcode) is longer
    than 10 characters; the result is that full address with the first such
    block. *)
Theorem C7_demolition_result_iff_long_full_address (blocks : list block) :
  (is_Some (extract_address_from_demolition_pattern blocks)
   ↔ ∃ i b m, i < 100 ∧ blocks !! i = Some b
              ∧ Str.contains "demolition" (Str.lower (_norm (block_text b))) = true
              ∧ Re.search true Pat.DEMOLITION_RE (_norm (block_text b)) = Some m
              ∧ 10 < String.length (demolition_full_address m))
  ∧ ∀ addr b conf,
      extract_address_from_demolition_pattern blocks = Some (addr, b, conf) →
      conf = 0.85%Q
      ∧ ∃ i m, i < 100 ∧ blocks !! i = Some b
               ∧ Str.contains "demolition" (Str.lower (_norm (block_text b))) = true
               ∧ Re.search true Pat.DEMOLITION_RE (_norm (block_text b)) = Some m
               ∧ addr = demolition_full_address m
               ∧ 10 < String.length addr
               ∧ ∀ i' b', i' < i → blocks !! i' = Some b' → demolition_hit b' = None.
Proof.
  unfold extract_address_from_demolition_pattern, find_map. split.
  - split.
    + intros [r Hr]. apply find_map_from_Some in Hr as (i & b & Hl & Hf & _).
      apply lookup_take_Some in Hl as [Hl Hi].
      apply demolition_hit_Some in Hf as (Hg & m & Hm & Hlen & _). by exists i, b, m.
    + intros (i & b & m & Hi & Hl & Hg & Hm & Hlen).
      destruct (find_map_from _ 0 (take 100 blocks)) as [r|] eqn:E; [done|]. exfalso.
      assert (Hhit : demolition_hit b = Some (demolition_full_address m, b, 0.85%Q)).
      { apply demolition_hit_Some. split; [done|]. by exists m. }
      rewrite find_map_from_None in E.
      rewrite (E i b) in Hhit; [done|]. by apply lookup_take_Some.
  - intros addr b conf Hr. apply find_map_from_Some in Hr as (i & x & Hl & Hf & Hfirst).
    apply lookup_take_Some in Hl as [Hl Hi].
    apply demolition_hit_Some in Hf as (Hg & m & Hm & Hlen & [= -> -> ->]).
    split; [done|]. exists i, m. split_and!; [done..|].
    intros i' b' Hlt Hl'. apply (Hfirst i' b'); [done|].
    apply lookup_take_Some. split; [done | lia].
Qed.

(** C7, as stated, fails: the captured address text "XY" has two characters,
    yet the extractor returns a result, because the length test is made on
    the full address "XY, B12 3CD". *)
Lemma C7_counterexample_short_captured_text :
  extract_address_from_demolition_pattern [short_demolition_block]
    = Some ("XY, B12 3CD", short_demolition_block, 0.85%Q)
  ∧ demolition_address_part
      <$> Re.search true Pat.DEMOLITION_RE (_norm (block_text short_demolition_block))
    = Some "XY"
  ∧ ¬ (10 < String.length "XY").
Proof. split_and!; [by vm_compute | by vm_compute | cbn; lia]. Qed.

(** The theorem at work on the block of the counterexample. *)
Lemma C7_witness_short_demolition_block :
  is_Some (extract_address_from_demolition_pattern [short_demolition_block]).
Proof.
  apply (proj1 (C7_demolition_result_iff_long_full_address [short_demolition_block])).
  exists 0, short_demolition_block,
    (Re.MResult 0 24 "Demolition of XY B12 3CD" [(2, "B12 3CD"); (1, "XY")] "").
  split_and!;
    [lia | reflexivity | vm_compute; reflexivity | vm_compute; reflexivity
    | vm_compute; lia].
Defined.

(** ** How far into the document the mapper reads *)

Section Locality.
Variables bs1 bs2 : list block.
Hypothesis Hagree : take 402 bs1 = take 402 bs2.

Lemma agree_take (n : nat) : n ≤ 402 → take n bs1 = take n bs2.
Proof.
  intros Hn. rewrite <- (Nat.min_l n 402 Hn), <- !take_take. by rewrite Hagree.
Qed.

Lemma agree_lookup (i : nat) : i < 402 → bs1 !! i = bs2 !! i.
Proof.
  intros Hi.
  rewrite <- (lookup_take_lt bs1 402 i Hi), <- (lookup_take_lt bs2 402 i Hi).
  by rewrite Hagree.
Qed.

Lemma agree_min_length (n : nat) : n ≤ 402 → n `min` length bs1 = n `min` length bs2.
Proof. intros Hn. rewrite <- !length_take. by rewrite (agree_take n Hn). Qed.

Lemma agree_window (a n : nat) : a + n ≤ 402 → take n (drop a bs1) = take n (drop a bs2).
Proof. intros H. rewrite !take_drop_commute. by rewrite (agree_take (a + n) H). Qed.

Lemma agree_in_site_location_section (i : nat) :
  i ≤ 402 → _is_in_site_location_section bs1 i = _is_in_site_location_section bs2 i.
Proof.
  intros Hi. unfold _is_in_site_location_section.
  rewrite (agree_window (i - 10) (i - (i - 10))) by lia. done.
Qed.

Lemma agree_contact_confidence (i : nat) :
  i < 400 → contact_confidence bs1 i = contact_confidence bs2 i.
Proof.
  intros Hi. unfold contact_confidence.
  rewrite !(Nat.min_comm (length _)), (agree_min_length (i + 3)) by lia.
  rewrite (agree_window (i - 2)) by lia. done.
Qed.

Lemma agree_classify_document : classify_document bs1 = classify_document bs2.
Proof. unfold classify_document, corpus. by rewrite (agree_take 200) by lia. Qed.

Lemma agree_map_application_ref dtype st :
  map_application_ref bs1 dtype st = map_application_ref bs2 dtype st.
Proof. unfold map_application_ref. by rewrite (agree_take 400) by lia. Qed.

Lemma agree_section_step start a i :
  i < 402 → section_step bs1 start a i = section_step bs2 start a i.
Proof.
  intros Hi. unfold section_step.
  rewrite (agree_lookup i Hi), (agree_lookup (i - 1)) by lia. done.
Qed.

Lemma agree_extract_site_address_from_section :
  extract_site_address_from_section bs1 = extract_site_address_from_section bs2.
Proof.
  unfold extract_site_address_from_section. rewrite (agree_take 200) by lia.
  destruct (find_map _ (take 200 bs2)) as [[start_idx source_block]|] eqn:E; [|done].
  assert (Hstart : start_idx < 200).
  { apply find_map_from_Some in E as (i & x & Hl & Hf & _).
    apply lookup_take_Some in Hl as [_ Hi].
    destruct (any_in _ _); [|done]. injection Hf as <- _. lia. }
  rewrite (agree_min_length (start_idx + 20)) by lia.
  rewrite (foldl_ext_in (section_step bs1 start_idx) (section_step bs2 start_idx));
    [done|].
  intros a i Hi%elem_of_seq. apply agree_section_step. lia.
Qed.

Lemma agree_extract_address_from_demolition_pattern :
  extract_address_from_demolition_pattern bs1 = extract_address_from_demolition_pattern bs2.
Proof. unfold extract_address_from_demolition_pattern. by rewrite (agree_take 100) by lia. Qed.

Lemma agree_heuristic_step best i b :
  i ≤ 402 → heuristic_step bs1 best i b = heuristic_step bs2 best i b.
Proof. intros Hi. unfold heuristic_step. by rewrite (agree_in_site_location_section i Hi). Qed.

Lemma agree_pick_site_address : pick_site_address bs1 = pick_site_address bs2.
Proof.
  unfold pick_site_address.
  rewrite agree_extract_site_address_from_section,
    agree_extract_address_from_demolition_pattern, (agree_take 100) by lia.
  unfold fold_enum.
  rewrite (fold_from_ext (heuristic_step bs1) (heuristic_step bs2)); [done|].
  intros best i b [_ Hi]. apply agree_heuristic_step.
  rewrite length_take in Hi. lia.
Qed.

Lemma agree_map_site_address dtype st :
  map_site_address bs1 dtype st = map_site_address bs2 dtype st.
Proof. unfold map_site_address. by rewrite agree_pick_site_address. Qed.

Lemma agree_map_proposed_use dtype st :
  map_proposed_use bs1 dtype st = map_proposed_use bs2 dtype st.
Proof.
  unfold map_proposed_use, prior_approval_hit, pick_proposed_use.
  by rewrite (agree_take 100), (agree_take 80) by lia.
Qed.

Lemma agree_postcode_candidates : postcode_candidates bs1 = postcode_candidates bs2.
Proof.
  unfold postcode_candidates, fold_enum. rewrite (agree_take 400) by lia.
  apply fold_from_ext. intros acc i b [_ Hi]. rewrite length_take in Hi.
  unfold postcode_candidate, postcode_confidence.
  by rewrite (agree_in_site_location_section i) by lia.
Qed.

Lemma agree_map_postcode dtype st :
  map_postcode bs1 dtype st = map_postcode bs2 dtype st.
Proof. unfold map_postcode. by rewrite agree_postcode_candidates. Qed.

Lemma agree_map_contacts dtype st :
  map_contacts bs1 dtype st = map_contacts bs2 dtype st.
Proof.
  unfold map_contacts, fold_enum. rewrite (agree_take 400) by lia.
  apply fold_from_ext. intros st' i b [_ Hi]. rewrite length_take in Hi.
  unfold map_contact. by rewrite (agree_contact_confidence i) by lia.
Qed.

(** The label fallback is the one strategy that scans every block. *)
Hypothesis Hlabels :
  ∀ field pats, (field, pats) ∈ Pat.LABEL_PATTERNS →
                extract_by_label bs1 pats = extract_by_label bs2 pats.

Lemma agree_map_labels dtype st :
  map_labels bs1 dtype st = map_labels bs2 dtype st.
Proof.
  unfold map_labels. apply foldl_ext_in. intros st' [field pats] Hin.
  unfold map_label. by rewrite (Hlabels field pats Hin).
Qed.

Lemma agree_map_blocks : map_blocks bs1 = map_blocks bs2.
Proof.
  unfold map_blocks.
  rewrite agree_classify_document, agree_map_application_ref, agree_map_site_address,
    agree_map_proposed_use, agree_map_labels, agree_map_postcode, agree_map_contacts.
  done.
Qed.
End Locality.

(** C9, as the code has it. Apart from the label fallback, which scans every
    block, the mapper reads the first 402 blocks only (scans of at most 400
    blocks, and two blocks of context after a scanned block): two inputs with
    the same first 402 blocks, on which [extract_by_label] gives the same
    result for every list of label patterns, have the same result. *)
Theorem C9_first_402_blocks_and_label_results_decide (bs1 bs2 : list block) :
  take 402 bs1 = take 402 bs2 →
  (∀ field pats, (field, pats) ∈ Pat.LABEL_PATTERNS →
                 extract_by_label bs1 pats = extract_by_label bs2 pats) →
  fields (map_fields (Present bs1)) = fields (map_fields (Present bs2))
  ∧ evidence (map_fields (Present bs1)) = evidence (map_fields (Present bs2)).
Proof.
  intros Hagree Hlabels. unfold map_fields, get_or_empty.
  by rewrite (agree_map_blocks bs1 bs2 Hagree Hlabels).
Qed.

(** C9, as stated, fails, twice over. Two inputs that agree on their first
    400 blocks, one of them with a labelled agent name in the block after
    those, get different results, because [extract_by_label] scans every
    block. And two inputs that agree on their first 401 blocks get different
    results when block 399 holds an e-mail address and block 401 the word
    "applicant": the context window of the contact scan reaches two blocks
    past the last scanned block. *)
Lemma C9_counterexample_blocks_after_the_first_400 :
  (take 400 late_label_blocks = take 400 no_label_blocks
   ∧ fields (map_fields (Present late_label_blocks)) !! "agent_name"
     = Some (VStr "Bob Builder")
   ∧ fields (map_fields (Present no_label_blocks)) !! "agent_name" = None
   ∧ fields (map_fields (Present late_label_blocks))
     ≠ fields (map_fields (Present no_label_blocks)))
  ∧ (take 401 late_applicant_blocks = take 401 no_applicant_blocks
     ∧ fields (map_fields (Present late_applicant_blocks)) !! "applicant_email_confidence"
       = Some (VNum 0.8%Q)
     ∧ fields (map_fields (Present no_applicant_blocks)) !! "applicant_email_confidence"
       = Some (VNum 0.5%Q)
     ∧ fields (map_fields (Present late_applicant_blocks))
       ≠ fields (map_fields (Present no_applicant_blocks))).
Proof.
  assert (H1 : fields (map_fields (Present late_label_blocks)) !! "agent_name"
               = Some (VStr "Bob Builder")) by (vm_compute; reflexivity).
  assert (H2 : fields (map_fields (Present no_label_blocks)) !! "agent_name" = None)
    by (vm_compute; reflexivity).
  assert (H3 : fields (map_fields (Present late_applicant_blocks))
                 !! "applicant_email_confidence" = Some (VNum 0.8%Q))
    by (vm_compute; reflexivity).
  assert (H4 : fields (map_fields (Present no_applicant_blocks))
                 !! "applicant_email_confidence" = Some (VNum 0.5%Q))
    by (vm_compute; reflexivity).
  split; (split_and!; [vm_compute; reflexivity | assumption | assumption |]).
  - intros Heq. rewrite Heq in H1. congruence.
  - intros Heq. rewrite Heq in H3. congruence.
Qed.

(** The theorem at work on two documents that differ after block 402. *)
Lemma C9_witness_long_blocks :
  fields (map_fields (Present long_blocks_a)) = fields (map_fields (Present long_blocks_b))
  ∧ evidence (map_fields (Present long_blocks_a)) = evidence (map_fields (Present long_blocks_b)).
Proof.
  apply (C9_first_402_blocks_and_label_results_decide long_blocks_a long_blocks_b).
  - by vm_compute.
  - intros field pats Hin. unfold Pat.LABEL_PATTERNS in Hin.
    rewrite !elem_of_cons, elem_of_nil in Hin.
    destruct Hin as [[= -> ->]|[[= -> ->]|[[= -> ->]|[[= -> ->]|[[= -> ->]|[]]]]]];
      by vm_compute.
Defined.

(** * The rest of the code *)

(** ** The text normalizer *)

Lemma advance_by_pos (n : nat) st rest :
  n ≤ String.length rest → Re.pos (fst (advance_by n st rest)) = Re.pos st + n.
Proof.
  revert st rest. induction n as [|n IH]; intros st rest Hn; cbn [advance_by].
  - cbn. lia.
  - destruct rest as [|c rest]; cbn in Hn; [lia|].
    rewrite IH by lia. cbn. lia.
Qed.

Lemma span_space_le (s : string) : span_space s ≤ String.length s.
Proof. induction s as [|c s IH]; cbn; [lia|]. destruct (Char.is_space c); lia. Qed.

(** A greedy [\s] quantifier without upper bound takes the whole run of
    white space, when the rest of the pattern cannot fail. *)
Lemma rep_greedy_space {A : Type} (k : Re.mstate → string → option A) (lo : nat) st rest :
  (∀ st' rest', k st' rest' ≠ None) →
  Re.rep_greedy false Re.SSpace lo None st rest k
  = if lo <=? span_space rest
    then k (fst (advance_by (span_space rest) st rest))
           (snd (advance_by (span_space rest) st rest))
    else None.
Proof.
  intros Hk. revert lo st.
  induction rest as [|c rest IH]; intros lo st; cbn [Re.rep_greedy span_space].
  - by destruct lo.
  - cbn [Re.single_match]. destruct (Char.is_space c) eqn:Ec.
    + rewrite IH. cbn [advance_by].
      destruct lo as [|lo]; cbn [Nat.pred Nat.leb].
      * destruct (k _ _) eqn:Ek; [done|]. by apply Hk in Ek.
      * destruct (lo <=? span_space rest); [|done].
        destruct (k _ _) eqn:Ek; [done|]. by apply Hk in Ek.
    + by destruct lo.
Qed.

(** [\s+] matches at a position exactly when white space starts there, and
    the match is the whole run. *)
Lemma match_at_spaces st rest :
  (λ m, Re.m_end m - Re.m_start m) <$> Re.match_at false Pat.SPACES st rest
  = match span_space rest with
    | O => None
    | S n => Some (S n)
    end.
Proof.
  unfold Re.match_at, Pat.SPACES, Re.plus. cbn [Re.run].
  rewrite rep_greedy_space by done.
  destruct (span_space rest) as [|n] eqn:En; [done|].
  cbn [Nat.leb fmap option_fmap option_map Re.m_end Re.m_start]. f_equal.
  rewrite advance_by_pos; cbn [Re.pos]; [lia|].
  rewrite <- En. apply span_space_le.
Qed.

(** [re.sub(r"\s+", " ", s)] is [collapse]. *)
Lemma sub_spaces_collapse st rest :
  Re.sub_from Pat.SPACES " " st rest 0 = collapse false rest
  ∧ Re.sub_from Pat.SPACES " " st rest (span_space rest) = collapse true rest.
Proof.
  revert st. induction rest as [|c rest IH]; intros st.
  - cbn [Re.sub_from span_space collapse].
    pose proof (match_at_spaces st "") as H. cbn [span_space] in H.
    by destruct (Re.match_at false Pat.SPACES st "").
  - destruct (IH (Re.advance st c)) as [IH0 IHn].
    assert (H0 : Re.sub_from Pat.SPACES " " st (String c rest) 0
                 = collapse false (String c rest)).
    { cbn [Re.sub_from collapse].
      pose proof (match_at_spaces st (String c rest)) as H. cbn [span_space] in H.
      destruct (Char.is_space c).
      - destruct (Re.match_at false Pat.SPACES st (String c rest)) as [m|]; [|done].
        cbn in H. injection H as ->. by rewrite IHn.
      - destruct (Re.match_at false Pat.SPACES st (String c rest)) as [m|]; [done|].
        by rewrite IH0. }
    split; [done|].
    cbn [span_space]. destruct (Char.is_space c) eqn:Ec.
    + cbn [Re.sub_from collapse]. by rewrite Ec.
    + rewrite H0. cbn [collapse]. by rewrite Ec.
Qed.

Lemma collapse_true_head (s : string) :
  match collapse true s with
  | EmptyString => True
  | String c _ => Char.is_space c = false
  end.
Proof.
  induction s as [|c s IH]; cbn [collapse]; [done|].
  destruct (Char.is_space c) eqn:Ec; [done|]. cbn. done.
Qed.

Lemma lstrip_collapse (s : string) : Str.lstrip (collapse false s) = collapse true s.
Proof.
  destruct s as [|c s]; cbn [collapse]; [done|].
  destruct (Char.is_space c) eqn:Ec; cbn [Str.lstrip].
  - change (Char.is_space " ") with true. cbn iota.
    pose proof (collapse_true_head s) as H.
    destruct (collapse true s) as [|d r]; [done|]. cbn [Str.lstrip]. by rewrite H.
  - by rewrite Ec.
Qed.

Lemma rstrip_solid (c : ascii) (s : string) :
  Char.is_space c = false → Str.rstrip (String c s) = String c (Str.rstrip s).
Proof. intros Ec. cbn [Str.rstrip]. rewrite Ec. by destruct (Str.rstrip s). Qed.

Lemma rstrip_space (s : string) :
  Str.rstrip (String " " s)
  = match Str.rstrip s with
    | EmptyString => EmptyString
    | r => String " " r
    end.
Proof.
  cbn [Str.rstrip]. change (Char.is_space " ") with true. by destruct (Str.rstrip s).
Qed.

Lemma rstrip_collapse (s : string) :
  Str.rstrip (collapse false s) = squeeze true false s
  ∧ Str.rstrip (collapse true s) = squeeze false false s
  ∧ squeeze true true s
    = match Str.rstrip (collapse true s) with
      | EmptyString => EmptyString
      | r => String " " r
      end.
Proof.
  induction s as [|c s (IHa & IHb & IHc)]; [done|].
  cbn [collapse squeeze]. destruct (Char.is_space c) eqn:Ec.
  - split_and!; [|done|done]. by rewrite rstrip_space, IHc.
  - rewrite !rstrip_solid, IHa by done. done.
Qed.

(** [_norm] is the single pass [squeeze]. *)
Lemma _norm_squeeze (s : string) : _norm s = squeeze false false s.
Proof.
  unfold _norm, Str.strip, Re.sub.
  rewrite (proj1 (sub_spaces_collapse Re.start_state s)), lstrip_collapse.
  apply rstrip_collapse.
Qed.

Lemma squeeze_spaced (s : string) :
  spaced (squeeze true false s) = true ∧ spaced (squeeze true true s) = true.
Proof.
  induction s as [|c s [IHa IHb]]; [done|].
  cbn [squeeze]. destruct (Char.is_space c) eqn:Ec; [done|].
  cbn [spaced]. rewrite Ec. change (Char.is_space " ") with true.
  cbn [Ascii.eqb Bool.eqb negb andb]. by rewrite IHa.
Qed.

Lemma spaced_fixed (s : string) : spaced s = true → squeeze true false s = s.
Proof.
  induction s as [|c s IH]; [done|]. cbn [spaced squeeze].
  destruct (Char.is_space c) eqn:Ec.
  - intros H. apply andb_prop in H as [H Hs]. apply andb_prop in H as [Hc Hd].
    apply Ascii.eqb_eq in Hc as ->.
    destruct s as [|d r]; [done|]. apply negb_true_iff in Hd.
    specialize (IH Hs). cbn [squeeze] in IH |- *. rewrite Hd in IH |- *.
    by rewrite IH.
  - intros Hs. by rewrite (IH Hs).
Qed.

(** [_norm] returns a text in normal form. *)
Lemma _norm_is_normal (s : string) : is_normal (_norm s) = true.
Proof.
  rewrite _norm_squeeze. induction s as [|c s IH]; [done|].
  cbn [squeeze]. destruct (Char.is_space c) eqn:Ec; [done|].
  cbn [is_normal spaced]. rewrite Ec. apply squeeze_spaced.
Qed.

(** A text in normal form is left as it is. *)
Lemma _norm_fixes_normal (s : string) : is_normal s = true → _norm s = s.
Proof.
  rewrite _norm_squeeze. destruct s as [|c s]; [done|].
  cbn [is_normal spaced squeeze]. destruct (Char.is_space c) eqn:Ec; [done|].
  cbn [negb andb]. intros Hs. by rewrite (spaced_fixed s Hs).
Qed.

Lemma _norm_idempotent (s : string) : _norm (_norm s) = _norm s.
Proof. apply _norm_fixes_normal, _norm_is_normal. Qed.

Lemma squeeze_started_solid (pending : bool) (s : string) :
  solid (squeeze true pending s) = solid s.
Proof.
  revert pending. induction s as [|c s IH]; intros pending; [done|].
  cbn [squeeze solid]. destruct (Char.is_space c) eqn:Ec; [apply IH|].
  destruct pending; cbn [solid]; change (Char.is_space " ") with true;
    cbn iota; by rewrite Ec, IH.
Qed.

Lemma _norm_keeps_other_characters (s : string) : solid (_norm s) = solid s.
Proof.
  rewrite _norm_squeeze. induction s as [|c s IH]; [done|].
  cbn [squeeze solid]. destruct (Char.is_space c) eqn:Ec; [done|].
  cbn [solid]. by rewrite Ec, squeeze_started_solid.
Qed.

Lemma _norm_empty_iff (s : string) : _norm s = "" ↔ all_space s = true.
Proof.
  rewrite _norm_squeeze. induction s as [|c s IH]; [done|].
  cbn [squeeze all_space]. destruct (Char.is_space c); [done|]. done.
Qed.

(** X1. [_norm] returns a text in normal form: it neither starts nor ends
    with white space and its only white space is single spaces between
    other characters. The characters other than white space are those of
    the input, in the same order, and the result is empty exactly when the
    input holds nothing but white space. *)
Theorem X1_norm_returns_the_normal_form (s : string) :
  is_normal (_norm s) = true
  ∧ solid (_norm s) = solid s
  ∧ (_norm s = "" ↔ all_space s = true).
Proof.
  split_and!;
    [apply _norm_is_normal | apply _norm_keeps_other_characters | apply _norm_empty_iff].
Qed.

(** X2. The texts that [_norm] leaves as they are are exactly the texts in
    normal form; hence normalizing twice is normalizing once. *)
Theorem X2_norm_fixed_points (s : string) :
  (_norm s = s ↔ is_normal s = true) ∧ _norm (_norm s) = _norm s.
Proof.
  split; [|apply _norm_idempotent].
  split; [|apply _norm_fixes_normal].
  intros <-. apply _norm_is_normal.
Qed.

(** ** Every populated field rests on a block of the input *)

Lemma run_steps_populates bs st st' :
  run_steps bs st st' → populates FIELD_NAMES st st'.
Proof.
  induction 1 as [|st st' f v c b snippet dtype _ IH [Hf _] Hnone];
    [apply populates_refl|].
  by apply populates_step.
Qed.

Lemma run_steps_trans bs st1 st2 st3 :
  run_steps bs st1 st2 → run_steps bs st2 st3 → run_steps bs st1 st3.
Proof. intros H12 H23. induction H23; [done|]. apply run_steps_step; auto. Qed.

Lemma run_steps_one bs st f v c b snippet dtype :
  step_of_run bs f v c b snippet dtype → fields st !! f = None →
  run_steps bs st (populate f v c b snippet dtype st).
Proof. intros. apply run_steps_step; [apply run_steps_refl | done..]. Qed.

Lemma grounded_populate bs st f v c b snippet dtype :
  wf st → grounded bs st →
  step_of_run bs f v c b snippet dtype → fields st !! f = None →
  grounded bs (populate f v c b snippet dtype st).
Proof.
  intros Hwf Hg (Hf & Hb & -> & Hsn & Hc & Hrv) Hnone g w Hgf.
  rewrite populate_fields, populate_evidence.
  assert (Hev : evidence st !! f = None).
  { destruct (evidence st !! f) eqn:E; [|done].
    destruct (wf_evidence st Hwf f) as [_ [? ?]]; [by rewrite E | congruence]. }
  pose proof (wf_conf_key_absent st f Hwf Hf Hnone) as Hcnone.
  destruct (decide (g = f)) as [->|Hne].
  - rewrite lookup_insert_ne by apply not_eq_sym, conf_key_ne.
    rewrite !lookup_insert_eq. intros [= <-].
    exists c, b. rewrite Hev. unfold evidence_of. rewrite <- Hsn. done.
  - assert (conf_key f ≠ g) by (intros <-; by apply (conf_key_not_field f)).
    rewrite !lookup_insert_ne by done. intros Hw.
    destruct (Hg g w Hgf Hw) as (c' & b' & Hb' & He' & Hc' & Hrest).
    exists c', b'.
    assert (conf_key f ≠ conf_key g) by (by intros ?%conf_key_inj).
    assert (f ≠ conf_key g) by (intros ->; by apply (conf_key_not_field g)).
    by rewrite !lookup_insert_ne by done.
Qed.

Lemma run_steps_grounded bs st st' :
  wf st → grounded bs st → run_steps bs st st' → grounded bs st'.
Proof.
  intros Hwf Hg H. induction H as [|st st' f v c b snippet dtype Hrun IH Hstep Hnone];
    [done|].
  apply grounded_populate; [|by apply IH|done..].
  eapply populates_wf; [|exact Hwf|by apply (run_steps_populates bs)]. done.
Qed.

(** *** Where each strategy takes its source block from *)

Lemma find_map_elem {A B : Type} (f : nat → A → option B) (l : list A) (y : B) :
  find_map f l = Some y → ∃ i x, l !! i = Some x ∧ f i x = Some y.
Proof. unfold find_map. intros (i & x & Hl & Hf & _)%find_map_from_Some. by exists i, x. Qed.

Lemma elem_of_take_lookup {A : Type} (n : nat) (l : list A) (i : nat) (x : A) :
  take n l !! i = Some x → x ∈ l.
Proof. intros [H _]%lookup_take_Some. by eapply list_elem_of_lookup_2. Qed.

Lemma fold_from_invariant {A St : Type} (P : St → Prop) (f : St → nat → A → St)
    (start : nat) (l : list A) (s : St) :
  P s → (∀ s i x, l !! i = Some x → P s → P (f s (start + i) x)) →
  P (fold_from f start l s).
Proof.
  revert start s. induction l as [|a l IH]; intros start s Hs Hf; [done|].
  cbn [fold_from]. apply IH.
  - specialize (Hf s 0 a eq_refl Hs). by rewrite Nat.add_0_r in Hf.
  - intros s' i x Hl Hs'. rewrite Nat.add_succ_comm. by apply (Hf s' (S i) x).
Qed.

(** Closes a goal [c ∈ allowed_confidences f] for a literal [f] and [c]. *)
Ltac conf_in :=
  first [apply list_elem_of_here | apply list_elem_of_further; conf_in].

Lemma section_source bs addr src conf :
  extract_site_address_from_section bs = Some (addr, src, conf) →
  src ∈ bs ∧ conf = 0.95%Q.
Proof.
  unfold extract_site_address_from_section.
  destruct (find_map _ _) as [[start_idx source_block]|] eqn:E; [|done].
  apply find_map_elem in E as (i & b & Hl & Hf).
  destruct (any_in _ _); [|done]. injection Hf as <- <-.
  destruct (address_list _); [done|]. intros [= <- <- <-].
  split; [by eapply elem_of_take_lookup | done].
Qed.

Lemma demolition_source bs addr src conf :
  extract_address_from_demolition_pattern bs = Some (addr, src, conf) →
  src ∈ bs ∧ conf = 0.85%Q.
Proof.
  unfold extract_address_from_demolition_pattern.
  intros (i & b & Hl & Hf)%find_map_elem.
  apply demolition_hit_Some in Hf as (_ & m & _ & _ & [= -> -> ->]).
  split; [by eapply elem_of_take_lookup | done].
Qed.

Lemma heuristic_step_ok bs best i b :
  b ∈ bs → heuristic_best_ok bs best → heuristic_best_ok bs (heuristic_step bs best i b).
Proof.
  intros Hb Hbest. unfold heuristic_step. cbv zeta.
  destruct (_is_in_site_location_section bs i);
  repeat match goal with
         | |- heuristic_best_ok _ (if ?c then _ else _) => destruct c
         | |- heuristic_best_ok _ (match ?o with Some _ => _ | None => _ end) =>
             destruct o as [[? ?]|]
         end; try done; split; try done; conf_in.
Qed.

Lemma heuristic_source bs :
  heuristic_best_ok bs (fold_enum (heuristic_step bs) (take 100 bs) (None, 0%Q)).
Proof.
  unfold fold_enum. apply (fold_from_invariant (heuristic_best_ok bs)); [done|].
  intros best i b Hl. apply heuristic_step_ok. by eapply elem_of_take_lookup.
Qed.

Lemma pick_site_address_source bs addr src conf :
  pick_site_address bs = Some (addr, src, conf) →
  src ∈ bs ∧ conf ∈ allowed_confidences "site_address" ∧ Str.truthy addr = true.
Proof.
  unfold pick_site_address. cbv zeta.
  pose proof (heuristic_source bs) as Hh.
  destruct (extract_site_address_from_section bs) as [[[a1 s1] c1]|] eqn:E1;
    [destruct (Str.truthy a1 && Qleb 0.9 c1) eqn:Eok1|].
  { intros [= -> -> ->]. apply andb_true_iff in Eok1 as [? _].
    apply section_source in E1 as [? ->]. split_and!; [done | conf_in | done]. }
  all: destruct (extract_address_from_demolition_pattern bs) as [[[a2 s2] c2]|] eqn:E2;
    [destruct (Str.truthy a2 && Qleb 0.8 c2) eqn:Eok2|].
  all: try (intros [= -> -> ->]; apply andb_true_iff in Eok2 as [? _];
            apply demolition_source in E2 as [? ->]; split_and!; [done | conf_in | done]).
  all: destruct (fold_enum _ _ _) as [[[bm bb]|] bc]; [|done];
    destruct (Str.truthy bm && _) eqn:Eh; [|done];
    intros [= -> -> ->]; apply andb_true_iff in Eh as [? _]; destruct Hh as [? Hc];
    split_and!; [done| |done];
    repeat (apply elem_of_cons in Hc as [->|Hc]); [conf_in..|by apply elem_of_nil in Hc].
Qed.

Lemma prior_approval_source bs v b t :
  prior_approval_hit bs = Some (v, b, t) → b ∈ bs ∧ t = _norm (block_text b).
Proof.
  unfold prior_approval_hit. intros (i & x & Hl & Hf)%find_map_elem.
  unfold prior_approval_value in Hf.
  destruct (_ || _); [|done]. destruct (Re.split_once _ _) as [[? w]|]; [|done].
  destruct (10 <? _); [|done]. injection Hf as <- <- <-.
  split; [by eapply elem_of_take_lookup | done].
Qed.

Lemma pick_proposed_use_source bs v b c :
  pick_proposed_use bs = Some (v, b, c) → b ∈ bs ∧ c ∈ [0.7%Q; 0.5%Q].
Proof.
  unfold pick_proposed_use. intros (i & x & Hl & Hf)%find_map_elem.
  cbv zeta in Hf. destruct (_ || _); [done|]. destruct (_ && _); [|done].
  injection Hf as <- <- <-.
  split; [by eapply elem_of_take_lookup|].
  match goal with |- (if ?c then _ else _) ∈ _ => destruct c end; conf_in.
Qed.

Lemma extract_by_label_source bs pats v b :
  extract_by_label bs pats = Some (v, b) → b ∈ bs.
Proof.
  unfold extract_by_label. intros (i & x & Hl & Hf)%find_map_elem.
  cbv zeta in Hf. destruct (existsb _ _); [|done].
  destruct (match Re.split_once _ _ with Some _ => _ | None => _ end).
  - injection Hf as <- <-. by eapply list_elem_of_lookup_2.
  - destruct (fst _); [done|]. injection Hf as <- <-. by eapply list_elem_of_lookup_2.
Qed.

Lemma postcode_confidence_unpenalized bs i t pc :
  postcode_penalized t pc = false →
  postcode_confidence bs i t pc ∈ allowed_confidences "postcode".
Proof.
  unfold postcode_confidence. intros ->.
  destruct (_ || _); [conf_in|]. destruct (_ || _); conf_in.
Qed.

Lemma contact_confidence_allowed bs i :
  contact_confidence bs i ∈ [0.8%Q; 0.5%Q].
Proof. unfold contact_confidence. cbv zeta. destruct (Str.contains _ _); conf_in. Qed.

(** *** Every phase of the mapper takes steps of the run *)

(** Splits a goal [step_of_run bs f v c b snippet dtype] for a literal [f]
    into the side conditions that are not closed by computation. *)
Ltac run_step :=
  unfold step_of_run, regex_value;
  repeat match goal with |- _ ∧ _ => split end;
  [ apply (bool_decide_unpack _); by vm_compute
  | try assumption
  | reflexivity
  | lazymatch goal with |- ?x = ?x => reflexivity | _ => idtac end
  | first [assumption | conf_in | idtac]
  | intros Heq; first [discriminate Heq | clear Heq] ..].

Lemma fold_from_run_steps {A : Type} bs (g : mapper_state → nat → A → mapper_state)
    (l : list A) (start : nat) st :
  (∀ st i x, l !! i = Some x → run_steps bs st (g st (start + i) x)) →
  run_steps bs st (fold_from g start l st).
Proof.
  revert start st. induction l as [|a l IH]; intros start st Hg; [apply run_steps_refl|].
  cbn [fold_from]. eapply run_steps_trans.
  - specialize (Hg st 0 a eq_refl). rewrite Nat.add_0_r in Hg. exact Hg.
  - apply IH. intros st' i x Hl. rewrite Nat.add_succ_comm. by apply (Hg st' (S i) x).
Qed.

Lemma foldl_run_steps {A : Type} bs (g : mapper_state → A → mapper_state) (l : list A) st :
  (∀ st x, x ∈ l → run_steps bs st (g st x)) → run_steps bs st (foldl g st l).
Proof.
  revert st. induction l as [|x l IH]; intros st Hg; [apply run_steps_refl|].
  cbn [foldl]. eapply run_steps_trans.
  - apply (Hg st x), list_elem_of_here.
  - apply IH. intros st' y Hy. apply Hg. by apply list_elem_of_further.
Qed.

Lemma map_application_ref_run bs st :
  fields st !! "application_ref" = None →
  run_steps bs st (map_application_ref bs (classify_document bs) st).
Proof.
  intros Hnone. unfold map_application_ref.
  destruct (find_map _ _) as [[[b t] ref]|] eqn:E; [|apply run_steps_refl].
  apply find_map_elem in E as (i & x & Hl & Hf). cbv zeta in Hf.
  destruct (Re.search true Pat.APPREF_RE (block_text x)) as [m|] eqn:Em; [|done].
  injection Hf as <- <- <-.
  assert (Hstep : step_of_run bs "application_ref"
            (Str.upper (default "" (Re.group 1 m)))
            (if Str.contains "PP-" (Str.upper (default "" (Re.group 1 m)))
             then 0.9%Q else 0.8%Q) x (block_text x) (classify_document bs)).
  { run_step.
    - by eapply elem_of_take_lookup.
    - destruct (Str.contains _ _); conf_in.
    - by exists m. }
  destruct (Str.startswith _ "PP-"); by apply (run_steps_one bs st "application_ref").
Qed.

Lemma map_site_address_run bs st :
  run_steps bs st (map_site_address bs (classify_document bs) st).
Proof.
  unfold map_site_address.
  destruct (negb (in_fields "site_address" st)) eqn:E; [|apply run_steps_refl].
  apply not_in_fields in E.
  destruct (pick_site_address bs) as [[[addr src] conf]|] eqn:Ep; [|apply run_steps_refl].
  destruct (Str.truthy addr); [|apply run_steps_refl].
  apply pick_site_address_source in Ep as (? & ? & _).
  apply (run_steps_one bs st "site_address"); [|done]. run_step.
Qed.

Lemma map_proposed_use_run bs st :
  run_steps bs st (map_proposed_use bs (classify_document bs) st).
Proof.
  unfold map_proposed_use.
  destruct (negb (in_fields "proposed_use" st)) eqn:E; [|apply run_steps_refl].
  apply not_in_fields in E.
  set (st1 := match prior_approval_hit bs with Some _ => _ | None => _ end).
  assert (H1 : run_steps bs st st1).
  { subst st1. destruct (prior_approval_hit bs) as [[[prop_text b] t]|] eqn:Eh;
      [|apply run_steps_refl].
    apply prior_approval_source in Eh as [? ->].
    apply (run_steps_one bs st "proposed_use"); [|done]. run_step.
    apply _norm_idempotent. }
  destruct (negb (in_fields "proposed_use" st1)) eqn:E1; [|done].
  apply not_in_fields in E1.
  destruct (pick_proposed_use bs) as [[[prop src] conf]|] eqn:Ep; [|done].
  destruct (Str.truthy prop); [|done].
  apply pick_proposed_use_source in Ep as [? Hc].
  eapply run_steps_trans; [exact H1|].
  apply (run_steps_one bs st1 "proposed_use"); [|done]. run_step.
  by apply list_elem_of_further.
Qed.

Lemma map_label_run bs st field pats :
  (field, pats) ∈ Pat.LABEL_PATTERNS →
  run_steps bs st (map_label bs (classify_document bs) st (field, pats)).
Proof.
  intros Hin. unfold map_label.
  destruct (negb (in_fields field st)) eqn:E; [|apply run_steps_refl].
  apply not_in_fields in E.
  destruct (extract_by_label bs pats) as [[val src]|] eqn:El; [|apply run_steps_refl].
  destruct (Str.truthy val); [|apply run_steps_refl].
  apply extract_by_label_source in El.
  apply (run_steps_one bs st field); [|done].
  apply (list_elem_of_fmap_2 fst) in Hin. cbn in Hin.
  repeat (apply elem_of_cons in Hin as [->|Hin]); [run_step..|by apply elem_of_nil in Hin].
Qed.

Lemma map_labels_run bs st :
  run_steps bs st (map_labels bs (classify_document bs) st).
Proof. apply foldl_run_steps. intros st' [field pats] Hin. by apply map_label_run. Qed.

Lemma map_postcode_run bs st :
  run_steps bs st (map_postcode bs (classify_document bs) st).
Proof.
  unfold map_postcode.
  destruct (is_some (head (postcode_candidates bs))) eqn:Eh; [|apply run_steps_refl].
  destruct (negb (in_fields "postcode" st)) eqn:E; [|apply run_steps_refl].
  apply not_in_fields in E. cbn [andb].
  destruct (sort_by_confidence_head (postcode_candidates bs)) as (h & t & Hs & Hin & _).
  { by destruct (postcode_candidates bs). }
  rewrite Hs. destruct h as [[[pc b] conf] idx].
  destruct (Qleb _ conf) eqn:Eq; [|apply run_steps_refl].
  apply elem_of_postcode_candidates in Hin as (i & b' & _ & Hl & Hc).
  apply postcode_candidate_Some in Hc as (pc' & Hpc & [= <- <- -> <-]).
  apply Qleb_true, confident_not_penalized in Eq.
  apply (run_steps_one bs st "postcode"); [|done]. run_step.
  - by eapply list_elem_of_lookup_2.
  - by apply postcode_confidence_unpenalized.
  - by split.
Qed.

Lemma map_contact_run bs st i b :
  b ∈ bs → run_steps bs st (map_contact bs (classify_document bs) st i b).
Proof.
  intros Hb. unfold map_contact.
  destruct (_is_council_contact _) eqn:Ec; [apply run_steps_refl|].
  pose proof (contact_confidence_allowed bs i) as Hconf.
  set (st1 := if negb (in_fields "applicant_email" st) then _ else _).
  assert (H1 : run_steps bs st st1).
  { subst st1. destruct (negb (in_fields "applicant_email" st)) eqn:E;
      [|apply run_steps_refl].
    apply not_in_fields in E.
    destruct (Re.search true Pat.EMAIL_RE _) as [m|] eqn:Em; [|apply run_steps_refl].
    apply (run_steps_one bs st "applicant_email"); [|done]. run_step.
    split; [assumption | by exists m]. }
  destruct (negb (in_fields "applicant_phone" st1)) eqn:E1; [|done].
  apply not_in_fields in E1.
  destruct (Re.search false Pat.PHONE_RE _) as [m|] eqn:Em; [|done].
  destruct (_ && _); [|done].
  eapply run_steps_trans; [exact H1|].
  apply (run_steps_one bs st1 "applicant_phone"); [|done]. run_step.
  split; [assumption | by exists m].
Qed.

Lemma map_contacts_run bs st :
  run_steps bs st (map_contacts bs (classify_document bs) st).
Proof.
  apply fold_from_run_steps. intros st' i x Hl. apply map_contact_run.
  by eapply elem_of_take_lookup.
Qed.

Lemma map_blocks_run (bs : list block) :
  run_steps bs (assign "document_type" (VStr (classify_document bs)) empty_state)
    (map_blocks bs).
Proof.
  unfold map_blocks.
  eapply run_steps_trans; [|apply map_contacts_run].
  eapply run_steps_trans; [|apply map_postcode_run].
  eapply run_steps_trans; [|apply map_labels_run].
  eapply run_steps_trans; [|apply map_proposed_use_run].
  eapply run_steps_trans; [|apply map_site_address_run].
  by apply map_application_ref_run.
Qed.

Lemma map_blocks_grounded (bs : list block) : grounded bs (map_blocks bs).
Proof.
  eapply run_steps_grounded; [apply initial_state_wf| |apply map_blocks_run].
  intros f v Hf. cbn [assign fields empty_state].
  rewrite lookup_insert_ne, lookup_empty; [done|].
  intros <-. by apply field_not_document_type in Hf.
Qed.

Lemma slice_to_length (n : nat) (s : string) : String.length (Str.slice_to n s) ≤ n.
Proof.
  unfold Str.slice_to. revert s. induction n as [|n IH]; intros [|c s]; cbn; try lia.
  specialize (IH s). lia.
Qed.

Lemma map_blocks_document_type (bs : list block) :
  fields (map_blocks bs) !! "document_type" = Some (VStr (classify_document bs)).
Proof.
  destruct (names_avoid_key FIELD_NAMES "document_type" eq_refl) as [Hk1 Hk2].
  rewrite (populates_frame_fields _ _ _ _ (map_blocks_populates bs) Hk1 Hk2).
  cbn [assign fields empty_state]. by rewrite lookup_insert_eq.
Qed.

Lemma populated_field_is_text (bs : list block) (f : string) :
  f ∈ FIELD_NAMES → is_Some (fields (map_blocks bs) !! f) →
  ∃ v, fields (map_blocks bs) !! f = Some (VStr v).
Proof.
  intros Hf Hsome. destruct (map_blocks_wf bs) as [_ _ Hk _].
  destruct (Hk f Hsome) as [->|[[_ Hp]|(g & Hg & -> & _)]].
  - by apply field_not_document_type in Hf.
  - destruct Hp as (v & _ & _ & Hv & _). by exists v.
  - exfalso. by apply (conf_key_not_field g).
Qed.

(** X3. Every field that [map_fields] populates is backed by exactly one
    evidence entry, and that entry cites a block of the input: its page and
    block id are that block's, its snippet is the first 240 characters of
    the block's normalized text, its confidence is the one stored in
    [fields], and its [source_doc_type] is the stored [document_type]. *)
Theorem X3_evidence_cites_a_block_of_the_input (text_blocks : entry (list block))
    (f : string) :
  let st := map_fields text_blocks in
  f ∈ FIELD_NAMES → is_Some (fields st !! f) →
  ∃ b c dtype,
    b ∈ get_or_empty text_blocks
    ∧ fields st !! "document_type" = Some (VStr dtype)
    ∧ fields st !! (f +:+ "_confidence") = Some (VNum c)
    ∧ evidence st !! f
      = Some [Evidence (block_page b) (block_id b)
                (Str.slice_to 240 (_norm (block_text b))) c (Some dtype)]
    ∧ String.length (Str.slice_to 240 (_norm (block_text b))) ≤ 240.
Proof.
  intros st Hf Hsome. subst st. unfold map_fields in *.
  destruct (populated_field_is_text _ f Hf Hsome) as [v Hv].
  destruct (map_blocks_grounded _ f v Hf Hv) as (c & b & Hb & He & Hc & _).
  exists b, c, (classify_document (get_or_empty text_blocks)).
  split_and!; [done | apply map_blocks_document_type | done | done | apply slice_to_length].
Qed.

Lemma X3_witness_site_location :
  let st := map_fields (Present site_location_blocks) in
  ∃ b c dtype,
    b ∈ site_location_blocks
    ∧ fields st !! "document_type" = Some (VStr dtype)
    ∧ fields st !! "site_address_confidence" = Some (VNum c)
    ∧ evidence st !! "site_address"
      = Some [Evidence (block_page b) (block_id b)
                (Str.slice_to 240 (_norm (block_text b))) c (Some dtype)]
    ∧ String.length (Str.slice_to 240 (_norm (block_text b))) ≤ 240.
Proof.
  apply (X3_evidence_cites_a_block_of_the_input (Present site_location_blocks)
           "site_address").
  - apply list_elem_of_further, list_elem_of_here.
  - eexists. vm_compute. reflexivity.
Defined.

Lemma allowed_confidences_range (f : string) (c : Q) :
  c ∈ allowed_confidences f → (0.4 <= c)%Q ∧ (c <= 0.95)%Q.
Proof.
  unfold allowed_confidences.
  repeat match goal with |- context [if ?b then _ else _] => destruct b end;
    intros Hc; repeat (apply elem_of_cons in Hc as [->|Hc]);
    try (by apply elem_of_nil in Hc); by vm_compute.
Qed.

(** X4. The confidence that [map_fields] stores with a field is one of the
    fixed values the code has for that field: 0.9 or 0.8 for the
    application reference, 0.95, 0.85, 0.8, 0.7, 0.6 or 0.4 for the site
    address, 0.9, 0.7 or 0.5 for the proposed use and for the postcode, 0.8
    or 0.5 for e-mail and phone, 0.7 for the other labelled fields. It
    always lies between 0.4 and 0.95. *)
Theorem X4_stored_confidences (text_blocks : entry (list block)) (f : string) (c : Q) :
  f ∈ FIELD_NAMES →
  fields (map_fields text_blocks) !! (f +:+ "_confidence") = Some (VNum c) →
  c ∈ allowed_confidences f ∧ (0.4 <= c)%Q ∧ (c <= 0.95)%Q.
Proof.
  intros Hf Hc. unfold map_fields in *.
  destruct (map_blocks_wf (get_or_empty text_blocks)) as [_ _ Hk _].
  assert (Hv : ∃ v, fields (map_blocks (get_or_empty text_blocks)) !! f = Some (VStr v)).
  { destruct (Hk (conf_key f)) as [H|[[H _]|(g & Hg & Heq & Hp)]].
    - unfold conf_key. by rewrite Hc.
    - exfalso. by apply (conf_key_not_document_type f).
    - exfalso. by apply (conf_key_not_field f).
    - apply conf_key_inj in Heq as <-. destruct Hp as (v & _ & _ & Hv & _). by exists v. }
  destruct Hv as [v Hv].
  destruct (map_blocks_grounded _ f v Hf Hv) as (c' & b & _ & _ & Hc' & Hin & _).
  unfold conf_key in Hc'. rewrite Hc in Hc'. injection Hc' as <-.
  split; [done | by apply (allowed_confidences_range f)].
Qed.

Lemma X4_witness_site_location :
  0.95%Q ∈ allowed_confidences "site_address" ∧ (0.4 <= 0.95)%Q ∧ (0.95 <= 0.95)%Q.
Proof.
  apply (X4_stored_confidences (Present site_location_blocks) "site_address" 0.95%Q).
  - apply list_elem_of_further, list_elem_of_here.
  - vm_compute. reflexivity.
Defined.

(** X5. A value that [map_fields] finds with a regular expression comes
    from the block its evidence cites: the application reference is the
    upper-cased group 1 of the reference pattern in that block; the postcode
    is the postcode found in that block, and the block is not penalized as
    council or PO-box text; e-mail and phone are matched in that block, and
    the block is not council contact text. *)
Theorem X5_matched_values_come_from_the_cited_block (text_blocks : entry (list block))
    (f v : string) :
  let st := map_fields text_blocks in
  f ∈ FIELD_NAMES →
  fields st !! f = Some (VStr v) →
  ∃ b c dtype,
    b ∈ get_or_empty text_blocks
    ∧ evidence st !! f = Some [evidence_of b c dtype]
    ∧ regex_value f v b.
Proof.
  intros st Hf Hv. subst st. unfold map_fields in *.
  destruct (map_blocks_grounded _ f v Hf Hv) as (c & b & Hb & He & _ & _ & Hr).
  by exists b, c, (classify_document (get_or_empty text_blocks)).
Qed.

Lemma X5_witness_site_location :
  let st := map_fields (Present site_location_blocks) in
  ∃ b c dtype,
    b ∈ site_location_blocks
    ∧ evidence st !! "postcode" = Some [evidence_of b c dtype]
    ∧ regex_value "postcode" "B12 3CD" b.
Proof.
  apply (X5_matched_values_come_from_the_cited_block (Present site_location_blocks)
           "postcode" "B12 3CD").
  - apply (bool_decide_unpack _). by vm_compute.
  - vm_compute. reflexivity.
Defined.

(** ** Which strategy decides a field *)

Lemma populate_recorded st dtype f v c b snippet :
  wf st → f ∈ FIELD_NAMES → fields st !! f = None →
  _norm snippet = _norm (block_text b) →
  recorded (populate f v c b snippet dtype st) dtype f v c b.
Proof.
  intros Hwf Hf Hnone Hsn.
  assert (Hev : evidence st !! f = None).
  { destruct (evidence st !! f) eqn:E; [|done].
    destruct (wf_evidence st Hwf f) as [_ [? ?]]; [by rewrite E | congruence]. }
  unfold recorded. rewrite populate_fields, populate_evidence, Hev.
  rewrite lookup_insert_ne by apply not_eq_sym, conf_key_ne.
  rewrite !lookup_insert_eq. unfold evidence_of. by rewrite Hsn.
Qed.

Lemma recorded_preserved st st' dtype f v c b :
  wf st → populates FIELD_NAMES st st' →
  recorded st dtype f v c b → recorded st' dtype f v c b.
Proof.
  intros Hwf Hpop (Hv & Hc & He). split_and!.
  - by eapply populates_preserves.
  - by eapply populates_preserves.
  - clear Hc. induction Hpop as [|st st' g v' c' b' snippet dtype' Hpop IH Hg Hnone]; [done|].
    rewrite populate_evidence, lookup_insert_ne; [by apply IH|].
    intros ->. assert (fields st' !! f = Some (VStr v)); [|congruence].
    by eapply populates_preserves.
Qed.

Lemma unrecorded_frame F st st' f :
  (∀ g, g ∈ F → g ∈ FIELD_NAMES) → f ∈ FIELD_NAMES → f ∉ F →
  populates F st st' → unrecorded st f → unrecorded st' f.
Proof.
  intros Hsub Hf HfF Hpop (Hv & Hc & He). split_and!.
  - rewrite (populates_frame_fields F st st' f); [done..|].
    intros g Hg ->. apply (conf_key_not_field g); [by apply Hsub | done].
  - rewrite (populates_frame_fields F st st' (conf_key f)); [done..| |].
    + intros Hin. apply (conf_key_not_field f); [done | by apply Hsub].
    + by intros g Hg <-%conf_key_inj.
  - by rewrite (populates_frame_evidence F st st' f).
Qed.

Lemma initial_unrecorded (dtype f : string) :
  f ∈ FIELD_NAMES → unrecorded (assign "document_type" (VStr dtype) empty_state) f.
Proof.
  intros Hf. unfold unrecorded. cbn [assign fields evidence empty_state].
  rewrite !lookup_insert_ne, !lookup_empty; [done|..].
  - intros Heq. by apply (conf_key_not_document_type f).
  - intros Heq. by apply (field_not_document_type f).
Qed.

(** *** The value after a label is never empty *)

Lemma all_space_app (a b : string) :
  all_space (a +:+ b) = all_space a && all_space b.
Proof.
  induction a as [|c a IH]; [done|].
  change (Char.is_space c && all_space (a +:+ b)
          = Char.is_space c && all_space a && all_space b).
  by rewrite IH, andb_assoc.
Qed.

Lemma normal_not_all_space (s : string) :
  is_normal s = true → s ≠ "" → all_space s = false.
Proof.
  destruct s as [|c s]; [done|]. cbn [is_normal all_space].
  by destruct (Char.is_space c).
Qed.

Lemma truthy_nonempty (s : string) : Str.truthy s = true ↔ s ≠ "".
Proof. by destruct s. Qed.

Lemma join_head (sep x : string) (xs : list string) :
  ∃ r, Str.join sep (x :: xs) = x +:+ r.
Proof.
  destruct xs as [|y ys]; [|by eexists].
  exists "". change (x = x +:+ ""). induction x as [|c x IH]; [done|].
  change (String c x = String c (x +:+ "")). congruence.
Qed.

Lemma label_next_step_normal bs i acc j :
  Forall (λ x, is_normal x = true ∧ x ≠ "") (fst acc) →
  Forall (λ x, is_normal x = true ∧ x ≠ "") (fst (label_next_step bs i acc j)).
Proof.
  destruct acc as [nxt stopped]. unfold label_next_step. cbn [fst].
  destruct stopped; [done|]. cbn [fst]. intros Hall.
  destruct (bs !! (i + j)) as [nb|]; [|done].
  destruct (Str.truthy (_norm (block_text nb))) eqn:Et; [|done].
  apply Forall_app. split; [done|]. apply Forall_singleton.
  split; [apply _norm_is_normal | by apply truthy_nonempty].
Qed.

Lemma label_next_normal bs i :
  Forall (λ x, is_normal x = true ∧ x ≠ "")
    (fst (foldl (label_next_step bs i) ([], false) [1; 2; 3])).
Proof.
  cbn [foldl]. do 3 apply label_next_step_normal. apply Forall_nil_2.
Qed.

Lemma extract_by_label_truthy bs pats v b :
  extract_by_label bs pats = Some (v, b) → Str.truthy v = true.
Proof.
  unfold extract_by_label. intros (i & x & Hl & Hf)%find_map_elem.
  cbv zeta in Hf. destruct (existsb _ _); [|done].
  pose proof (label_next_normal bs i) as Hn.
  assert (Hnext : match fst (foldl (label_next_step bs i) ([], false) [1; 2; 3]) with
                  | [] => None
                  | n :: ns => Some (_norm (Str.join " " (n :: ns)), x)
                  end = Some (v, b) → Str.truthy v = true).
  { destruct (fst _) as [|n ns]; [done|]. intros [= <- <-].
    apply Forall_cons in Hn as [[Hnorm Hne] _].
    apply truthy_nonempty. intros Hempty. apply _norm_empty_iff in Hempty.
    destruct (join_head " " n ns) as [r Hr].
    assert (Happ : all_space (n +:+ r) = true) by (rewrite <- Hr; exact Hempty).
    rewrite all_space_app in Happ. apply andb_true_iff in Happ as [Hempty' _].
    clear Hempty. rename Hempty' into Hempty.
    by rewrite (normal_not_all_space n) in Hempty. }
  destruct (Re.split_once Pat.COLON _) as [[? w]|]; [|exact (Hnext Hf)].
  destruct (Str.truthy (_norm w)) eqn:Et; [|exact (Hnext Hf)].
  by injection Hf as <- <-.
Qed.

(** *** What each phase does to a field that is still unrecorded *)

Lemma map_site_address_decides bs dtype st :
  unrecorded st "site_address" →
  map_site_address bs dtype st
  = match pick_site_address bs with
    | Some (addr, src, conf) =>
        populate "site_address" addr conf src (block_text src) dtype st
    | None => st
    end.
Proof.
  intros [Hnone _]. unfold map_site_address.
  rewrite (proj2 (in_fields_false _ _) Hnone). cbn [negb].
  destruct (pick_site_address bs) as [[[addr src] conf]|] eqn:E; [|done].
  apply pick_site_address_source in E as (_ & _ & ->). done.
Qed.

Lemma map_label_decides bs dtype st f pats :
  unrecorded st f →
  map_label bs dtype st (f, pats)
  = match extract_by_label bs pats with
    | Some (val, src) => populate f val 0.7%Q src (block_text src) dtype st
    | None => st
    end.
Proof.
  intros [Hnone _]. unfold map_label.
  rewrite (proj2 (in_fields_false _ _) Hnone). cbn [negb].
  destruct (extract_by_label bs pats) as [[val src]|] eqn:E; [|done].
  apply extract_by_label_truthy in E as ->. done.
Qed.

Lemma pick_proposed_use_truthy bs v b c :
  pick_proposed_use bs = Some (v, b, c) → Str.truthy v = true.
Proof.
  unfold pick_proposed_use. intros (i & x & Hl & Hf)%find_map_elem.
  cbv zeta in Hf. destruct (Str.truthy (_norm (block_text x))) eqn:Et; [|done].
  cbn [negb orb] in Hf. destruct (_is_noise _); [done|]. destruct (_ && _); [|done].
  by injection Hf as <- <- <-.
Qed.

Lemma map_proposed_use_decides bs dtype st :
  wf st → unrecorded st "proposed_use" →
  map_proposed_use bs dtype st
  = match prior_approval_hit bs with
    | Some (prop_text, b, t) => populate "proposed_use" prop_text 0.9%Q b t dtype st
    | None =>
        match pick_proposed_use bs with
        | Some (prop, src, conf) =>
            populate "proposed_use" prop conf src (block_text src) dtype st
        | None => st
        end
    end.
Proof.
  intros Hwf [Hnone _]. unfold map_proposed_use.
  rewrite (proj2 (in_fields_false _ _) Hnone). cbn [negb].
  destruct (prior_approval_hit bs) as [[[prop_text b] t]|].
  - unfold in_fields, assign, add_evidence. cbn [fields].
    rewrite lookup_insert_ne, lookup_insert_eq by done. done.
  - rewrite (proj2 (in_fields_false _ _) Hnone). cbn [negb].
    destruct (pick_proposed_use bs) as [[[prop src] conf]|] eqn:E; [|done].
    apply pick_proposed_use_truthy in E as ->. done.
Qed.

Lemma label_names_are_fields (g : string) :
  g ∈ fst <$> Pat.LABEL_PATTERNS → g ∈ FIELD_NAMES.
Proof. by apply names_included. Qed.

Lemma foldl_map_label_populates bs dtype st (l : list (string * list Re.regex)) :
  populates (fst <$> l) st (foldl (map_label bs dtype) st l).
Proof.
  apply foldl_populates. intros st' [field pats] Hin.
  apply map_label_populates. by apply (list_elem_of_fmap_2 fst) in Hin.
Qed.

Lemma map_labels_field bs dtype st pre f pats post :
  Pat.LABEL_PATTERNS = pre ++ (f, pats) :: post →
  wf st → unrecorded st f →
  match extract_by_label bs pats with
  | Some (val, src) => recorded (map_labels bs dtype st) dtype f val 0.7%Q src
  | None => unrecorded (map_labels bs dtype st) f
  end.
Proof.
  intros Heq Hwf Hun.
  assert (Hnd : NoDup (fst <$> Pat.LABEL_PATTERNS))
    by (apply (bool_decide_unpack _); by vm_compute).
  pose proof label_names_are_fields as Hsub.
  unfold map_labels. rewrite Heq in Hnd, Hsub |- *. clear Heq.
  rewrite fmap_app, fmap_cons in Hnd, Hsub. cbn [fst] in Hnd, Hsub.
  apply NoDup_app in Hnd as (_ & Hpre & [Hpost _]%NoDup_cons).
  assert (Hf : f ∈ FIELD_NAMES).
  { apply Hsub, elem_of_app. right. apply list_elem_of_here. }
  assert (Hsub_pre : ∀ g, g ∈ fst <$> pre → g ∈ FIELD_NAMES).
  { intros g Hg. apply Hsub, elem_of_app. by left. }
  assert (Hsub_post : ∀ g, g ∈ fst <$> post → g ∈ FIELD_NAMES).
  { intros g Hg. apply Hsub, elem_of_app. right. by apply list_elem_of_further. }
  rewrite foldl_app. cbn [foldl].
  pose proof (foldl_map_label_populates bs dtype st pre) as Hpop_pre.
  set (st_pre := foldl (map_label bs dtype) st pre) in *.
  assert (Hwf_pre : wf st_pre).
  { eapply populates_wf; [exact Hsub_pre|exact Hwf|exact Hpop_pre]. }
  assert (Hun_pre : unrecorded st_pre f).
  { eapply unrecorded_frame; [exact Hsub_pre|done| |exact Hpop_pre|done].
    intros Hin. apply (Hpre f Hin), list_elem_of_here. }
  rewrite (map_label_decides bs dtype st_pre f pats Hun_pre).
  destruct (extract_by_label bs pats) as [[val src]|].
  - eapply recorded_preserved.
    + apply wf_populate; [done..|apply Hun_pre].
    + eapply populates_mono; [exact Hsub_post|apply foldl_map_label_populates].
    + apply populate_recorded; [done..|apply Hun_pre|done].
  - eapply unrecorded_frame;
      [exact Hsub_post|done|done|apply foldl_map_label_populates|done].
Qed.

Lemma tail_populates bs dtype st :
  populates ["postcode"; "applicant_email"; "applicant_phone"] st
    (map_contacts bs dtype (map_postcode bs dtype st)).
Proof.
  last_phase map_contacts_populates. only_phase map_postcode_populates.
Qed.

Lemma tail_keeps_recorded bs dtype st f v c b :
  wf st → recorded st dtype f v c b →
  recorded (map_contacts bs dtype (map_postcode bs dtype st)) dtype f v c b.
Proof.
  intros Hwf Hrec. eapply recorded_preserved; [done| |done].
  eapply populates_mono; [|apply tail_populates]. by apply names_included.
Qed.

Lemma tail_keeps_unrecorded bs dtype st f :
  f ∈ FIELD_NAMES → f ∉ ["postcode"; "applicant_email"; "applicant_phone"] →
  unrecorded st f →
  unrecorded (map_contacts bs dtype (map_postcode bs dtype st)) f.
Proof.
  intros Hf Hout Hun.
  eapply unrecorded_frame; [|done|done|apply tail_populates|done].
  by apply names_included.
Qed.

(** From the labelled fields to the end of the run. *)
Lemma labels_to_end bs dtype st pre f pats post :
  Pat.LABEL_PATTERNS = pre ++ (f, pats) :: post →
  wf st → unrecorded st f →
  let final := map_contacts bs dtype (map_postcode bs dtype (map_labels bs dtype st)) in
  match extract_by_label bs pats with
  | Some (val, src) => recorded final dtype f val 0.7%Q src
  | None => unrecorded final f
  end.
Proof.
  intros Heq Hwf Hun final. subst final.
  pose proof (map_labels_field bs dtype st pre f pats post Heq Hwf Hun) as H.
  assert (Hlab : f ∈ fst <$> Pat.LABEL_PATTERNS).
  { rewrite Heq, fmap_app, elem_of_app. right. apply list_elem_of_here. }
  assert (Hwf' : wf (map_labels bs dtype st)).
  { eapply populates_wf; [|exact Hwf|apply map_labels_populates].
    apply label_names_are_fields. }
  destruct (extract_by_label bs pats) as [[val src]|].
  - by apply tail_keeps_recorded.
  - apply tail_keeps_unrecorded; [by apply label_names_are_fields| |done].
    revert Hlab. clear. intros Hlab Hin.
    assert (Hdisj : Forall (λ g, g ∉ ["postcode"; "applicant_email"; "applicant_phone"])
                      (fst <$> Pat.LABEL_PATTERNS))
      by (apply (bool_decide_unpack _); by vm_compute).
    by apply (proj1 (Forall_forall _ _) Hdisj f).
Qed.

(** The state in which [map_blocks] reaches each phase. *)
Lemma before_site_address bs :
  let st1 := map_application_ref bs (classify_document bs)
               (assign "document_type" (VStr (classify_document bs)) empty_state) in
  wf st1 ∧ ∀ f, f ∈ FIELD_NAMES → f ≠ "application_ref" → unrecorded st1 f.
Proof.
  intros st1.
  assert (Hpop : populates ["application_ref"]
            (assign "document_type" (VStr (classify_document bs)) empty_state) st1)
    by (by apply map_application_ref_populates).
  split.
  - eapply populates_wf; [|apply initial_state_wf|exact Hpop]. by apply names_included.
  - intros f Hf Hne. eapply unrecorded_frame; [|done| |exact Hpop|].
    + by apply names_included.
    + by intros ->%list_elem_of_singleton.
    + by apply initial_unrecorded.
Qed.

Lemma before_proposed_use bs :
  let st2 := map_site_address bs (classify_document bs)
               (map_application_ref bs (classify_document bs)
                  (assign "document_type" (VStr (classify_document bs)) empty_state)) in
  wf st2
  ∧ ∀ f, f ∈ FIELD_NAMES → f ≠ "application_ref" → f ≠ "site_address" → unrecorded st2 f.
Proof.
  intros st2. destruct (before_site_address bs) as [Hwf1 Hun1].
  pose proof (map_site_address_populates bs (classify_document bs)
                (map_application_ref bs (classify_document bs)
                   (assign "document_type" (VStr (classify_document bs)) empty_state)))
    as Hpop.
  split.
  - eapply populates_wf; [|exact Hwf1|exact Hpop]. by apply names_included.
  - intros f Hf Hne1 Hne2. eapply unrecorded_frame; [|done| |exact Hpop|by apply Hun1].
    + by apply names_included.
    + by intros ->%list_elem_of_singleton.
Qed.

Lemma before_labels bs :
  let st3 := map_proposed_use bs (classify_document bs)
               (map_site_address bs (classify_document bs)
                  (map_application_ref bs (classify_document bs)
                     (assign "document_type" (VStr (classify_document bs)) empty_state))) in
  wf st3
  ∧ ∀ f, f ∈ FIELD_NAMES → f ∉ ["application_ref"; "site_address"; "proposed_use"] →
         unrecorded st3 f.
Proof.
  intros st3. destruct (before_proposed_use bs) as [Hwf2 Hun2].
  pose proof (map_proposed_use_populates bs (classify_document bs)
                (map_site_address bs (classify_document bs)
                   (map_application_ref bs (classify_document bs)
                      (assign "document_type" (VStr (classify_document bs)) empty_state))))
    as Hpop.
  split.
  - eapply populates_wf; [|exact Hwf2|exact Hpop]. by apply names_included.
  - intros f Hf Hout. eapply unrecorded_frame; [|done| |exact Hpop|].
    + by apply names_included.
    + intros ->%list_elem_of_singleton. apply Hout.
      apply list_elem_of_further, list_elem_of_further, list_elem_of_here.
    + apply Hun2; [done|intros ->; apply Hout..].
      * apply list_elem_of_here.
      * apply list_elem_of_further, list_elem_of_here.
Qed.

(** X6. The site address of [map_fields] is the result of
    [pick_site_address] whenever it returns one; otherwise it is the value
    that [extract_by_label] finds after a site-address label, with
    confidence 0.7; otherwise the field stays without value, confidence and
    evidence. In each case the evidence cites the strategy's source
    block, and no later phase changes the field. *)
Theorem X6_site_address_strategies (text_blocks : entry (list block)) :
  let bs := get_or_empty text_blocks in
  let st := map_fields text_blocks in
  let dtype := classify_document bs in
  match pick_site_address bs with
  | Some (addr, src, conf) => recorded st dtype "site_address" addr conf src
  | None =>
      match extract_by_label bs (label_patterns "site_address") with
      | Some (val, src) => recorded st dtype "site_address" val 0.7%Q src
      | None => unrecorded st "site_address"
      end
  end.
Proof.
  intros bs st dtype. subst st. unfold map_fields. fold bs. unfold map_blocks. fold dtype.
  destruct (before_site_address bs) as [Hwf1 Hun1]. fold dtype in Hwf1, Hun1.
  set (st1 := map_application_ref bs dtype _) in *.
  assert (Hun : unrecorded st1 "site_address").
  { apply Hun1; [|done]. apply list_elem_of_further, list_elem_of_here. }
  assert (Hf : "site_address" ∈ FIELD_NAMES)
    by apply list_elem_of_further, list_elem_of_here.
  pose proof (map_site_address_decides bs dtype st1 Hun) as Heq.
  destruct (pick_site_address bs) as [[[addr src] conf]|].
  - rewrite Heq. eapply recorded_preserved.
    + apply wf_populate; [done..|apply Hun].
    + last_phase map_contacts_populates.
      last_phase map_postcode_populates.
      last_phase map_labels_populates.
      only_phase map_proposed_use_populates.
    + apply populate_recorded; [done..|apply Hun|done].
  - rewrite Heq.
    pose proof (map_proposed_use_populates bs dtype st1) as Hpop.
    apply (labels_to_end bs dtype _ [] "site_address" (label_patterns "site_address")
             (tail Pat.LABEL_PATTERNS) eq_refl).
    + eapply populates_wf; [|exact Hwf1|exact Hpop]. by apply names_included.
    + eapply unrecorded_frame; [|done| |exact Hpop|done]; [by apply names_included|].
      by intros ?%list_elem_of_singleton.
Qed.

(** X7. The proposed use of [map_fields] is, in this order: the text after
    the first colon or [for] of the first Prior Approval declaration among
    the first 100 blocks, with confidence 0.9; else the result of
    [pick_proposed_use]; else the value that [extract_by_label] finds after
    a proposed-use label, with confidence 0.7; else the field stays without
    value, confidence and evidence. The evidence cites the block the
    value was taken from. *)
Theorem X7_proposed_use_strategies (text_blocks : entry (list block)) :
  let bs := get_or_empty text_blocks in
  let st := map_fields text_blocks in
  let dtype := classify_document bs in
  match prior_approval_hit bs with
  | Some (prop_text, b, _) => recorded st dtype "proposed_use" prop_text 0.9%Q b
  | None =>
      match pick_proposed_use bs with
      | Some (prop, src, conf) => recorded st dtype "proposed_use" prop conf src
      | None =>
          match extract_by_label bs (label_patterns "proposed_use") with
          | Some (val, src) => recorded st dtype "proposed_use" val 0.7%Q src
          | None => unrecorded st "proposed_use"
          end
      end
  end.
Proof.
  intros bs st dtype. subst st. unfold map_fields. fold bs. unfold map_blocks. fold dtype.
  destruct (before_proposed_use bs) as [Hwf2 Hun2]. fold dtype in Hwf2, Hun2.
  set (st2 := map_site_address bs dtype _) in *.
  assert (Hf : "proposed_use" ∈ FIELD_NAMES)
    by apply list_elem_of_further, list_elem_of_further, list_elem_of_here.
  assert (Hun : unrecorded st2 "proposed_use") by (by apply Hun2).
  assert (Hrest : ∀ st', populates FIELD_NAMES st'
            (map_contacts bs dtype (map_postcode bs dtype (map_labels bs dtype st')))).
  { intros st'. last_phase map_contacts_populates.
    last_phase map_postcode_populates. only_phase map_labels_populates. }
  rewrite (map_proposed_use_decides bs dtype st2 Hwf2 Hun).
  destruct (prior_approval_hit bs) as [[[prop_text b] t]|] eqn:Eh.
  - apply prior_approval_source in Eh as [_ ->].
    eapply recorded_preserved; [|apply Hrest|].
    + apply wf_populate; [done..|apply Hun].
    + apply populate_recorded; [done..|apply Hun|apply _norm_idempotent].
  - destruct (pick_proposed_use bs) as [[[prop src] conf]|].
    + eapply recorded_preserved; [|apply Hrest|].
      * apply wf_populate; [done..|apply Hun].
      * apply populate_recorded; [done..|apply Hun|done].
    + by apply (labels_to_end bs dtype st2 (take 4 Pat.LABEL_PATTERNS) "proposed_use"
                  (label_patterns "proposed_use") [] eq_refl).
Qed.

(** X8. The fields that only a label can fill, [proposal_description],
    [applicant_name] and [agent_name], hold exactly what [extract_by_label]
    returns for their label patterns on the whole block list: its value
    with confidence 0.7 and evidence citing the label's block when it
    returns one, nothing otherwise. *)
Theorem X8_labelled_fields (text_blocks : entry (list block)) :
  let bs := get_or_empty text_blocks in
  let st := map_fields text_blocks in
  Forall
    (λ f, match extract_by_label bs (label_patterns f) with
          | Some (val, src) => recorded st (classify_document bs) f val 0.7%Q src
          | None => unrecorded st f
          end)
    ["proposal_description"; "applicant_name"; "agent_name"].
Proof.
  intros bs st. subst st. unfold map_fields. fold bs. unfold map_blocks.
  destruct (before_labels bs) as [Hwf3 Hun3].
  set (st3 := map_proposed_use bs _ _) in *.
  repeat apply Forall_cons_2; [| | |apply Forall_nil_2].
  - apply (labels_to_end bs _ st3 (take 1 Pat.LABEL_PATTERNS) "proposal_description"
             (label_patterns "proposal_description") (drop 2 Pat.LABEL_PATTERNS) eq_refl);
      [done|]. apply Hun3; apply (bool_decide_unpack _); by vm_compute.
  - apply (labels_to_end bs _ st3 (take 2 Pat.LABEL_PATTERNS) "applicant_name"
             (label_patterns "applicant_name") (drop 3 Pat.LABEL_PATTERNS) eq_refl);
      [done|]. apply Hun3; apply (bool_decide_unpack _); by vm_compute.
  - apply (labels_to_end bs _ st3 (take 3 Pat.LABEL_PATTERNS) "agent_name"
             (label_patterns "agent_name") (drop 4 Pat.LABEL_PATTERNS) eq_refl);
      [done|]. apply Hun3; apply (bool_decide_unpack _); by vm_compute.
Qed.

(** ** Fields decided by the first matching block *)

Lemma first_match_find_map {A B : Type} (P : block → option A) (g : block → A → B)
    (n : nat) (bs : list block) (i : nat) (b : block) (a : A) :
  first_match P n bs i b a →
  find_map (λ (_ : nat) x, g x <$> P x) (take n bs) = Some (g b a).
Proof.
  intros (Hi & Hb & HP & Hfirst). apply find_map_from_Some. exists i, b. split_and!.
  - by apply lookup_take_Some.
  - by rewrite HP.
  - intros j bj Hj [Hbj _]%lookup_take_Some. by rewrite (Hfirst j bj).
Qed.

Lemma no_match_find_map {A B : Type} (P : block → option A) (g : block → A → B)
    (n : nat) (bs : list block) :
  no_match P n bs →
  find_map (λ (_ : nat) x, g x <$> P x) (take n bs) = None.
Proof.
  intros Hno. apply find_map_from_None. intros j bj [Hbj Hj]%lookup_take_Some.
  by rewrite (Hno j bj).
Qed.

Lemma application_ref_of_Some (b : block) (ref : string) :
  application_ref_of b = Some ref
  ↔ match Re.search true Pat.APPREF_RE (block_text b) with
    | Some m => Some (b, block_text b, Str.upper (default "" (Re.group 1 m)))
    | None => None
    end = Some (b, block_text b, ref).
Proof.
  unfold application_ref_of. destruct (Re.search _ _ _); cbn [fmap option_fmap option_map].
  - split; [by intros [= ->] | by intros [= ->]].
  - done.
Qed.

Lemma application_ref_of_None (b : block) :
  application_ref_of b = None
  ↔ match Re.search true Pat.APPREF_RE (block_text b) with
    | Some m => Some (b, block_text b, Str.upper (default "" (Re.group 1 m)))
    | None => None
    end = None.
Proof. unfold application_ref_of. by destruct (Re.search _ _ _). Qed.

Lemma map_application_ref_first bs dtype st i b ref :
  first_match application_ref_of 400 bs i b ref →
  map_application_ref bs dtype st
  = populate "application_ref" ref (if Str.contains "PP-" ref then 0.9%Q else 0.8%Q)
      b (block_text b) dtype st.
Proof.
  intros (Hi & Hb & HP & Hfirst). unfold map_application_ref.
  match goal with |- context [find_map ?f ?l] =>
    assert (Hhit : find_map f l = Some (b, block_text b, ref)) end.
  { apply find_map_from_Some. exists i, b. split_and!.
    - by apply lookup_take_Some.
    - by apply application_ref_of_Some.
    - intros j bj Hj [Hbj _]%lookup_take_Some.
      by apply application_ref_of_None, (Hfirst j). }
  rewrite Hhit. by destruct (Str.startswith ref "PP-").
Qed.

Lemma map_application_ref_none bs dtype st :
  no_match application_ref_of 400 bs → map_application_ref bs dtype st = st.
Proof.
  intros Hno. unfold map_application_ref.
  match goal with |- context [find_map ?f ?l] =>
    assert (Hhit : find_map f l = None) end.
  { apply find_map_from_None. intros j bj [Hbj Hj]%lookup_take_Some.
    by apply application_ref_of_None, (Hno j). }
  by rewrite Hhit.
Qed.

(** X9. The application reference of [map_fields] is read from the first
    block, among the first 400, in which the reference pattern is found: the
    upper-cased match, with confidence 0.9 if it holds [PP-] and 0.8
    otherwise, and evidence citing that block. No later block and no
    later phase changes it. Without such a block the field stays without
    value, confidence and evidence. *)
Theorem X9_application_ref_from_first_match (text_blocks : entry (list block)) :
  let bs := get_or_empty text_blocks in
  let st := map_fields text_blocks in
  (∀ i b ref,
     first_match application_ref_of 400 bs i b ref →
     recorded st (classify_document bs) "application_ref" ref
       (if Str.contains "PP-" ref then 0.9%Q else 0.8%Q) b)
  ∧ (no_match application_ref_of 400 bs → unrecorded st "application_ref").
Proof.
  intros bs st. subst st. unfold map_fields. fold bs. unfold map_blocks.
  set (dtype := classify_document bs).
  set (st0 := assign "document_type" (VStr dtype) empty_state).
  assert (Hf : "application_ref" ∈ FIELD_NAMES) by apply list_elem_of_here.
  pose proof (initial_unrecorded dtype "application_ref" Hf) as Hun. fold st0 in Hun.
  assert (Hrest : ∀ st', populates
            ["site_address"; "proposed_use"; "proposal_description"; "applicant_name";
             "agent_name"; "postcode"; "applicant_email"; "applicant_phone"] st'
            (map_contacts bs dtype (map_postcode bs dtype (map_labels bs dtype
               (map_proposed_use bs dtype (map_site_address bs dtype st')))))).
  { intros st'. last_phase map_contacts_populates.
    last_phase map_postcode_populates.
    last_phase map_labels_populates.
    last_phase map_proposed_use_populates.
    only_phase map_site_address_populates. }
  split.
  - intros i b ref Hfirst. rewrite (map_application_ref_first bs dtype st0 i b ref Hfirst).
    eapply recorded_preserved.
    + apply wf_populate; [apply initial_state_wf|done|apply Hun].
    + eapply populates_mono; [|apply Hrest]. by apply names_included.
    + apply populate_recorded; [apply initial_state_wf|done|apply Hun|done].
  - intros Hno. rewrite (map_application_ref_none bs dtype st0 Hno).
    eapply unrecorded_frame; [|done| |apply Hrest|done].
    + by apply names_included.
    + apply (bool_decide_unpack _). by vm_compute.
Qed.

Lemma X9_witness_reference_block :
  recorded (map_fields (Present [raw_block "Ref PP-12345678"]))
    (classify_document [raw_block "Ref PP-12345678"]) "application_ref" "PP-12345678"
    0.9%Q (raw_block "Ref PP-12345678").
Proof.
  apply (proj1 (X9_application_ref_from_first_match (Present [raw_block "Ref PP-12345678"]))
           0 (raw_block "Ref PP-12345678") "PP-12345678").
  split; [lia|]. split; [reflexivity|]. split; [vm_compute; reflexivity|].
  intros j bj Hj. lia.
Defined.

(** *** The contact loop *)

Section FirstContact.

Variables (bs : list block) (dtype : string).
Variables (f other : string) (val_of : block → option string).
Hypothesis Hf : f ∈ FIELD_NAMES.
Hypothesis Hother : other ∈ FIELD_NAMES.
Hypothesis Hne : f ≠ other.
Hypothesis Hsome : ∀ st i b v,
  wf st → unrecorded st f → val_of b = Some v →
  recorded (map_contact bs dtype st i b) dtype f v (contact_confidence bs i) b.
Hypothesis Hnone : ∀ st i b,
  val_of b = None → populates [other] st (map_contact bs dtype st i b).

Lemma other_is_field (g : string) : g ∈ [other] → g ∈ FIELD_NAMES.
Proof. by intros ->%list_elem_of_singleton. Qed.

Lemma contact_names_are_fields (g : string) :
  g ∈ ["applicant_email"; "applicant_phone"] → g ∈ FIELD_NAMES.
Proof. by apply names_included. Qed.

Lemma contacts_first_from (l : list block) (start : nat) (st : mapper_state) :
  wf st → unrecorded st f →
  (∀ k b v,
     l !! k = Some b → val_of b = Some v →
     (∀ j bj, j < k → l !! j = Some bj → val_of bj = None) →
     recorded (fold_from (map_contact bs dtype) start l st) dtype f v
       (contact_confidence bs (start + k)) b)
  ∧ ((∀ k b, l !! k = Some b → val_of b = None) →
     unrecorded (fold_from (map_contact bs dtype) start l st) f).
Proof.
  revert start st. induction l as [|x l IH]; intros start st Hwf Hun.
  { split; [|done]. intros k b v Hl. by rewrite lookup_nil in Hl. }
  cbn [fold_from]. set (st' := map_contact bs dtype st start x).
  assert (Hwf' : wf st').
  { eapply populates_wf; [exact contact_names_are_fields|exact Hwf|].
    apply map_contact_populates. }
  assert (Hskip : val_of x = None → unrecorded st' f).
  { intros Hx. eapply unrecorded_frame; [exact other_is_field|exact Hf| |by apply Hnone|done].
    by intros ?%list_elem_of_singleton. }
  split.
  - intros k b v Hl Hv Hfirst. destruct k as [|k].
    + injection Hl as ->. rewrite Nat.add_0_r.
      eapply recorded_preserved; [exact Hwf'| |by apply Hsome].
      eapply populates_mono; [exact contact_names_are_fields|].
      apply fold_from_populates. intros. apply map_contact_populates.
    + rewrite <- Nat.add_succ_comm.
      apply (proj1 (IH (S start) st' Hwf' (Hskip (Hfirst 0 x (Nat.lt_0_succ _) eq_refl))));
        [done..|].
      intros j bj Hj Hbj. apply (Hfirst (S j)); [lia|done].
  - intros Hall.
    apply (proj2 (IH (S start) st' Hwf' (Hskip (Hall 0 x eq_refl)))).
    intros k b Hl. by apply (Hall (S k)).
Qed.

Lemma contacts_first (st : mapper_state) :
  wf st → unrecorded st f →
  (∀ i b v, first_match val_of 400 bs i b v →
     recorded (map_contacts bs dtype st) dtype f v (contact_confidence bs i) b)
  ∧ (no_match val_of 400 bs → unrecorded (map_contacts bs dtype st) f).
Proof.
  intros Hwf Hun.
  destruct (contacts_first_from (take 400 bs) 0 st Hwf Hun) as [H1 H2].
  split.
  - intros i b v (Hi & Hb & Hv & Hfirst). apply (H1 i b v); [|done|].
    + by apply lookup_take_Some.
    + intros j bj Hj [Hbj _]%lookup_take_Some. by apply (Hfirst j).
  - intros Hno. apply H2. intros k b [Hb Hk]%lookup_take_Some. by apply (Hno k).
Qed.

End FirstContact.

Lemma map_contact_email_some bs dtype st i b v :
  wf st → unrecorded st "applicant_email" → email_of b = Some v →
  recorded (map_contact bs dtype st i b) dtype "applicant_email" v
    (contact_confidence bs i) b.
Proof.
  intros Hwf Hun. pose proof Hun as [Hnone _]. unfold email_of, map_contact. cbv zeta.
  destruct (_is_council_contact (block_text b)); [done|].
  destruct (Re.search true Pat.EMAIL_RE (block_text b)) as [m|]; [|done].
  intros [= <-]. rewrite (proj2 (in_fields_false _ _) Hnone). cbn [negb].
  assert (Hf : "applicant_email" ∈ FIELD_NAMES)
    by (apply (bool_decide_unpack _); by vm_compute).
  assert (Hp : "applicant_phone" ∈ FIELD_NAMES)
    by (apply (bool_decide_unpack _); by vm_compute).
  pose (st1 := populate "applicant_email" (Re.m_text m) (contact_confidence bs i) b
                (block_text b) dtype st).
  change (add_evidence "applicant_email" b (block_text b) (contact_confidence bs i) dtype
            (assign "applicant_email_confidence" (VNum (contact_confidence bs i))
               (assign "applicant_email" (VStr (Re.m_text m)) st))) with st1.
  assert (Hwf1 : wf st1) by (by apply wf_populate).
  assert (Hrec : recorded st1 dtype "applicant_email" (Re.m_text m)
                   (contact_confidence bs i) b) by (by apply populate_recorded).
  destruct (negb (in_fields "applicant_phone" st1)) eqn:E; [|done].
  apply not_in_fields in E.
  destruct (Re.search false Pat.PHONE_RE (block_text b)) as [m'|]; [|done].
  destruct (_ && _); [|done].
  eapply recorded_preserved; [exact Hwf1| |exact Hrec].
  by apply (populates_one FIELD_NAMES st1 "applicant_phone").
Qed.

Lemma map_contact_email_none bs dtype st i b :
  email_of b = None → populates ["applicant_phone"] st (map_contact bs dtype st i b).
Proof.
  unfold email_of, map_contact. cbv zeta.
  destruct (_is_council_contact (block_text b)); [intros _; apply populates_refl|].
  destruct (Re.search true Pat.EMAIL_RE (block_text b)) as [m|]; [done|]. intros _.
  assert (Hst : (if negb (in_fields "applicant_email" st) then st else st) = st)
    by (by destruct (negb _)).
  rewrite Hst.
  destruct (negb (in_fields "applicant_phone" st)) eqn:E; [|apply populates_refl].
  apply not_in_fields in E.
  destruct (Re.search false Pat.PHONE_RE (block_text b)) as [m'|]; [|apply populates_refl].
  destruct (_ && _); [|apply populates_refl].
  apply (populates_one _ st "applicant_phone"); [apply list_elem_of_here|done].
Qed.

(** The e-mail half of the loop body. *)
Lemma map_contact_email_part bs dtype st i b :
  populates ["applicant_email"] st
    (if negb (in_fields "applicant_email" st) then
       match Re.search true Pat.EMAIL_RE (block_text b) with
       | Some m =>
           add_evidence "applicant_email" b (block_text b) (contact_confidence bs i) dtype
             (assign "applicant_email_confidence" (VNum (contact_confidence bs i))
                (assign "applicant_email" (VStr (Re.m_text m)) st))
       | None => st
       end
     else st).
Proof.
  destruct (negb (in_fields "applicant_email" st)) eqn:E; [|apply populates_refl].
  apply not_in_fields in E.
  destruct (Re.search true Pat.EMAIL_RE (block_text b)) as [m|]; [|apply populates_refl].
  apply (populates_one _ st "applicant_email"); [apply list_elem_of_here|done].
Qed.

Lemma map_contact_phone_some bs dtype st i b v :
  wf st → unrecorded st "applicant_phone" → phone_of b = Some v →
  recorded (map_contact bs dtype st i b) dtype "applicant_phone" v
    (contact_confidence bs i) b.
Proof.
  intros Hwf Hun. unfold phone_of, map_contact. cbv zeta.
  destruct (_is_council_contact (block_text b)); [done|].
  pose proof (map_contact_email_part bs dtype st i b) as Hpop.
  set (st1 := if negb (in_fields "applicant_email" st) then _ else _) in *.
  assert (Hsub : ∀ g, g ∈ ["applicant_email"] → g ∈ FIELD_NAMES)
    by (by apply names_included).
  assert (Hp : "applicant_phone" ∈ FIELD_NAMES)
    by (apply (bool_decide_unpack _); by vm_compute).
  assert (Hwf1 : wf st1) by (by eapply populates_wf).
  assert (Hun1 : unrecorded st1 "applicant_phone").
  { eapply unrecorded_frame; [exact Hsub|done| |exact Hpop|done].
    by intros ?%list_elem_of_singleton. }
  destruct Hun1 as [Hnone1 Hrest1].
  rewrite (proj2 (in_fields_false _ _) Hnone1). cbn [negb].
  destruct (Re.search false Pat.PHONE_RE (block_text b)) as [m|]; [|done].
  destruct (_ && _); [|done]. intros [= <-].
  by apply populate_recorded.
Qed.

Lemma map_contact_phone_none bs dtype st i b :
  phone_of b = None → populates ["applicant_email"] st (map_contact bs dtype st i b).
Proof.
  unfold phone_of, map_contact. cbv zeta.
  destruct (_is_council_contact (block_text b)); [intros _; apply populates_refl|].
  pose proof (map_contact_email_part bs dtype st i b) as Hpop.
  set (st1 := if negb (in_fields "applicant_email" st) then _ else _) in *.
  destruct (negb (in_fields "applicant_phone" st1)); [|done].
  destruct (Re.search false Pat.PHONE_RE (block_text b)) as [m|]; [|done].
  by destruct (_ && _).
Qed.

Lemma before_contacts bs :
  let st5 := map_postcode bs (classify_document bs)
               (map_labels bs (classify_document bs)
                  (map_proposed_use bs (classify_document bs)
                     (map_site_address bs (classify_document bs)
                        (map_application_ref bs (classify_document bs)
                           (assign "document_type" (VStr (classify_document bs))
                              empty_state))))) in
  wf st5 ∧ unrecorded st5 "applicant_email" ∧ unrecorded st5 "applicant_phone".
Proof.
  intros st5.
  assert (Hpop : populates
            ["application_ref"; "site_address"; "proposed_use"; "proposal_description";
             "applicant_name"; "agent_name"; "postcode"]
            (assign "document_type" (VStr (classify_document bs)) empty_state) st5).
  { subst st5. last_phase map_postcode_populates.
    last_phase map_labels_populates.
    last_phase map_proposed_use_populates.
    last_phase map_site_address_populates.
    eapply populates_mono; [|by apply map_application_ref_populates].
    by apply names_included. }
  split_and!.
  - eapply populates_wf; [|apply initial_state_wf|exact Hpop]. by apply names_included.
  - eapply unrecorded_frame; [|  | |exact Hpop|apply initial_unrecorded].
    + by apply names_included.
    + apply (bool_decide_unpack _). by vm_compute.
    + apply (bool_decide_unpack _). by vm_compute.
    + apply (bool_decide_unpack _). by vm_compute.
  - eapply unrecorded_frame; [|  | |exact Hpop|apply initial_unrecorded].
    + by apply names_included.
    + apply (bool_decide_unpack _). by vm_compute.
    + apply (bool_decide_unpack _). by vm_compute.
    + apply (bool_decide_unpack _). by vm_compute.
Qed.

(** X10. The applicant's e-mail address of [map_fields] is the match in the
    first block, among the first 400, that is not council contact text and
    holds an e-mail address; the phone number is read from the first such
    block holding a match that looks like a phone number and normalizes to
    at least 9 characters. Either comes with the confidence of its block's
    context and evidence citing that block, independently of the other;
    without such a block the field stays without value, confidence and
    evidence. *)
Theorem X10_contacts_from_first_match (text_blocks : entry (list block)) :
  let bs := get_or_empty text_blocks in
  let st := map_fields text_blocks in
  let dtype := classify_document bs in
  (∀ i b v, first_match email_of 400 bs i b v →
     recorded st dtype "applicant_email" v (contact_confidence bs i) b)
  ∧ (no_match email_of 400 bs → unrecorded st "applicant_email")
  ∧ (∀ i b v, first_match phone_of 400 bs i b v →
       recorded st dtype "applicant_phone" v (contact_confidence bs i) b)
  ∧ (no_match phone_of 400 bs → unrecorded st "applicant_phone").
Proof.
  intros bs st dtype. subst st. unfold map_fields. fold bs. unfold map_blocks. fold dtype.
  destruct (before_contacts bs) as (Hwf & Hune & Hunp). fold dtype in Hwf, Hune, Hunp.
  set (st5 := map_postcode bs dtype _) in *.
  assert (He : "applicant_email" ∈ FIELD_NAMES)
    by (apply (bool_decide_unpack _); by vm_compute).
  assert (Hp : "applicant_phone" ∈ FIELD_NAMES)
    by (apply (bool_decide_unpack _); by vm_compute).
  destruct (contacts_first bs dtype "applicant_email" "applicant_phone" email_of He Hp
              ltac:(done) (map_contact_email_some bs dtype)
              (map_contact_email_none bs dtype) st5 Hwf Hune) as [He1 He2].
  destruct (contacts_first bs dtype "applicant_phone" "applicant_email" phone_of Hp He
              ltac:(done) (map_contact_phone_some bs dtype)
              (map_contact_phone_none bs dtype) st5 Hwf Hunp) as [Hp1 Hp2].
  exact (conj He1 (conj He2 (conj Hp1 Hp2))).
Qed.

Lemma X10_witness_email_block :
  recorded (map_fields (Present [raw_block "jo@example.org"]))
    (classify_document [raw_block "jo@example.org"]) "applicant_email" "jo@example.org"
    (contact_confidence [raw_block "jo@example.org"] 0) (raw_block "jo@example.org").
Proof.
  apply (proj1 (X10_contacts_from_first_match (Present [raw_block "jo@example.org"]))
           0 (raw_block "jo@example.org") "jo@example.org").
  split; [lia|]. split; [reflexivity|]. split; [vm_compute; reflexivity|].
  intros j bj Hj. lia.
Defined.

(** ** The postcode that is selected *)

(** The candidates come in the order of their blocks. *)
Lemma by_index_snoc (acc : list candidate) (c : candidate) :
  by_index acc → Forall (λ a, snd a < snd c) acc → by_index (acc ++ [c]).
Proof.
  induction acc as [|a acc IH]; cbn [app by_index]; [done|].
  intros [Ha Hs] [Hac Hacc]%Forall_cons. split; [|by apply IH].
  apply Forall_app. split; [done | by apply Forall_singleton].
Qed.

Lemma collected_by_index (bs : list block) (l : list block) (start : nat)
    (acc : list candidate) :
  by_index acc →
  Forall (λ c, snd c < start) acc →
  by_index
    (fold_from (λ acc i b, match postcode_candidate bs i b with
                           | Some c => acc ++ [c]
                           | None => acc
                           end) start l acc).
Proof.
  revert start acc. induction l as [|x l IH]; intros start acc Hs Hlt; [done|].
  cbn [fold_from]. destruct (postcode_candidate bs start x) as [c|] eqn:E.
  - apply postcode_candidate_Some in E as (pc & _ & ->). apply IH.
    + by apply by_index_snoc.
    + apply Forall_app. split.
      * eapply Forall_impl; [exact Hlt|]. cbn. intros; lia.
      * apply Forall_singleton. cbn. lia.
  - apply IH; [done|]. eapply Forall_impl; [exact Hlt|]. cbn. intros; lia.
Qed.

Lemma postcode_candidates_by_index (bs : list block) :
  by_index (postcode_candidates bs).
Proof.
  unfold postcode_candidates, fold_enum. apply collected_by_index; [done|].
  apply Forall_nil_2.
Qed.

(** The stable sort puts first a candidate of the highest confidence, and
    of these the earliest. *)
Lemma sort_by_confidence_first (l : list candidate) :
  by_index l →
  l ≠ [] →
  ∃ h t, sort_by_confidence l = h :: t
         ∧ h ∈ l
         ∧ ∀ c, c ∈ l →
             (cand_conf c <= cand_conf h)%Q
             ∧ (snd c < snd h → (cand_conf c < cand_conf h)%Q).
Proof.
  induction l as [|x l IH]; [done|]. intros [Hx Hs] _.
  cbn [sort_by_confidence foldr]. fold (sort_by_confidence l).
  destruct l as [|y l'].
  - exists x, []. split_and!; [done | apply list_elem_of_here|].
    intros c Hc%list_elem_of_singleton. subst c. split; [apply Qle_refl | lia].
  - destruct (IH Hs) as (h & t & Hsort & Hin & Hmax); [done|]. rewrite Hsort.
    cbn [insert_desc].
    destruct (Qltb (cand_conf x) (cand_conf h)) eqn:E.
    + exists h, (insert_desc x t). split_and!; [done | by apply list_elem_of_further|].
      intros c [->|Hc]%elem_of_cons; [|by apply Hmax].
      apply Qltb_true in E. split; [by apply Qlt_le_weak | done].
    + exists x, (h :: t). split_and!; [done | apply list_elem_of_here|].
      apply Qltb_false in E.
      intros c [->|Hc]%elem_of_cons; [split; [apply Qle_refl | lia]|].
      split.
      * eapply Qle_trans; [by apply Hmax | done].
      * intros Hlt. pose proof (proj1 (Forall_forall _ _) Hx c Hc) as Hxc.
        cbn beta in Hxc. lia.
Qed.

Lemma map_postcode_decides bs dtype st :
  unrecorded st "postcode" →
  map_postcode bs dtype st
  = match sort_by_confidence (postcode_candidates bs) with
    | (pc, b, conf, _) :: _ =>
        if Qleb 0.3%Q conf then populate "postcode" pc conf b (block_text b) dtype st
        else st
    | [] => st
    end.
Proof.
  intros [Hnone _]. unfold map_postcode.
  rewrite (proj2 (in_fields_false _ _) Hnone). cbn [negb]. rewrite andb_true_r.
  destruct (postcode_candidates bs) as [|c l] eqn:E; [done|]. cbn [head is_some].
  by destruct (sort_by_confidence (c :: l)) as [|[[[pc b] conf] idx] ?].
Qed.

Lemma unpenalized_confident bs i t pc :
  postcode_penalized t pc = false → (0.3 <= postcode_confidence bs i t pc)%Q.
Proof.
  intros Hp. pose proof (postcode_confidence_unpenalized bs i t pc Hp) as Hc.
  repeat (apply elem_of_cons in Hc as [->|Hc]); [by vm_compute..|].
  by apply elem_of_nil in Hc.
Qed.

Lemma before_postcode bs :
  let st4 := map_labels bs (classify_document bs)
               (map_proposed_use bs (classify_document bs)
                  (map_site_address bs (classify_document bs)
                     (map_application_ref bs (classify_document bs)
                        (assign "document_type" (VStr (classify_document bs))
                           empty_state)))) in
  wf st4 ∧ unrecorded st4 "postcode".
Proof.
  intros st4.
  assert (Hpop : populates EARLY_FIELDS
            (assign "document_type" (VStr (classify_document bs)) empty_state) st4)
    by (by apply before_postcode_populates).
  split.
  - eapply populates_wf; [|apply initial_state_wf|exact Hpop]. by apply names_included.
  - eapply unrecorded_frame; [|  | |exact Hpop|apply initial_unrecorded].
    + by apply names_included.
    + apply (bool_decide_unpack _). by vm_compute.
    + apply (bool_decide_unpack _). by vm_compute.
    + apply (bool_decide_unpack _). by vm_compute.
Qed.

(** The head of the sorted candidates, as a block of the input. *)
Lemma sorted_head_candidate bs :
  postcode_candidates bs ≠ [] →
  ∃ i b pc t,
    sort_by_confidence (postcode_candidates bs)
    = (pc, b, postcode_confidence bs i (block_text b) pc, i) :: t
    ∧ i < 400 ∧ bs !! i = Some b ∧ search_postcode (block_text b) = Some pc
    ∧ ∀ j bj pcj,
        j < 400 → bs !! j = Some bj → search_postcode (block_text bj) = Some pcj →
        (postcode_confidence bs j (block_text bj) pcj
         <= postcode_confidence bs i (block_text b) pc)%Q
        ∧ (j < i →
           (postcode_confidence bs j (block_text bj) pcj
            < postcode_confidence bs i (block_text b) pc)%Q).
Proof.
  intros Hne.
  destruct (sort_by_confidence_first _ (postcode_candidates_by_index bs) Hne)
    as (h & t & Hsort & Hin & Hmax).
  apply elem_of_postcode_candidates in Hin as (i & b & Hi & Hb & Hc).
  apply postcode_candidate_Some in Hc as (pc & Hpc & ->).
  exists i, b, pc, t. split_and!; [done..|].
  intros j bj pcj Hj Hbj Hpcj.
  apply (Hmax (pcj, bj, postcode_confidence bs j (block_text bj) pcj, j)).
  apply elem_of_postcode_candidates. exists j, bj. split_and!; [done..|].
  unfold postcode_candidate. by rewrite Hpcj.
Qed.

Lemma candidate_exists bs i b pc :
  i < 400 → bs !! i = Some b → search_postcode (block_text b) = Some pc →
  postcode_candidates bs ≠ [].
Proof.
  intros Hi Hb Hpc Hnil.
  assert (Hin : (pc, b, postcode_confidence bs i (block_text b) pc, i)
                ∈ postcode_candidates bs).
  { apply elem_of_postcode_candidates. exists i, b. split_and!; [done..|].
    unfold postcode_candidate. by rewrite Hpc. }
  rewrite Hnil in Hin. by apply elem_of_nil in Hin.
Qed.

(** X11. The postcode of [map_fields] is that of the best candidate among
    the first 400 blocks: the block whose postcode has the highest
    confidence, the earliest such block on a tie, provided it is not
    penalized as council or PO-box text; the field then carries that
    confidence and evidence citing that block. The field stays without
    value, confidence and evidence exactly when every postcode found in the
    first 400 blocks is penalized. *)
Theorem X11_postcode_from_best_candidate (text_blocks : entry (list block)) :
  let bs := get_or_empty text_blocks in
  let st := map_fields text_blocks in
  (∀ i b pc,
     best_candidate bs i b pc →
     postcode_penalized (block_text b) pc = false →
     recorded st (classify_document bs) "postcode" pc
       (postcode_confidence bs i (block_text b) pc) b)
  ∧ (unrecorded st "postcode" ↔ all_penalized bs).
Proof.
  intros bs st. subst st. unfold map_fields. fold bs. unfold map_blocks.
  set (dtype := classify_document bs).
  destruct (before_postcode bs) as [Hwf Hun]. fold dtype in Hwf, Hun.
  set (st4 := map_labels bs dtype _) in *.
  assert (Hf : "postcode" ∈ FIELD_NAMES) by (apply (bool_decide_unpack _); by vm_compute).
  assert (Hsub : ∀ g, g ∈ ["applicant_email"; "applicant_phone"] → g ∈ FIELD_NAMES)
    by (by apply names_included).
  assert (Hout : "postcode" ∉ ["applicant_email"; "applicant_phone"])
    by (apply (bool_decide_unpack _); by vm_compute).
  pose proof (map_postcode_decides bs dtype st4 Hun) as Hdec.
  assert (Hselected : ∀ i b pc t,
            sort_by_confidence (postcode_candidates bs)
            = (pc, b, postcode_confidence bs i (block_text b) pc, i) :: t →
            (0.3 <= postcode_confidence bs i (block_text b) pc)%Q →
            recorded (map_contacts bs dtype (map_postcode bs dtype st4)) dtype "postcode" pc
              (postcode_confidence bs i (block_text b) pc) b).
  { intros i b pc t Hsort Hconf. rewrite Hdec, Hsort.
    rewrite (proj2 (Qleb_true _ _) Hconf).
    eapply recorded_preserved.
    - apply wf_populate; [done..|apply Hun].
    - eapply populates_mono; [exact Hsub|apply map_contacts_populates].
    - apply populate_recorded; [done..|apply Hun|done]. }
  assert (Hkept : map_postcode bs dtype st4 = st4 →
            unrecorded (map_contacts bs dtype (map_postcode bs dtype st4)) "postcode").
  { intros ->. eapply unrecorded_frame; [exact Hsub|done|done| |done].
    apply map_contacts_populates. }
  split.
  - intros i b pc (Hi & Hb & Hpc & Hbest) Hpen.
    destruct (sorted_head_candidate bs (candidate_exists bs i b pc Hi Hb Hpc))
      as (i' & b' & pc' & t & Hsort & Hi' & Hb' & Hpc' & Hmax).
    assert (i' = i) as ->.
    { destruct (Nat.lt_trichotomy i' i) as [Hlt|[?|Hlt]]; [|done|].
      - destruct (Hbest i' b' pc' Hi' Hb' Hpc') as [_ Hb1].
        destruct (Hmax i b pc Hi Hb Hpc) as [Hm1 _].
        exfalso. by apply (Qlt_not_le _ _ (Hb1 Hlt)).
      - destruct (Hmax i b pc Hi Hb Hpc) as [_ Hm2].
        destruct (Hbest i' b' pc' Hi' Hb' Hpc') as [Hb1 _].
        exfalso. by apply (Qlt_not_le _ _ (Hm2 Hlt)). }
    assert (b' = b) as -> by congruence. assert (pc' = pc) as -> by congruence.
    apply (Hselected i b pc t Hsort). by apply unpenalized_confident.
  - split.
    + intros [Hnone _] i b pc Hi Hb Hpc.
      destruct (postcode_penalized (block_text b) pc) eqn:Hpen; [done|]. exfalso.
      destruct (sorted_head_candidate bs (candidate_exists bs i b pc Hi Hb Hpc))
        as (i' & b' & pc' & t & Hsort & Hi' & Hb' & Hpc' & Hmax).
      destruct (Hselected i' b' pc' t Hsort) as [Hv _]; [|congruence].
      eapply Qle_trans; [by apply (unpenalized_confident bs i)|].
      by apply (Hmax i b pc).
    + intros Hall. apply Hkept. rewrite Hdec. clear Hdec Hselected Hkept.
      destruct (postcode_candidates bs) as [|c l] eqn:E; [reflexivity|].
      destruct (sorted_head_candidate bs) as (i' & b' & pc' & t & Hsort & Hi' & Hb' & Hpc' & _);
        [rewrite E; discriminate|].
      rewrite E in Hsort. rewrite Hsort.
      rewrite (penalized_confidence bs i' _ pc' (Hall i' b' pc' Hi' Hb' Hpc')).
      reflexivity.
Qed.

Lemma X11_witness_site_location :
  recorded (map_fields (Present site_location_blocks))
    (classify_document site_location_blocks) "postcode" "B12 3CD"
    (postcode_confidence site_location_blocks 2 "Postcode: B12 3CD" "B12 3CD")
    (indexed_block "Postcode: B12 3CD" 2).
Proof.
  apply (proj1 (X11_postcode_from_best_candidate (Present site_location_blocks))
           2 (indexed_block "Postcode: B12 3CD" 2) "B12 3CD").
  - split; [lia|]. split; [reflexivity|]. split; [vm_compute; reflexivity|].
    intros j bj pcj Hj Hbj Hpcj.
    destruct j as [|[|[|j]]]; cbn in Hbj; try discriminate Hbj;
      injection Hbj as <-; vm_compute in Hpcj; try discriminate Hpcj.
    injection Hpcj as <-. split; [by vm_compute | lia].
  - vm_compute. reflexivity.
Defined.

(** ** The document type is the first type of the highest score *)

(** The priority loop ends on the first entry of the list that reaches the
    highest score, if any entry beats the initial best. *)
Lemma best_step_fold_first (score : string → nat) (l : list string) (best : string * nat) :
  let r := foldl (best_step score) best l in
  (r = best ∧ ∀ d, d ∈ l → score d ≤ snd best)
  ∨ (∃ k, l !! k = Some (fst r)
          ∧ snd r = score (fst r)
          ∧ snd best < snd r
          ∧ (∀ d, d ∈ l → score d ≤ snd r)
          ∧ ∀ j d, j < k → l !! j = Some d → score d < snd r).
Proof.
  revert best. induction l as [|d l IH]; intros best; cbn [foldl].
  - left. split; [done|]. intros d Hd. by apply elem_of_nil in Hd.
  - destruct (Nat.lt_ge_cases (snd best) (score d)) as [Hlt|Hge].
    + rewrite best_step_lt by done. right.
      destruct (IH (d, score d)) as [[-> Hle]|(k & Hk & Hs & Hlt' & Hmax & Hfirst)];
        cbn [fst snd] in *.
      * exists 0. split_and!; [done..| |intros; lia].
        intros d' [->|Hd']%elem_of_cons; [done | by apply Hle].
      * exists (S k). split_and!; [done | done | lia | |].
        -- intros d' [->|Hd']%elem_of_cons; [lia | by apply Hmax].
        -- intros [|j] d' Hj Hd'; [injection Hd' as <-; lia|].
           apply (Hfirst j); [lia|done].
    + rewrite best_step_ge by done.
      destruct (IH best) as [[Heq Hle]|(k & Hk & Hs & Hlt & Hmax & Hfirst)].
      * left. split; [done|]. intros d' [->|Hd']%elem_of_cons; [done | by apply Hle].
      * right. exists (S k). split_and!; [done..| |].
        -- intros d' [->|Hd']%elem_of_cons; [lia | by apply Hmax].
        -- intros [|j] d' Hj Hd'; [injection Hd' as <-; lia|].
           apply (Hfirst j); [lia|done].
Qed.

(** X12. [classify_document] returns the first document type, in the
    priority order, whose hint phrases are matched most often in the
    corpus: a type of the priority list is returned exactly when it matches
    at least one hint, no type of the list matches more, and every type
    before it matches fewer. The result is "unknown" exactly when no type
    of the priority list matches any hint; there is no other result. *)
Theorem X12_document_type_is_first_of_highest_score (bs : list block) :
  let score d := type_score d (corpus bs) in
  (∀ k d, priority_order !! k = Some d →
     (classify_document bs = d
      ↔ 1 ≤ score d
        ∧ (∀ d', d' ∈ priority_order → score d' ≤ score d)
        ∧ ∀ j d', j < k → priority_order !! j = Some d' → score d' < score d))
  ∧ (classify_document bs = "unknown" ↔ ∀ d, d ∈ priority_order → score d = 0)
  ∧ classify_document bs ∈ "unknown" :: priority_order.
Proof.
  intros score. unfold classify_document.
  rewrite classify_priority_best_step. fold score.
  assert (Hnd : NoDup priority_order) by (apply (bool_decide_unpack _); by vm_compute).
  assert (Hunk : "unknown" ∉ priority_order) by (apply (bool_decide_unpack _); by vm_compute).
  destruct (best_step_fold_first score priority_order ("unknown", 0))
    as [[Heq Hle]|(k' & Hk' & Hs & Hlt & Hmax & Hfirst)]; cbn [fst snd] in *.
  - rewrite Heq. cbn [snd fst Nat.eqb]. rewrite classify_remaining_id. cbn [fst].
    split_and!.
    + intros k d Hk. split.
      * intros <-. exfalso. apply Hunk. by eapply list_elem_of_lookup_2.
      * intros [Hpos _]. specialize (Hle d (list_elem_of_lookup_2 _ _ _ Hk)). lia.
    + split; [|done]. intros _ d Hd. specialize (Hle d Hd). lia.
    + apply list_elem_of_here.
  - set (r := foldl _ _ _) in *.
    destruct (Nat.eqb_spec (snd r) 0) as [?|_]; [lia|].
    split_and!.
    + intros k d Hk. split.
      * intros Hr. rewrite Hr in Hk', Hs.
        assert (k' = k) as -> by (by eapply NoDup_lookup).
        rewrite Hs in Hlt, Hmax, Hfirst. split_and!; [lia | done | done].
      * intros (Hpos & Hmaxd & Hfirstd).
        destruct (Nat.lt_trichotomy k' k) as [Hlt'|[->|Hlt']].
        -- specialize (Hfirstd k' (fst r) Hlt' Hk').
           specialize (Hmax d (list_elem_of_lookup_2 _ _ _ Hk)). lia.
        -- congruence.
        -- specialize (Hfirst k d Hlt' Hk).
           specialize (Hmaxd (fst r) (list_elem_of_lookup_2 _ _ _ Hk')). lia.
    + split.
      * intros Hr. exfalso. apply Hunk. rewrite <- Hr. by eapply list_elem_of_lookup_2.
      * intros Hzero. specialize (Hzero (fst r) (list_elem_of_lookup_2 _ _ _ Hk')). lia.
    + apply list_elem_of_further. by eapply list_elem_of_lookup_2.
Qed.

(** ** The helpers of the address strategies *)

(** *** The section window *)

(** X14. For an index within the block list,
    [_is_in_site_location_section] looks at the ten blocks before the index
    and at nothing else: it answers yes exactly when one of the blocks at
    the indices [block_index - 10] to [block_index - 1] names a
    site-location header. The block at the index itself, later blocks and
    blocks further back never count. *)
Theorem X14_site_location_section_window (blocks : list block) (block_index : nat) :
  block_index ≤ length blocks →
  (_is_in_site_location_section blocks block_index = true
   ↔ ∃ j b, block_index - 10 ≤ j ∧ j < block_index
            ∧ blocks !! j = Some b ∧ site_header b = true).
Proof.
  intros _. unfold _is_in_site_location_section. fold site_header.
  rewrite existsb_exists. split.
  - intros (b & Hin & Hb). apply list_elem_of_In, list_elem_of_lookup in Hin as [k Hk].
    apply lookup_take_Some in Hk as [Hk Hlt]. rewrite lookup_drop in Hk.
    exists (block_index - 10 + k), b. split_and!; [lia | lia | done | done].
  - intros (j & b & Hlo & Hhi & Hj & Hb). exists b. split; [|done].
    apply list_elem_of_In, list_elem_of_lookup. exists (j - (block_index - 10)).
    apply lookup_take_Some. split; [|lia]. rewrite lookup_drop.
    by replace (block_index - 10 + (j - (block_index - 10))) with j by lia.
Qed.

Lemma X14_witness_site_location :
  _is_in_site_location_section site_location_blocks 2 = true
  ↔ ∃ j b, 2 - 10 ≤ j ∧ j < 2
           ∧ site_location_blocks !! j = Some b ∧ site_header b = true.
Proof. apply (X14_site_location_section_window site_location_blocks 2). cbn. lia. Defined.

(** *** The tests that never reject *)

Lemma contains_suffix_of (a b s : string) :
  Str.contains (a +:+ b) s = true → Str.contains b s = true.
Proof.
  assert (Hprefix : ∀ a s, String.prefix (a +:+ b) s = true → Str.contains b s = true).
  { clear. induction a as [|c a IH]; intros s H; [by apply contains_prefix|].
    destruct s as [|c' s]; [done|].
    change (String.prefix (String c (a +:+ b)) (String c' s) = true) in H.
    cbn [String.prefix] in H. destruct (ascii_dec c c'); [|done].
    apply contains_cons. by apply IH. }
  induction s as [|c s IH].
  - cbn [Str.contains]. rewrite !orb_false_r. intros H.
    apply (Hprefix a) in H. cbn [Str.contains] in H. by rewrite orb_false_r in H.
  - intros H. cbn [Str.contains] in H.
    apply orb_true_iff in H as [H|H]; [by apply (Hprefix a)|].
    apply contains_cons. by apply IH.
Qed.

Lemma po_box_is_council_contact (t : string) :
  Str.contains "po box" (Str.lower t) = true → _is_council_contact t = true.
Proof.
  intros H. unfold _is_council_contact, any_in. cbn [existsb]. rewrite H.
  by rewrite !orb_true_r.
Qed.

Lemma city_council_is_council_contact (t : string) :
  Str.contains "birmingham city council" (Str.lower t) = true →
  _is_council_contact t = true.
Proof.
  intros H. apply (contains_suffix_of "birmingham city " "council") in H.
  unfold _is_council_contact, any_in. cbn [existsb]. rewrite H.
  by rewrite !orb_true_r.
Qed.

(** X15. A postcode candidate is penalized exactly when its block mentions
    a PO box, or its block is council contact text and the postcode starts
    with "B1 1TU". The further tests of the source, for "po box" and for
    "birmingham city council" beside [_is_council_contact], change nothing:
    both texts are council contact text already. *)
Theorem X15_postcode_penalty (t postcode : string) :
  postcode_penalized t postcode
  = Str.contains "po box" (Str.lower t)
    || (_is_council_contact t && Str.startswith postcode "B1 1TU").
Proof.
  unfold postcode_penalized. cbv zeta.
  pose proof (po_box_is_council_contact t) as Hpo.
  pose proof (city_council_is_council_contact t) as Hcc.
  destruct (Str.contains "po box" (Str.lower t)).
  - rewrite Hpo by done. cbn. by rewrite orb_true_r.
  - destruct (Str.contains "birmingham city council" (Str.lower t)).
    + rewrite Hcc by done. cbn. by rewrite orb_false_r.
    + by rewrite !orb_false_r.
Qed.

Lemma truthy_app_l (x r : string) : Str.truthy x = true → Str.truthy (x +:+ r) = true.
Proof. by destruct x. Qed.

Lemma join_truthy (sep x : string) (xs : list string) :
  Str.truthy x = true → Str.truthy (Str.join sep (x :: xs)) = true.
Proof.
  intros Hx. destruct (join_head sep x xs) as [r ->]. by apply truthy_app_l.
Qed.

Lemma address_list_truthy (a : address_parts) (x : string) :
  x ∈ address_list a → Str.truthy x = true.
Proof.
  unfold address_list. intros (o & _ & Ho)%list_elem_of_omap.
  destruct o as [s|]; cbn [truthy_opt] in Ho; [|done].
  destruct (Str.truthy s) eqn:E; [|done]. by injection Ho as <-.
Qed.

Lemma section_result_truthy bs addr src conf :
  extract_site_address_from_section bs = Some (addr, src, conf) →
  Str.truthy addr = true ∧ conf = 0.95%Q.
Proof.
  unfold extract_site_address_from_section.
  destruct (find_map _ _) as [[start_idx source_block]|]; [|done].
  cbv zeta. set (a := foldl _ _ _).
  pose proof (address_list_truthy a) as Hall.
  destruct (address_list a) as [|x xs]; [done|]. intros [= <- <- <-].
  split; [|done]. apply join_truthy, Hall, list_elem_of_here.
Qed.

Lemma demolition_result_truthy bs addr src conf :
  extract_address_from_demolition_pattern bs = Some (addr, src, conf) →
  Str.truthy addr = true ∧ conf = 0.85%Q.
Proof.
  unfold extract_address_from_demolition_pattern.
  intros (i & b & Hl & Hf)%find_map_elem.
  apply demolition_hit_Some in Hf as (_ & m & _ & Hlen & [= -> -> ->]).
  split; [|done]. destruct (demolition_full_address m); [cbn in Hlen; lia | done].
Qed.

Lemma heuristic_step_truthy bs best i b :
  heuristic_best_truthy best → heuristic_best_truthy (heuristic_step bs best i b).
Proof.
  intros Hbest. unfold heuristic_step. cbv zeta.
  destruct (Str.truthy (_norm (block_text b))) eqn:Et; [|done]. cbn [negb orb].
  destruct (_is_in_site_location_section bs i);
  repeat match goal with
         | |- heuristic_best_truthy (if ?c then _ else _) => destruct c eqn:?
         | |- heuristic_best_truthy (match ?o with Some _ => _ | None => _ end) =>
             destruct o as [[? ?]|]
         end; try assumption; cbn [heuristic_best_truthy]; try assumption;
    match goal with
    | H : (Str.truthy _ && _) = true |- _ => by apply andb_true_iff in H as [? _]
    end.
Qed.

Lemma heuristic_result_truthy bs :
  heuristic_best_truthy (fold_enum (heuristic_step bs) (take 100 bs) (None, 0%Q)).
Proof.
  unfold fold_enum. apply (fold_from_invariant heuristic_best_truthy); [done|].
  intros best i b _. apply heuristic_step_truthy.
Qed.

(** X13. The strategies of [pick_site_address] apply in a fixed order and
    its thresholds never reject a result: whatever
    [extract_site_address_from_section] returns is returned; failing that,
    whatever [extract_address_from_demolition_pattern] returns is returned;
    failing both, the best match of the scan of the first 100 blocks is
    returned whenever there is one. *)
Theorem X13_site_address_strategy_order (blocks : list block) :
  pick_site_address blocks
  = match extract_site_address_from_section blocks with
    | Some r => Some r
    | None =>
        match extract_address_from_demolition_pattern blocks with
        | Some r => Some r
        | None =>
            match fold_enum (heuristic_step blocks) (take 100 blocks) (None, 0%Q) with
            | (Some (best_match, best_block), best_confidence) =>
                Some (best_match, best_block, best_confidence)
            | (None, _) => None
            end
        end
    end.
Proof.
  unfold pick_site_address. cbv zeta.
  destruct (extract_site_address_from_section blocks) as [[[a1 s1] c1]|] eqn:E1.
  { apply section_result_truthy in E1 as [-> ->]. reflexivity. }
  destruct (extract_address_from_demolition_pattern blocks) as [[[a2 s2] c2]|] eqn:E2.
  { apply demolition_result_truthy in E2 as [-> ->]. reflexivity. }
  pose proof (heuristic_source blocks) as Hsrc.
  pose proof (heuristic_result_truthy blocks) as Ht.
  destruct (fold_enum _ _ _) as [[[bm bb]|] bc]; [|reflexivity].
  cbn [heuristic_best_ok heuristic_best_truthy] in Hsrc, Ht. rewrite Ht.
  destruct Hsrc as [_ Hc].
  repeat (apply elem_of_cons in Hc as [->|Hc]); [reflexivity..|].
  by apply elem_of_nil in Hc.
Qed.

(** ** The pipeline entry point *)

(** *** Loops that fill a dictionary *)

Lemma fold_from_insert_other {A V : Type} (key : nat → string) (val : A → V)
    (l : list A) (start : nat) (base : gmap string V) (k : string) :
  (∀ j, k ≠ key j) →
  fold_from (λ ev i x, <[key i := val x]> ev) start l base !! k = base !! k.
Proof.
  intros Hk. revert start base. induction l as [|x l IH]; intros start base; [done|].
  cbn [fold_from]. rewrite IH. apply lookup_insert_ne. intros Heq. by apply (Hk start).
Qed.

Lemma fold_from_insert_key {A V : Type} (key : nat → string) (val : A → V)
    (l : list A) (start : nat) (base : gmap string V) (i : nat) :
  (∀ i j, key i = key j → i = j) →
  fold_from (λ ev i x, <[key i := val x]> ev) start l base !! key (start + i)
  = match l !! i with
    | Some x => Some (val x)
    | None => base !! key (start + i)
    end.
Proof.
  intros Hinj. revert start base i. induction l as [|x l IH]; intros start base i; [done|].
  cbn [fold_from]. destruct i as [|i].
  - rewrite Nat.add_0_r. cbn [lookup list_lookup].
    assert (Hlater : ∀ (l' : list A) (s : nat) (b : gmap string V), start < s →
              fold_from (λ ev i x, <[key i := val x]> ev) s l' b !! key start
              = b !! key start).
    { clear -Hinj. induction l' as [|y l' IH]; intros s b Hs; [done|].
      cbn [fold_from]. rewrite IH by lia. apply lookup_insert_ne.
      intros Heq%Hinj. lia. }
    rewrite Hlater by lia. apply lookup_insert_eq.
  - rewrite <- Nat.add_succ_comm, IH. cbn [lookup list_lookup].
    destruct (l !! i); [done|]. apply lookup_insert_ne.
    intros Heq%Hinj. lia.
Qed.

Lemma foldl_insert_fields_other (l : list (string * list evidence_entry))
    (base : gmap string evidence_value) (k : string) :
  k ∉ l.*1 →
  foldl (λ ev '(field_name, ev_list), <[field_name := EvField ev_list]> ev) base l !! k
  = base !! k.
Proof.
  revert base. induction l as [|[f es] l IH]; intros base Hk; [done|].
  cbn [foldl]. rewrite IH.
  - apply lookup_insert_ne. intros <-. apply Hk. cbn. apply list_elem_of_here.
  - intros Hin. apply Hk. cbn. by apply list_elem_of_further.
Qed.

Lemma foldl_insert_fields_key (l : list (string * list evidence_entry))
    (base : gmap string evidence_value) (k : string) (es : list evidence_entry) :
  NoDup l.*1 → (k, es) ∈ l →
  foldl (λ ev '(field_name, ev_list), <[field_name := EvField ev_list]> ev) base l !! k
  = Some (EvField es).
Proof.
  revert base. induction l as [|[f es'] l IH]; intros base Hnd Hin.
  { by apply elem_of_nil in Hin. }
  cbn [foldl]. cbn in Hnd. apply NoDup_cons in Hnd as [Hf Hnd].
  apply elem_of_cons in Hin as [[= <- <-]|Hin]; [|by apply IH].
  rewrite foldl_insert_fields_other by done. apply lookup_insert_eq.
Qed.

Lemma merged_field_evidence (m : gmap string (list evidence_entry))
    (base : gmap string evidence_value) (k : string) :
  foldl (λ ev '(field_name, ev_list), <[field_name := EvField ev_list]> ev) base
    (map_to_list m) !! k
  = match m !! k with
    | Some es => Some (EvField es)
    | None => base !! k
    end.
Proof.
  destruct (m !! k) as [es|] eqn:E.
  - apply foldl_insert_fields_key; [apply NoDup_fst_map_to_list|].
    by apply elem_of_map_to_list.
  - apply foldl_insert_fields_other. intros Hin.
    apply list_elem_of_fmap in Hin as ([k' es] & -> & Hin).
    apply elem_of_map_to_list in Hin. cbn in E. congruence.
Qed.

(** *** Keys of the three families never meet *)

Lemma string_app_inj_r (p s1 s2 : string) : p +:+ s1 = p +:+ s2 → s1 = s2.
Proof.
  induction p as [|c p IH]; [done|]. intros H.
  change (String c (p +:+ s1) = String c (p +:+ s2)) in H. injection H as H. by apply IH.
Qed.

Lemma text_block_key_inj (i j : nat) :
  "text_block_" +:+ pretty i = "text_block_" +:+ pretty j → i = j.
Proof. intros H%string_app_inj_r. by apply (inj pretty). Qed.

Lemma table_key_inj (i j : nat) :
  "table_" +:+ pretty i = "table_" +:+ pretty j → i = j.
Proof. intros H%string_app_inj_r. by apply (inj pretty). Qed.

Lemma text_block_key_not_table (s t : string) : "text_block_" +:+ s ≠ "table_" +:+ t.
Proof. intros H. apply (f_equal (String.get 1)) in H. discriminate H. Qed.

Lemma text_block_key_not_field (s : string) : "text_block_" +:+ s ∉ FIELD_NAMES.
Proof.
  intros Hin. unfold FIELD_NAMES in Hin.
  repeat (apply elem_of_cons in Hin as [H|Hin];
          [apply (f_equal (String.get 0)) in H; discriminate H|]).
  by apply elem_of_nil in Hin.
Qed.

Lemma table_key_not_field (s : string) : "table_" +:+ s ∉ FIELD_NAMES.
Proof.
  intros Hin. unfold FIELD_NAMES in Hin.
  repeat (apply elem_of_cons in Hin as [H|Hin];
          [apply (f_equal (String.get 0)) in H; discriminate H|]).
  by apply elem_of_nil in Hin.
Qed.

Lemma evidence_keys_are_fields (bs : list block) (k : string) :
  k ∉ FIELD_NAMES → evidence (map_blocks bs) !! k = None.
Proof.
  intros Hk. destruct (evidence (map_blocks bs) !! k) eqn:E; [|done].
  destruct (wf_evidence _ (map_blocks_wf bs) k) as [Hf _]; [by rewrite E | done].
Qed.

Lemma fold_from_insert_is_Some {A V : Type} (key : nat → string) (val : A → V)
    (l : list A) (start : nat) (base : gmap string V) (k : string) :
  is_Some (fold_from (λ ev i x, <[key i := val x]> ev) start l base !! k) →
  (∃ i, k = key (start + i) ∧ i < length l) ∨ is_Some (base !! k).
Proof.
  revert start base. induction l as [|x l IH]; intros start base; [by right|].
  cbn [fold_from]. intros [(i & -> & Hi)|Hbase]%IH.
  - left. exists (S i). rewrite <- Nat.add_succ_comm. split; [done | cbn; lia].
  - apply lookup_insert_is_Some in Hbase as [<-|[_ Hbase]]; [|by right].
    left. exists 0. rewrite Nat.add_0_r. split; [done | cbn; lia].
Qed.

(** The evidence index, key by key. *)
Lemma evidence_index_lookup (extraction_result : layout)
    (blocks : list block) (ts : list table) :
  get_list (text_blocks extraction_result) = Some blocks →
  get_list (tables extraction_result) = Some ts →
  ∃ r,
    extract_from_pdf_bytes extraction_result = Some r
    ∧ (∀ i, r_evidence_index r !! ("text_block_" +:+ pretty i)
            = text_block_evidence <$> blocks !! i)
    ∧ (∀ i, r_evidence_index r !! ("table_" +:+ pretty i) = table_evidence <$> ts !! i)
    ∧ (∀ f, f ∈ FIELD_NAMES →
         r_evidence_index r !! f
         = EvField <$> evidence (map_fields (text_blocks extraction_result)) !! f)
    ∧ (∀ k, is_Some (r_evidence_index r !! k) →
         (∃ i, k = "text_block_" +:+ pretty i ∧ i < length blocks)
         ∨ (∃ i, k = "table_" +:+ pretty i ∧ i < length ts)
         ∨ k ∈ FIELD_NAMES).
Proof.
  intros Hb Ht. unfold extract_from_pdf_bytes. rewrite Hb, Ht. cbv zeta.
  eexists. split; [reflexivity|]. cbn [r_evidence_index].
  unfold map_fields, fold_enum.
  set (bs := get_or_empty (text_blocks extraction_result)).
  set (ev0 := fold_from (λ ev i b, <["text_block_" +:+ pretty i := text_block_evidence b]> ev)
                0 blocks ∅).
  set (ev1 := fold_from (λ ev i t, <["table_" +:+ pretty i := table_evidence t]> ev)
                0 ts ev0).
  split_and!.
  - intros i. rewrite merged_field_evidence.
    rewrite (evidence_keys_are_fields bs) by apply text_block_key_not_field.
    subst ev1.
    rewrite fold_from_insert_other by (intros j; apply text_block_key_not_table).
    subst ev0.
    pose proof (fold_from_insert_key (λ i, "text_block_" +:+ pretty i) text_block_evidence
                  blocks 0 ∅ i text_block_key_inj) as Hkey.
    cbn [Nat.add] in Hkey. rewrite Hkey.
    by destruct (blocks !! i).
  - intros i. rewrite merged_field_evidence.
    rewrite (evidence_keys_are_fields bs) by apply table_key_not_field.
    subst ev1.
    pose proof (fold_from_insert_key (λ i, "table_" +:+ pretty i) table_evidence
                  ts 0 ev0 i table_key_inj) as Hkey.
    cbn [Nat.add] in Hkey. rewrite Hkey.
    destruct (ts !! i); [done|]. subst ev0.
    rewrite fold_from_insert_other; [done|].
    intros j Heq. by apply (text_block_key_not_table (pretty j) (pretty i)).
  - intros f Hf. rewrite merged_field_evidence.
    destruct (evidence (map_blocks bs) !! f); [done|]. subst ev1.
    rewrite fold_from_insert_other.
    + subst ev0. rewrite fold_from_insert_other; [done|].
      intros j ->. by apply (text_block_key_not_field (pretty j)).
    + intros j ->. by apply (table_key_not_field (pretty j)).
  - intros k. rewrite merged_field_evidence.
    destruct (evidence (map_blocks bs) !! k) eqn:E.
    + intros _. right; right.
      destruct (wf_evidence _ (map_blocks_wf bs) k) as [Hf _]; [by rewrite E | done].
    + subst ev1. intros [(i & -> & Hi)|Hbase]%fold_from_insert_is_Some.
      * right; left. by exists i.
      * subst ev0. apply fold_from_insert_is_Some in Hbase as [(i & -> & Hi)|Hbase].
        -- left. by exists i.
        -- rewrite lookup_empty in Hbase. by destruct Hbase.
Qed.

(** X16. When [text_blocks] and [tables] can be iterated,
    [extract_from_pdf_bytes] returns an evidence index made of three
    families of keys that never overwrite one another: ["text_block_{i}"]
    holds the evidence of block [i], for every block; ["table_{i}"] holds
    the evidence of table [i], for every table; a field name holds the
    evidence list that [map_fields] built for the field. There is no other
    key. *)
Theorem X16_evidence_index_families (extraction_result : layout)
    (blocks : list block) (ts : list table) :
  get_list (text_blocks extraction_result) = Some blocks →
  get_list (tables extraction_result) = Some ts →
  ∃ r,
    extract_from_pdf_bytes extraction_result = Some r
    ∧ (∀ i, r_evidence_index r !! ("text_block_" +:+ pretty i)
            = text_block_evidence <$> blocks !! i)
    ∧ (∀ i, r_evidence_index r !! ("table_" +:+ pretty i) = table_evidence <$> ts !! i)
    ∧ (∀ f, f ∈ FIELD_NAMES →
         r_evidence_index r !! f
         = EvField <$> evidence (map_fields (text_blocks extraction_result)) !! f)
    ∧ (∀ k, is_Some (r_evidence_index r !! k) →
         (∃ i, k = "text_block_" +:+ pretty i ∧ i < length blocks)
         ∨ (∃ i, k = "table_" +:+ pretty i ∧ i < length ts)
         ∨ k ∈ FIELD_NAMES).
Proof. apply evidence_index_lookup. Qed.

Lemma X16_witness_unindexed_layout :
  ∃ r,
    extract_from_pdf_bytes unindexed_layout = Some r
    ∧ (∀ i, r_evidence_index r !! ("text_block_" +:+ pretty i)
            = text_block_evidence <$> [raw_block "Ref PP-12345678"] !! i)
    ∧ (∀ i, r_evidence_index r !! ("table_" +:+ pretty i)
            = table_evidence <$> @nil table !! i)
    ∧ (∀ f, f ∈ FIELD_NAMES →
         r_evidence_index r !! f
         = EvField <$> evidence (map_fields (text_blocks unindexed_layout)) !! f)
    ∧ (∀ k, is_Some (r_evidence_index r !! k) →
         (∃ i, k = "text_block_" +:+ pretty i ∧ i < length [raw_block "Ref PP-12345678"])
         ∨ (∃ i, k = "table_" +:+ pretty i ∧ i < length (@nil table))
         ∨ k ∈ FIELD_NAMES).
Proof.
  apply (X16_evidence_index_families unindexed_layout [raw_block "Ref PP-12345678"] []);
    reflexivity.
Defined.

(** *** Block ids before and after indexing *)

Lemma pretty_N_go_length (x : N) (s : string) :
  String.length s ≤ String.length (pretty_N_go x s).
Proof.
  revert s. induction (N.lt_wf_0 x) as [x _ IH]; intros s.
  assert (x = 0 ∨ 0 < x)%N as [->|?] by lia; [by rewrite pretty_N_go_0|].
  rewrite pretty_N_go_step by done.
  etrans; [|by eapply IH, N.div_lt]. simpl. lia.
Qed.

Lemma pretty_N_nonempty (x : N) : pretty x ≠ "".
Proof.
  unfold pretty, pretty_N. destruct (decide (x = 0%N)) as [|Hx]; [done|].
  intros Hempty. rewrite pretty_N_go_step in Hempty by lia.
  pose proof (pretty_N_go_length (x `div` 10)
                (String (pretty_N_char (x `mod` 10)) "")) as Hlen.
  rewrite Hempty in Hlen. cbn in Hlen. lia.
Qed.

Lemma pretty_index_nonempty (i : nat) : pretty (Z.of_nat i) ≠ "".
Proof.
  destruct i as [|i]; [done|]. cbn [Z.of_nat].
  change (pretty (Z.pos (Pos.of_succ_nat i))) with (pretty (N.pos (Pos.of_succ_nat i))).
  apply pretty_N_nonempty.
Qed.

Lemma block_id_set_index (i : nat) (b : block) :
  block_id b = block_id (set_index i b) ↔ index b = Some (Z.of_nat i).
Proof.
  unfold block_id, set_index, block_page. cbn [page_number page index].
  split.
  - intros H. do 3 apply string_app_inj_r in H.
    destruct (index b) as [j|].
    + by apply (inj pretty) in H as ->.
    + symmetry in H. by apply pretty_index_nonempty in H.
  - by intros ->.
Qed.

(** X17. In the result of [extract_from_pdf_bytes] the evidence of a
    populated field names its block by the id the block had when it arrived,
    while the block is returned with its position as index: the two ids
    agree exactly when the block already arrived with that index. For
    blocks that arrive without an index the evidence therefore never
    names the returned block's id. *)
Theorem X17_evidence_names_the_block_as_it_arrived (extraction_result : layout)
    (r : pipeline_result) (f : string) :
  extract_from_pdf_bytes extraction_result = Some r →
  f ∈ FIELD_NAMES →
  is_Some (r_fields r !! f) →
  ∃ i b c dtype,
    get_or_empty (text_blocks extraction_result) !! i = Some b
    ∧ r_text_blocks r !! i = Some (set_index i b)
    ∧ r_evidence_index r !! f = Some (EvField [evidence_of b c dtype])
    ∧ (ev_block_id (evidence_of b c dtype) = block_id (set_index i b)
       ↔ index b = Some (Z.of_nat i)).
Proof.
  intros Hr Hf Hsome.
  destruct (get_list (text_blocks extraction_result)) as [blocks|] eqn:Hb;
    [|by unfold extract_from_pdf_bytes in Hr; rewrite Hb in Hr].
  destruct (get_list (tables extraction_result)) as [ts|] eqn:Ht;
    [|by unfold extract_from_pdf_bytes in Hr; rewrite Hb, Ht in Hr].
  destruct (evidence_index_lookup extraction_result blocks ts Hb Ht)
    as (r' & Hr' & _ & _ & Hfields & _).
  rewrite Hr in Hr'. injection Hr' as <-.
  assert (Hbs : get_or_empty (text_blocks extraction_result) = blocks).
  { destruct (text_blocks extraction_result); cbn in Hb |- *; congruence. }
  assert (Hrf : r_fields r = fields (map_blocks blocks)
                ∧ r_text_blocks r = imap set_index blocks).
  { unfold extract_from_pdf_bytes in Hr. rewrite Hb, Ht in Hr. cbv zeta in Hr.
    injection Hr as <-. cbn [r_fields r_text_blocks]. unfold map_fields.
    by rewrite Hbs. }
  destruct Hrf as [Hrf Hrt]. rewrite Hrf in Hsome.
  destruct (populated_field_is_text blocks f Hf Hsome) as [v Hv].
  destruct (map_blocks_grounded blocks f v Hf Hv) as (c & b & Hin & He & _).
  apply list_elem_of_lookup in Hin as [i Hi].
  exists i, b, c, (classify_document blocks). split_and!.
  - by rewrite Hbs.
  - by rewrite Hrt, list_lookup_imap, Hi.
  - rewrite (Hfields f Hf). unfold map_fields. by rewrite Hbs, He.
  - apply block_id_set_index.
Qed.

Lemma X17_witness_unindexed_layout :
  ∃ i b c dtype,
    get_or_empty (text_blocks unindexed_layout) !! i = Some b
    ∧ r_text_blocks unindexed_result !! i = Some (set_index i b)
    ∧ r_evidence_index unindexed_result !! "application_ref"
      = Some (EvField [evidence_of b c dtype])
    ∧ (ev_block_id (evidence_of b c dtype) = block_id (set_index i b)
       ↔ index b = Some (Z.of_nat i)).
Proof.
  apply (X17_evidence_names_the_block_as_it_arrived unindexed_layout unindexed_result
           "application_ref").
  - vm_compute. reflexivity.
  - apply list_elem_of_here.
  - eexists. vm_compute. reflexivity.
Defined.

(** ** The LLM gate *)

(** *** The loop over the findings *)

Lemma blocking_decides (f : finding) :
  blocking f
  ↔ bool_decide (severity f = Some "error") = true
    ∧ bool_decide (status f ∈ [Some "needs_review"; Some "fail"]) = true.
Proof.
  unfold blocking. rewrite !bool_decide_eq_true, !elem_of_cons, elem_of_nil. tauto.
Qed.

Lemma trigger_step_spec (resolved : gset string) (acc : list string * bool) (f : finding) :
  trigger_step resolved acc f
  = if bool_decide (severity f = Some "error")
       && bool_decide (status f ∈ [Some "needs_review"; Some "fail"])
    then (fst acc ++ filter (λ x, x ∉ resolved) (missing_fields f), true)
    else acc.
Proof. unfold trigger_step. by destruct (bool_decide _), (bool_decide _). Qed.

Lemma trigger_fold_flag (resolved : gset string) (l : list finding)
    (acc : list string * bool) :
  (fst acc ≠ [] → snd acc = true) →
  fst (foldl (trigger_step resolved) acc l) ≠ [] →
  snd (foldl (trigger_step resolved) acc l) = true.
Proof.
  revert acc. induction l as [|f l IH]; intros acc Hacc; [done|].
  cbn [foldl]. apply IH. rewrite trigger_step_spec. by destruct (_ && _).
Qed.

Lemma trigger_fold_elem (resolved : gset string) (l : list finding)
    (acc : list string * bool) (x : string) :
  x ∈ fst (foldl (trigger_step resolved) acc l)
  ↔ x ∈ fst acc
    ∨ ∃ f, f ∈ l ∧ blocking f ∧ x ∈ missing_fields f ∧ (x ∉ resolved).
Proof.
  revert acc. induction l as [|f l IH]; intros acc; cbn [foldl].
  - split; [by left|]. intros [?|(f & Hf & _)]; [done|]. by apply elem_of_nil in Hf.
  - rewrite IH, trigger_step_spec. split.
    + intros [Hacc|(g & Hg & Hrest)].
      * destruct (_ && _) eqn:E; [|by left]. cbn [fst] in Hacc.
        apply elem_of_app in Hacc as [?|Hx]; [by left|].
        apply list_elem_of_filter in Hx as [Hres Hx]. right. exists f.
        split_and!; [apply list_elem_of_here| |done|done].
        apply blocking_decides. by apply andb_true_iff in E.
      * right. exists g. split; [by apply list_elem_of_further | done].
    + intros [Hacc|(g & Hg & Hb & Hx & Hres)].
      * left. destruct (_ && _); [|done]. cbn [fst]. apply elem_of_app. by left.
      * apply elem_of_cons in Hg as [->|Hg]; [|right; by exists g].
        left. apply blocking_decides in Hb as [-> ->]. cbn [andb fst].
        apply elem_of_app. right. by apply list_elem_of_filter.
Qed.

Lemma nonempty_elem {A : Type} (l : list A) : l ≠ [] ↔ ∃ x, x ∈ l.
Proof.
  destruct l as [|a l]; split; try done.
  - intros [x Hx]. by apply elem_of_nil in Hx.
  - intros _. exists a. apply list_elem_of_here.
Qed.

(** When the gate triggers. *)
Lemma should_trigger_llm_spec (v : validation) (extraction : pipeline_result)
    (resolved_fields : gset string) :
  should_trigger_llm v extraction resolved_fields = true
  ↔ needs_llm v = true
    ∧ 5 ≤ length (r_text_blocks extraction)
    ∧ ∃ f x,
        f ∈ findings v ∧ blocking f
        ∧ x ∈ missing_fields f
        ∧ (x ∉ resolved_fields)
        ∧ x ∈ allowed_fields extraction.
Proof.
  unfold should_trigger_llm. destruct (needs_llm v); cbn [negb]; [|by split; [|intros []]].
  cbv zeta. set (acc := foldl _ _ _).
  assert (Hflag : fst acc ≠ [] → snd acc = true) by (by apply trigger_fold_flag).
  assert (Helem : ∀ x, x ∈ fst acc
            ↔ ∃ f, f ∈ findings v ∧ blocking f ∧ x ∈ missing_fields f
                   ∧ (x ∉ resolved_fields)).
  { intros x. subst acc. rewrite trigger_fold_elem. cbn [fst].
    split; [intros [Hnil|?]; [by apply elem_of_nil in Hnil | done] | by right]. }
  clearbody acc.
  assert (Hex : (∃ f x, f ∈ findings v ∧ blocking f ∧ x ∈ missing_fields f
                        ∧ (x ∉ resolved_fields) ∧ x ∈ allowed_fields extraction)
                ↔ filter (λ f, f ∈ allowed_fields extraction) (fst acc) ≠ []).
  { rewrite nonempty_elem. split.
    - intros (f & x & Hf & Hb & Hx & Hres & Hall). exists x.
      apply list_elem_of_filter. split; [done|]. apply Helem. by exists f.
    - intros (x & [Hall (f & Hf & Hb & Hx & Hres)%Helem]%list_elem_of_filter).
      by exists f, x. }
  rewrite Hex. clear Hex Helem.
  destruct (bool_decide (fst acc = [])) eqn:Enil.
  { apply bool_decide_eq_true in Enil. rewrite Enil. cbn.
    split; [done | by intros (_ & _ & ?)]. }
  apply bool_decide_eq_false in Enil. rewrite (Hflag Enil). cbn [orb negb].
  destruct (bool_decide (filter _ (fst acc) = [])) eqn:Efil.
  { apply bool_decide_eq_true in Efil. split; [done | by intros (_ & _ & ?)]. }
  apply bool_decide_eq_false in Efil.
  destruct (Nat.ltb_spec (length (r_text_blocks extraction)) 5).
  - split; [done|]. intros (_ & ? & _). lia.
  - split; [|done]. intros _. split_and!; [done | lia | done].
Qed.

(** X18. [should_trigger_llm] answers yes exactly when the summary asks for
    the language model, the extraction holds at least 5 text blocks, and
    some finding of severity [error] and status [needs_review] or [fail]
    misses a field that is not yet resolved and that the document type owns.
    The separate error flag of the source adds nothing to these
    conditions. *)
Theorem X18_should_trigger_llm_iff (v : validation) (extraction : pipeline_result)
    (resolved_fields : gset string) :
  should_trigger_llm v extraction resolved_fields = true
  ↔ needs_llm v = true
    ∧ 5 ≤ length (r_text_blocks extraction)
    ∧ ∃ f x,
        f ∈ findings v ∧ blocking f
        ∧ x ∈ missing_fields f
        ∧ (x ∉ resolved_fields)
        ∧ x ∈ allowed_fields extraction.
Proof. apply should_trigger_llm_spec. Qed.

(** *** The gate on the result of the pipeline *)

Lemma pipeline_result_parts (extraction_result : layout) (r : pipeline_result) :
  extract_from_pdf_bytes extraction_result = Some r →
  let bs := get_or_empty (text_blocks extraction_result) in
  r_fields r = fields (map_blocks bs) ∧ r_text_blocks r = imap set_index bs.
Proof.
  intros Hr bs. subst bs. unfold extract_from_pdf_bytes in Hr. cbv zeta in Hr.
  destruct (get_list (text_blocks extraction_result)) as [blocks|] eqn:Hb;
    [|discriminate Hr].
  destruct (get_list (tables extraction_result)) as [ts|]; [|discriminate Hr].
  injection Hr as <-. cbn [r_fields r_text_blocks]. unfold map_fields.
  assert (Hbs : get_or_empty (text_blocks extraction_result) = blocks).
  { destruct (text_blocks extraction_result); cbn in Hb |- *; congruence. }
  by rewrite Hbs.
Qed.

(** X19. On the result of [extract_from_pdf_bytes] the gate reads the
    document type that [classify_document] gave to the blocks and counts
    the blocks of the layout: the fields it may ask for are those that
    [DOC_FIELD_OWNERSHIP] lists for that type. No field is listed for a
    site notice or a heritage statement, so for documents of these types the
    gate never triggers, whatever the validation says. *)
Theorem X19_gate_on_the_pipeline_result (extraction_result : layout)
    (r : pipeline_result) :
  extract_from_pdf_bytes extraction_result = Some r →
  let bs := get_or_empty (text_blocks extraction_result) in
  allowed_fields r = default [] (dict_get (classify_document bs) DOC_FIELD_OWNERSHIP)
  ∧ length (r_text_blocks r) = length bs
  ∧ (classify_document bs ∈ ["site_notice"; "heritage"] →
     ∀ v resolved_fields, should_trigger_llm v r resolved_fields = false).
Proof.
  intros Hr bs. destruct (pipeline_result_parts _ _ Hr) as [Hf Ht]. fold bs in Hf, Ht.
  assert (Hallowed : allowed_fields r
                     = default [] (dict_get (classify_document bs) DOC_FIELD_OWNERSHIP)).
  { unfold allowed_fields. by rewrite Hf, map_blocks_document_type. }
  split_and!; [done | by rewrite Ht, length_imap|].
  intros Hd v resolved_fields.
  destruct (should_trigger_llm v r resolved_fields) eqn:E; [|done].
  apply should_trigger_llm_spec in E as (_ & _ & f & x & _ & _ & _ & _ & Hx).
  rewrite Hallowed in Hx.
  apply elem_of_cons in Hd as [Hd|Hd]; [|apply list_elem_of_singleton in Hd];
    rewrite Hd in Hx; by apply elem_of_nil in Hx.
Qed.

Lemma X19_witness_unindexed_layout :
  let bs := get_or_empty (text_blocks unindexed_layout) in
  allowed_fields unindexed_result
  = default [] (dict_get (classify_document bs) DOC_FIELD_OWNERSHIP)
  ∧ length (r_text_blocks unindexed_result) = length bs
  ∧ (classify_document bs ∈ ["site_notice"; "heritage"] →
     ∀ v resolved_fields, should_trigger_llm v unindexed_result resolved_fields = false).
Proof.
  apply (X19_gate_on_the_pipeline_result unindexed_layout unindexed_result).
  vm_compute. reflexivity.
Defined.

(** *** What the language model is asked for *)

Lemma insert_sorted_elem (x y : string) (l : list string) :
  y ∈ insert_sorted x l ↔ y = x ∨ y ∈ l.
Proof.
  induction l as [|z l IH]; cbn [insert_sorted].
  - rewrite list_elem_of_singleton, elem_of_nil. tauto.
  - destruct (String.compare x z) eqn:E.
    + apply String.compare_eq_iff in E as ->. rewrite elem_of_cons. tauto.
    + rewrite !elem_of_cons. tauto.
    + rewrite !elem_of_cons, IH. tauto.
Qed.

Lemma sorted_set_elem (y : string) (l : list string) : y ∈ sorted_set l ↔ y ∈ l.
Proof.
  induction l as [|x l IH]; [done|]. cbn [sorted_set foldr]. fold (sorted_set l).
  rewrite insert_sorted_elem, IH, elem_of_cons. tauto.
Qed.

Lemma elem_of_concat {A : Type} (x : A) (ls : list (list A)) :
  x ∈ concat ls ↔ ∃ l, x ∈ l ∧ l ∈ ls.
Proof.
  induction ls as [|l ls IH]; cbn [concat].
  - split; [by intros ?%elem_of_nil|]. intros (l & _ & Hl). by apply elem_of_nil in Hl.
  - rewrite elem_of_app, IH. split.
    + intros [Hx|(l' & Hx & Hl')].
      * exists l. split; [done | apply list_elem_of_here].
      * exists l'. split; [done | by apply list_elem_of_further].
    + intros (l' & Hx & [->|Hl']%elem_of_cons); [by left|]. right. by exists l'.
Qed.

Lemma compare_gt_lt (x y : string) : String.compare x y = Gt → String.compare y x = Lt.
Proof. intros H. rewrite String.compare_antisym, H. done. Qed.

Lemma insert_sorted_ascending (x : string) (l : list string) :
  ascending l → ascending (insert_sorted x l).
Proof.
  induction l as [|y l IH]; [done|]. intros Hl. cbn [insert_sorted].
  destruct (String.compare x y) eqn:E; [done | by split |].
  assert (Htl : ascending l) by (destruct l; [done | apply Hl]).
  specialize (IH Htl). destruct l as [|z l]; cbn [insert_sorted] in IH |- *.
  - split; [by apply compare_gt_lt | done].
  - destruct Hl as [Hyz _].
    destruct (String.compare x z) eqn:E'; (split; [|exact IH]);
      [done | by apply compare_gt_lt | done].
Qed.

Lemma sorted_set_ascending (l : list string) : ascending (sorted_set l).
Proof.
  induction l as [|x l IH]; [done|]. cbn [sorted_set foldr]. fold (sorted_set l).
  by apply insert_sorted_ascending.
Qed.

(** X20. The request of [resolve_with_llm_new] asks for every field that
    any finding misses, whatever the finding's status or severity, in
    strictly ascending order, and its return schema has one key per such
    field. The gate reason lists, in the same order, the fields missed by
    the findings of status [needs_review] or [fail]: each of them is among
    the fields asked for. The answer of the language model is passed on as
    it is. *)
Theorem X20_fields_asked_for {R : Type} (extraction : pipeline_result) (v : validation)
    (chat_json : llm_prompt → R) :
  let res := resolve_with_llm_new extraction v chat_json in
  request res = build_llm_prompt extraction v
  ∧ response res = chat_json (request res)
  ∧ (∀ x, x ∈ p_missing_fields (request res)
          ↔ ∃ f, f ∈ findings v ∧ x ∈ missing_fields f)
  ∧ (∀ x, x ∈ p_filled_fields (request res) ↔ x ∈ p_missing_fields (request res))
  ∧ (∀ x, x ∈ gate_missing_fields res
          ↔ ∃ f, f ∈ findings v ∧ needs_attention f = true ∧ x ∈ missing_fields f)
  ∧ (∀ x, x ∈ gate_missing_fields res → x ∈ p_missing_fields (request res))
  ∧ ascending (p_missing_fields (request res))
  ∧ ascending (gate_missing_fields res).
Proof.
  intros res. subst res. unfold resolve_with_llm_new, build_llm_prompt.
  cbn [request response p_missing_fields p_filled_fields gate_missing_fields].
  assert (Hall : ∀ x, x ∈ sorted_set (concat (missing_fields <$> findings v))
                      ↔ ∃ f, f ∈ findings v ∧ x ∈ missing_fields f).
  { intros x. rewrite sorted_set_elem, elem_of_concat. split.
    - intros (l & Hx & (f & -> & Hf)%list_elem_of_fmap). by exists f.
    - intros (f & Hf & Hx). exists (missing_fields f). split; [done|].
      by apply list_elem_of_fmap_2. }
  assert (Hgate : ∀ x,
            x ∈ sorted_set (concat (missing_fields
                                      <$> filter (λ f, needs_attention f = true)
                                            (findings v)))
            ↔ ∃ f, f ∈ findings v ∧ needs_attention f = true ∧ x ∈ missing_fields f).
  { intros x. rewrite sorted_set_elem, elem_of_concat. split.
    - intros (l & Hx & (f & -> & [Hs Hf]%list_elem_of_filter)%list_elem_of_fmap).
      by exists f.
    - intros (f & Hf & Hs & Hx). exists (missing_fields f). split; [done|].
      apply list_elem_of_fmap_2. by apply list_elem_of_filter. }
  split_and!; [done | done | exact Hall | | exact Hgate | | |].
  - intros x. by rewrite elem_of_list_to_set.
  - intros x (f & Hf & _ & Hx)%Hgate. apply Hall. by exists f.
  - apply sorted_set_ascending.
  - apply sorted_set_ascending.
Qed.

(** ** Blob addresses *)

Lemma contains_tail (sub : string) (c : ascii) (s : string) :
  Str.contains sub (String c s) = false →
  String.prefix sub (String c s) = false ∧ Str.contains sub s = false.
Proof. cbn [Str.contains]. by intros [? ?]%orb_false_iff. Qed.

Lemma replace_from_absent (old new s : string) :
  Str.contains old s = false → replace_from old new s 0 = s.
Proof.
  induction s as [|c s IH]; [done|]. intros [Hp Hs]%contains_tail.
  cbn [replace_from]. rewrite Hp. by rewrite IH.
Qed.

Lemma prefix_app (p r : string) : String.prefix p (p +:+ r) = true.
Proof.
  induction p as [|c p IH]; [by destruct r|].
  change (String c p +:+ r) with (String c (p +:+ r)). by rewrite prefix_cons.
Qed.

Lemma replace_scheme (rest : string) :
  Str.contains "azure://" rest = false → replace "azure://" "" ("azure://" +:+ rest) = rest.
Proof.
  intros Hrest. unfold replace.
  pose proof (prefix_app "azure://" rest) as Hp.
  change ("azure://" +:+ rest)
    with (String "a" (String "z" (String "u" (String "r" (String "e" (String ":"
            (String "/" (String "/" rest)))))))) in Hp |- *.
  cbn [replace_from]. rewrite Hp. cbn [String.length Nat.sub replace_from].
  change ("" +:+ replace_from "azure://" "" rest 0)
    with (replace_from "azure://" "" rest 0).
  by apply replace_from_absent.
Qed.

Lemma split_char_nonempty (sep : ascii) (m : nat) (s : string) : split_char sep m s ≠ [].
Proof.
  revert m. induction s as [|c s IH]; intros m; [done|]. cbn [split_char].
  destruct m as [|m]; [done|]. destruct (Ascii.eqb c sep); [done|].
  by destruct (split_char sep (S m) s).
Qed.

Lemma split_char_first (m : nat) (a rest : string) :
  slashes a = 0 →
  split_char "/" (S m) (a +:+ String "/" rest) = a :: split_char "/" m rest.
Proof.
  induction a as [|c a IH]; intros Ha.
  - done.
  - unfold slashes in Ha. cbn [Str.count] in Ha.
    change (String c a +:+ String "/" rest) with (String c (a +:+ String "/" rest)).
    cbn [split_char]. rewrite Ascii.eqb_sym.
    destruct (Ascii.eqb "/" c); [discriminate Ha|].
    by rewrite IH.
Qed.

Lemma split_char_last (s : string) : split_char "/" 0 s = [s].
Proof. by destruct s. Qed.

Lemma split_char_length (m : nat) (s : string) :
  length (split_char "/" m s) = S (Nat.min m (slashes s)).
Proof.
  revert m. induction s as [|c s IH]; intros m.
  - cbn. by rewrite Nat.min_0_r.
  - cbn [split_char]. destruct m as [|m]; [done|].
    unfold slashes. cbn [Str.count]. fold (slashes s). rewrite Ascii.eqb_sym.
    destruct (Ascii.eqb "/" c).
    + cbn [length]. rewrite IH. cbn. done.
    + pose proof (IH (S m)) as Hlen.
      destruct (split_char "/" (S m) s) as [|p ps]; [done|]. cbn [length] in *.
      by rewrite Hlen.
Qed.

(** X21. The container and the blob name that [extract_document] and
    [get_extraction_result] take from a blob address: an address
    [azure://{account}/{container}/{blob_name}] whose account and container
    hold no slash gives back that container and that blob name, slashes in
    the blob name included, provided the text after the scheme does not
    hold the scheme again. An address is rejected exactly when, once every
    occurrence of the scheme is removed, fewer than two slashes are left. *)
Theorem X21_blob_address_parts :
  (∀ account container blob_name,
     slashes account = 0 → slashes container = 0 →
     Str.contains "azure://" (account +:+ "/" +:+ container +:+ "/" +:+ blob_name) = false →
     blob_uri_parts ("azure://" +:+ account +:+ "/" +:+ container +:+ "/" +:+ blob_name)
     = Some (container, blob_name))
  ∧ (∀ blob_uri,
       blob_uri_parts blob_uri = None ↔ slashes (replace "azure://" "" blob_uri) < 2).
Proof.
  split.
  - intros account container blob_name Ha Hc Hrest. unfold blob_uri_parts.
    rewrite (replace_scheme _ Hrest).
    change (account +:+ "/" +:+ container +:+ "/" +:+ blob_name)
      with (account +:+ String "/" (container +:+ String "/" blob_name)).
    by rewrite !split_char_first, split_char_last.
  - intros blob_uri. unfold blob_uri_parts.
    pose proof (split_char_length 2 (replace "azure://" "" blob_uri)) as Hlen.
    destruct (split_char "/" 2 _) as [|p1 [|p2 [|p3 [|p4 ps]]]]; cbn [length] in Hlen;
      split; intros H; try done; lia.
Qed.

Lemma X21_witness_artefact_address :
  blob_uri_parts
    ("azure://" +:+ "account" +:+ "/" +:+ "artefacts" +:+ "/" +:+ "layouts/extracted_7.json")
  = Some ("artefacts", "layouts/extracted_7.json").
Proof.
  apply (proj1 X21_blob_address_parts "account" "artefacts" "layouts/extracted_7.json");
    reflexivity.
Defined.
